(** * The AI playlist pipeline of the Spotify "Generate Playlist" command

  A shallow embedding of the playlist generation command
  ([generatePlaylist.tsx] and its helper components) and the properties
  its specification states about it: the extraction of a JSON object
  from the raw answer of the text-completion service, the resolution of
  the suggested songs against the search API, the removal of duplicate
  tracks, the undo/redo history of generated playlist versions, and
  the requests of the handlers that play and queue a playlist.

  Conventions of the embedding:
  - a JavaScript string is the list of its UTF-16 code units ([list N]);
  - a JavaScript number used as an index or cursor is a [Z];
  - [undefined] is [None];
  - an object that the code compares by reference carries its heap
    address ([addr]);
  - a function that can throw returns a [result];
  - the requests sent to the Web API and to the application are kept in
    a log, and the answer to a request is a function of the log. *)

From Stdlib Require Import String Ascii ZArith NArith Bool List Lia.
Import ListNotations.

Set Implicit Arguments.
Set Warnings "-register-all".

(* ===================================================================== *)
(** * Part I: definitions *)
(* ===================================================================== *)

(** ** JavaScript values used by the command *)

Module JS.

(** A string, as the sequence of its UTF-16 code units. *)
Definition jsString := list N.

Fixpoint units (s : string) : jsString :=
  match s with
  | EmptyString => []
  | String a r => N_of_ascii a :: units r
  end.

(** A literal in which every apostrophe stands for a double quote
    (code unit 34), for JSON texts. *)
Definition quoted (s : string) : jsString :=
  map (fun c => if N.eqb c 39 then 34%N else c) (units s).

(** [\s] in a regular expression and the characters [trim] removes:
    WhiteSpace and LineTerminator of ECMAScript. *)
Definition isWhiteSpace (c : N) : bool :=
  ((9 <=? c) && (c <=? 13) || (c =? 32) || (c =? 160) || (c =? 5760)
   || (8192 <=? c) && (c <=? 8202) || (c =? 8232) || (c =? 8233)
   || (c =? 8239) || (c =? 8287) || (c =? 12288) || (c =? 65279))%N.

Fixpoint trimStart (s : jsString) : jsString :=
  match s with
  | [] => []
  | c :: r => if isWhiteSpace c then trimStart r else s
  end.

Definition trimEnd (s : jsString) : jsString := rev (trimStart (rev s)).

(** [s.trim()] *)
Definition trim (s : jsString) : jsString := trimEnd (trimStart s).

Fixpoint eqs (a b : jsString) : bool :=
  match a, b with
  | [], [] => true
  | x :: a', y :: b' => N.eqb x y && eqs a' b'
  | _, _ => false
  end.

(** [p] is a prefix of [s]; on success the rest of [s] is returned. *)
Fixpoint stripPrefix (p s : jsString) : option jsString :=
  match p, s with
  | [], _ => Some s
  | x :: p', y :: s' => if N.eqb x y then stripPrefix p' s' else None
  | _ :: _, [] => None
  end.

Definition startsWith (p s : jsString) : bool :=
  match stripPrefix p s with Some _ => true | None => false end.

(** [s.includes(p)] *)
Fixpoint includes (p s : jsString) : bool :=
  startsWith p s ||
  match s with
  | [] => false
  | _ :: r => includes p r
  end.

(** [arr[i]] for an integer [i]: [undefined] out of range. *)
Definition elemAt {A} (l : list A) (i : Z) : option A :=
  if (i <? 0)%Z then None else nth_error l (Z.to_nat i).

(** [arr.slice(0, e)]: a negative [e] counts from the end. *)
Definition slice0 {A} (l : list A) (e : Z) : list A :=
  let len := Z.of_nat (length l) in
  let final := if (e <? 0)%Z then Z.max (len + e) 0 else Z.min e len in
  firstn (Z.to_nat final) l.

(** [arr.filter((_, i) => i !== index)] *)
Fixpoint removeAt {A} (l : list A) (i : Z) : list A :=
  match l with
  | [] => []
  | x :: r => if (i =? 0)%Z then r else x :: removeAt r (i - 1)
  end.

(** An object that lives on the heap: [===] on objects compares [addr]. *)
Record object (A : Type) := Obj { addr : nat; fields : A }.

Definition sameObject {A} (a b : object A) : bool :=
  Nat.eqb (addr a) (addr b).

(** [arr.indexOf(o)] for an array of objects: [-1] when absent. *)
Fixpoint indexOfFrom {A} (l : list (object A)) (o : object A) (i : Z) : Z :=
  match l with
  | [] => (-1)%Z
  | x :: r => if sameObject x o then i else indexOfFrom r o (i + 1)
  end.

Definition indexOf {A} (l : list (object A)) (o : object A) : Z :=
  indexOfFrom l o 0.

(** The outcome of a call that may throw. *)
Inductive result (E A : Type) :=
| Ok (a : A)
| Throw (e : E).
Arguments Ok {E A} a.
Arguments Throw {E A} e.

End JS.

Import JS.

(** ** The version history of the command (index cursor)

  [Command] of generatePlaylist.tsx keeps [history] and [currentIndex]
  in two state cells.  A handler is a closure of one render of the
  component: [render] is the state that render saw, which is what the
  handler reads as [history], [currentIndex], [currentPlaylist],
  [canRevert] and [canRedo]; [st] is the state when the updates it
  queues are applied, which is what an updater function receives as
  [prev].  The handler returns the state after its updates.  A handler
  of the latest render that runs without other updates in between has
  [render = st]. *)

Module Command.

Section WithTracks.

(** The type of a resolved track ([SimplifiedTrackObject | null]). *)
Variable Track : Type.

Record PlaylistVersion := {
  name : jsString;
  description : jsString;
  tracks : list (option Track);
  prompt : jsString
}.

Record ErrorState := { message : jsString; failedPrompt : jsString }.

Record State := {
  history : list PlaylistVersion;
  currentIndex : Z;
  searchText : jsString;
  tuneError : option ErrorState
}.

(** [useState([])], [useState(0)], [useState("")], [useState(null)] *)
Definition initial : State :=
  {| history := []; currentIndex := 0; searchText := []; tuneError := None |}.

(** The effect that seeds the history with the first playlist. *)
Definition initialize (st : State) (initialPlaylist : PlaylistVersion) : State :=
  {| history := [initialPlaylist]; currentIndex := 0;
     searchText := searchText st; tuneError := tuneError st |}.

Definition currentPlaylist (st : State) : option PlaylistVersion :=
  elemAt (history st) (currentIndex st).

Definition canRevert (st : State) : bool := (currentIndex st >? 0)%Z.

Definition canRedo (st : State) : bool :=
  (currentIndex st <? Z.of_nat (length (history st)) - 1)%Z.

Definition getErrorMessage (errorString : jsString) : jsString :=
  if includes (units "503") errorString
     || includes (units "heroku") errorString
     || includes (units "Service Unavailable") errorString
  then units "AI service is temporarily unavailable. Please try again in a few moments."
  else if includes (units "Failed to parse AI response") errorString
          || includes (units "No JSON object found") errorString
  then units "AI returned an invalid response. Please try again."
  else if includes (units "rate limit") errorString
          || includes (units "429") errorString
  then units "Too many requests. Please wait a moment and try again."
  else if includes (units "contains no songs") errorString
          || includes (units "could be found on Spotify") errorString
  then units "AI didn't return any valid songs. Please try a different prompt."
  else errorString.

(** [tunePlaylist(prompt)].  [generated] is the outcome of the awaited
    part of the [try] block (asking the model, parsing its answer and
    resolving the songs): the new version, or the message of the error
    that was thrown.  The slice ends at the [currentIndex] of the
    closure; [prev] is the cell of [st]. *)
Definition tunePlaylist (render : State) (prompt : jsString)
           (generated : result jsString PlaylistVersion) (st : State) : State :=
  match trim prompt with
  | [] => st
  | _ :: _ =>
    match currentPlaylist render with
    | None => st
    | Some _ =>
      match generated with
      | Ok newVersion =>
        {| history := slice0 (history st) (currentIndex render + 1) ++ [newVersion];
           currentIndex := currentIndex st + 1;
           searchText := [];
           tuneError := None |}
      | Throw err =>
        {| history := history st;
           currentIndex := currentIndex st;
           searchText := prompt;
           tuneError := Some {| message := getErrorMessage err;
                                failedPrompt := prompt |} |}
      end
    end
  end.

Definition revertToPrevious (render st : State) : State :=
  if canRevert render
  then {| history := history st; currentIndex := currentIndex st - 1;
          searchText := searchText st; tuneError := None |}
  else st.

Definition redoNext (render st : State) : State :=
  if canRedo render
  then {| history := history st; currentIndex := currentIndex st + 1;
          searchText := searchText st; tuneError := None |}
  else st.

Definition jumpToVersion (render : State) (index : Z) (st : State) : State :=
  if ((index >=? 0) && (index <? Z.of_nat (length (history render))))%Z
  then {| history := history st; currentIndex := index;
          searchText := searchText st; tuneError := None |}
  else st.

(** The invariant of the specification: the cursor points into a
    non-empty history. *)
Definition cursorInRange (st : State) : Prop :=
  history st <> [] ->
  (0 <= currentIndex st < Z.of_nat (length (history st)))%Z.

End WithTracks.

End Command.

(** ** The selected playlist as a cursor

  The later [Command] keeps the selected playlist itself in a state cell
  and derives the cursor with [history.indexOf(currentPlaylist)].  As
  above, [render] is the state a closure reads and [st] the state its
  updates apply to. *)

Module TuneHistory.

Section WithPlaylists.

(** The fields of a [Playlist]; histories hold the objects themselves. *)
Variable PlaylistFields : Type.

Definition Playlist := object PlaylistFields.

Record State := {
  history : list Playlist;
  currentPlaylist : option Playlist
}.

(** [currentIndex]: [-1] without a selection or when the selected
    object is not in the history. *)
Definition currentIndex (st : State) : Z :=
  match currentPlaylist st with
  | None => (-1)%Z
  | Some p => indexOf (history st) p
  end.

(** The setters of the two state cells. *)
Definition setHistory (newHistory : list Playlist) (st : State) : State :=
  {| history := newHistory; currentPlaylist := currentPlaylist st |}.

Definition setCurrentPlaylist (p : option Playlist) (st : State) : State :=
  {| history := history st; currentPlaylist := p |}.

(** The updates of [tunePlaylist] after a successful generation: the new
    playlist is appended to [prevHistory] and selected. *)
Definition tunePlaylist (playlist : Playlist) (st : State) : State :=
  setCurrentPlaylist (Some playlist) (setHistory (history st ++ [playlist]) st).

Definition revertToPrevious (render st : State) : State :=
  if (currentIndex render >? 0)%Z
  then setCurrentPlaylist (elemAt (history render) (currentIndex render - 1)) st
  else st.

Definition redoNext (render st : State) : State :=
  if (currentIndex render <? Z.of_nat (length (history render)) - 1)%Z
  then setCurrentPlaylist (elemAt (history render) (currentIndex render + 1)) st
  else st.

Definition jumpToVersion (render : State) (index : Z) (st : State) : State :=
  if ((index >=? 0) && (index <? Z.of_nat (length (history render))))%Z
  then setCurrentPlaylist (elemAt (history render) index) st
  else st.

(** The index [handleDelete] passes to [onSelect]. *)
Definition selectionAfterDelete (current i : Z) (newHistory : list Playlist) : Z :=
  if (current >? i)%Z then (current - 1)%Z
  else if ((current =? i)%Z && negb (Nat.eqb (length newHistory) 0))
  then Z.max 0 (current - 1)
  else current.

Definition cursorInRange (st : State) : Prop :=
  history st <> [] ->
  (0 <= currentIndex st < Z.of_nat (length (history st)))%Z.

End WithPlaylists.

End TuneHistory.

(** ** The history list with deletion

  The [TuneHistoryList] component of components/TuneHistoryList.tsx adds
  the deletion of a version.  It changes the state of the [Command] that
  shows it through the callbacks it receives as properties. *)

Module TuneHistoryList.

Section WithPlaylists.

Variable PlaylistFields : Type.

Local Abbreviation Playlist := (TuneHistory.Playlist PlaylistFields).
Local Abbreviation State := (TuneHistory.State PlaylistFields).

(** [TuneHistoryListProps].  A callback is what it does to the state of
    [Command]; [setHistory] is [None] when the parent passes no such
    property, so that it is [undefined] in the component. *)
Record Props := {
  history : list Playlist;
  setHistory : option (list Playlist -> State -> State);
  currentPlaylist : option Playlist;
  onSelect : Z -> State -> State
}.

(** [currentPlaylist ? history.indexOf(currentPlaylist) : -1] *)
Definition currentIndex (props : Props) : Z :=
  match currentPlaylist props with
  | None => (-1)%Z
  | Some p => indexOf (history props) p
  end.

Inductive Error :=
| TypeError.  (* the call of a property that is undefined *)

(** [handleDelete(index)]: the local history it asks for with
    [setLocalHistory], the state of [Command] after the callbacks it
    reached, and whether it returned or threw.  The call of a
    [setHistory] that is [undefined] throws before [onSelect] is
    reached. *)
Definition handleDelete (props : Props) (localHistory : list Playlist)
           (index : Z) (st : State)
  : list Playlist * State * result Error unit :=
  let newHistory := removeAt localHistory index in
  match setHistory props with
  | None => (newHistory, st, Throw TypeError)
  | Some setHistory =>
    let st := setHistory newHistory st in
    (newHistory,
     onSelect props
       (TuneHistory.selectionAfterDelete (currentIndex props) index newHistory) st,
     Ok tt)
  end.

(** The list as [Command] creates it:
    [<TuneHistoryList history={history} currentPlaylist={currentPlaylist}
    onSelect={jumpToVersion} />], without [setHistory]. *)
Definition viewHistory (render : State) : Props :=
  {| history := TuneHistory.history render;
     setHistory := None;
     currentPlaylist := TuneHistory.currentPlaylist render;
     onSelect := TuneHistory.jumpToVersion render |}.

(** The same list from a parent that also passes the setter of its
    history cell, as the type of the properties asks for. *)
Definition viewHistoryWithSetter (render : State) : Props :=
  {| history := TuneHistory.history render;
     setHistory := Some (@TuneHistory.setHistory PlaylistFields);
     currentPlaylist := TuneHistory.currentPlaylist render;
     onSelect := TuneHistory.jumpToVersion render |}.

End WithPlaylists.

End TuneHistoryList.

(** ** [JSON.parse]

  The built-in parser, as the grammar of ECMA-404 read one code unit at a
  time: a lexer state for the token being read and a stack of the arrays
  and objects that are still open.  A number is kept as its literal (the
  double it denotes is a function of the literal). *)

Module JSON.

Inductive value :=
| JNull
| JBool (b : bool)
| JNumber (literal : jsString)
| JString (s : jsString)
| JArray (items : list value)
| JObject (members : list (jsString * value)).

(** Defining property [k] of an object under construction: a repeated
    key keeps its place and takes the later value. *)
Fixpoint setMember (k : jsString) (v : value)
         (ms : list (jsString * value)) : list (jsString * value) :=
  match ms with
  | [] => [(k, v)]
  | (k', v') :: r =>
    if eqs k' k then (k', v) :: r else (k', v') :: setMember k v r
  end.

(** [o[k]] for the own properties of a parsed object. *)
Fixpoint getMember (k : jsString) (ms : list (jsString * value)) : option value :=
  match ms with
  | [] => None
  | (k', v) :: r => if eqs k' k then Some v else getMember k r
  end.

Inductive numState :=
| NMinus | NZero | NInt | NDot | NFrac | NExp | NExpSign | NExpDigits.

Inductive lexState :=
| LIdle
| LString (acc : jsString)
| LEscape (acc : jsString)
| LUnicode (acc : jsString) (digits : list N)
| LNumber (st : numState) (acc : jsString)
| LLiteral (rest : jsString) (v : value).

Inductive frame :=
| FArray (items : list value)
| FObject (members : list (jsString * value)) (key : option jsString).

Inductive expect :=
| EValue
| EValueOrEnd
| EKeyOrEnd
| EKey
| EColon
| ECommaOrEnd
| EDone (v : value).

Record machine := {
  lexer : lexState;
  expected : expect;
  stack : list frame
}.

Definition start : machine :=
  {| lexer := LIdle; expected := EValue; stack := [] |}.

Definition isJsonSpace (c : N) : bool :=
  ((c =? 32) || (c =? 9) || (c =? 10) || (c =? 13))%N.

Definition isDigit (c : N) : bool := ((48 <=? c) && (c <=? 57))%N.

Definition hexValue (c : N) : option N :=
  if ((48 <=? c) && (c <=? 57))%N then Some (c - 48)%N
  else if ((65 <=? c) && (c <=? 70))%N then Some (c - 55)%N
  else if ((97 <=? c) && (c <=? 102))%N then Some (c - 87)%N
  else None.

Definition wantsValue (e : expect) : bool :=
  match e with EValue | EValueOrEnd => true | _ => false end.

(** A value is complete: it becomes the result, the next element of the
    open array or the value of the pending key. *)
Definition closeValue (v : value) (st : list frame) : option machine :=
  match st with
  | [] => Some {| lexer := LIdle; expected := EDone v; stack := [] |}
  | FArray items :: r =>
    Some {| lexer := LIdle; expected := ECommaOrEnd;
            stack := FArray (v :: items) :: r |}
  | FObject ms (Some k) :: r =>
    Some {| lexer := LIdle; expected := ECommaOrEnd;
            stack := FObject (setMember k v ms) None :: r |}
  | FObject _ None :: _ => None
  end.

Definition scalar (v : value) (e : expect) (st : list frame) : option machine :=
  if wantsValue e then closeValue v st else None.

(** A complete string literal is a key or a value. *)
Definition stringToken (s : jsString) (e : expect) (st : list frame) : option machine :=
  match e, st with
  | (EKeyOrEnd | EKey), FObject ms None :: r =>
    Some {| lexer := LIdle; expected := EColon; stack := FObject ms (Some s) :: r |}
  | (EValue | EValueOrEnd), _ => closeValue (JString s) st
  | _, _ => None
  end.

(** A code unit read between tokens. *)
Definition idleStep (c : N) (e : expect) (st : list frame) : option machine :=
  let lex l := Some {| lexer := l; expected := e; stack := st |} in
  if isJsonSpace c then lex LIdle
  else if (c =? 34)%N then lex (LString [])
  else if (c =? 45)%N then lex (LNumber NMinus [c])
  else if (c =? 48)%N then lex (LNumber NZero [c])
  else if isDigit c then lex (LNumber NInt [c])
  else if (c =? 116)%N then lex (LLiteral (units "rue") (JBool true))
  else if (c =? 102)%N then lex (LLiteral (units "alse") (JBool false))
  else if (c =? 110)%N then lex (LLiteral (units "ull") JNull)
  else if (c =? 123)%N then
    if wantsValue e
    then Some {| lexer := LIdle; expected := EKeyOrEnd; stack := FObject [] None :: st |}
    else None
  else if (c =? 91)%N then
    if wantsValue e
    then Some {| lexer := LIdle; expected := EValueOrEnd; stack := FArray [] :: st |}
    else None
  else if (c =? 125)%N then
    match e, st with
    | (EKeyOrEnd | ECommaOrEnd), FObject ms None :: r => closeValue (JObject ms) r
    | _, _ => None
    end
  else if (c =? 93)%N then
    match e, st with
    | (EValueOrEnd | ECommaOrEnd), FArray items :: r => closeValue (JArray (rev items)) r
    | _, _ => None
    end
  else if (c =? 44)%N then
    match e, st with
    | ECommaOrEnd, FArray _ :: _ => Some {| lexer := LIdle; expected := EValue; stack := st |}
    | ECommaOrEnd, FObject _ None :: _ => Some {| lexer := LIdle; expected := EKey; stack := st |}
    | _, _ => None
    end
  else if (c =? 58)%N then
    match e with
    | EColon => Some {| lexer := LIdle; expected := EValue; stack := st |}
    | _ => None
    end
  else None.

(** The number grammar: the state after [c], if [c] continues the
    literal. *)
Definition numberNext (n : numState) (c : N) : option numState :=
  let isE := ((c =? 101) || (c =? 69))%N in
  match n with
  | NMinus => if (c =? 48)%N then Some NZero else if isDigit c then Some NInt else None
  | NZero => if (c =? 46)%N then Some NDot else if isE then Some NExp else None
  | NInt => if isDigit c then Some NInt
            else if (c =? 46)%N then Some NDot else if isE then Some NExp else None
  | NDot => if isDigit c then Some NFrac else None
  | NFrac => if isDigit c then Some NFrac else if isE then Some NExp else None
  | NExp => if ((c =? 43) || (c =? 45))%N then Some NExpSign
            else if isDigit c then Some NExpDigits else None
  | NExpSign => if isDigit c then Some NExpDigits else None
  | NExpDigits => if isDigit c then Some NExpDigits else None
  end.

Definition numberComplete (n : numState) : bool :=
  match n with NZero | NInt | NFrac | NExpDigits => true | _ => false end.

Definition escapeUnit (c : N) : option N :=
  if ((c =? 34) || (c =? 92) || (c =? 47))%N then Some c
  else if (c =? 98)%N then Some 8%N
  else if (c =? 102)%N then Some 12%N
  else if (c =? 110)%N then Some 10%N
  else if (c =? 114)%N then Some 13%N
  else if (c =? 116)%N then Some 9%N
  else None.

Definition step (m : machine) (c : N) : option machine :=
  let e := expected m in
  let st := stack m in
  let lex l := Some {| lexer := l; expected := e; stack := st |} in
  match lexer m with
  | LIdle => idleStep c e st
  | LString acc =>
    if (c =? 34)%N then stringToken (rev acc) e st
    else if (c =? 92)%N then lex (LEscape acc)
    else if (c <? 32)%N then None
    else lex (LString (c :: acc))
  | LEscape acc =>
    if (c =? 117)%N then lex (LUnicode acc [])
    else match escapeUnit c with
         | Some u => lex (LString (u :: acc))
         | None => None
         end
  | LUnicode acc ds =>
    match hexValue c with
    | None => None
    | Some d =>
      match ds with
      | [d2; d1; d0] => lex (LString ((((d0 * 16 + d1) * 16 + d2) * 16 + d)%N :: acc))
      | _ => lex (LUnicode acc (d :: ds))
      end
    end
  | LNumber n acc =>
    match numberNext n c with
    | Some n' => lex (LNumber n' (c :: acc))
    | None =>
      if numberComplete n
      then match scalar (JNumber (rev acc)) e st with
           | Some m' => idleStep c (expected m') (stack m')
           | None => None
           end
      else None
    end
  | LLiteral rest v =>
    match rest with
    | [] => None
    | x :: rest' =>
      if (c =? x)%N
      then match rest' with
           | [] => scalar v e st
           | _ :: _ => lex (LLiteral rest' v)
           end
      else None
    end
  end.

(** Reading a text from a machine state; [None] is a syntax error. *)
Fixpoint run (m : machine) (s : jsString) : option machine :=
  match s with
  | [] => Some m
  | c :: r =>
    match step m c with
    | Some m' => run m' r
    | None => None
    end
  end.

(** The end of the text: the value must be complete. *)
Definition finish (m : machine) : option value :=
  match lexer m with
  | LIdle => match expected m with EDone v => Some v | _ => None end
  | LNumber n acc =>
    if numberComplete n
    then match scalar (JNumber (rev acc)) (expected m) (stack m) with
         | Some m' => match expected m' with EDone v => Some v | _ => None end
         | None => None
         end
    else None
  | _ => None
  end.

(** Reading the rest of a text from a machine state, to its end. *)
Definition parseFrom (m : machine) (s : jsString) : option value :=
  match run m s with
  | Some m' => finish m'
  | None => None
  end.

(** [JSON.parse(text)]: [None] when it throws a [SyntaxError]. *)
Definition parse (text : jsString) : option value := parseFrom start text.

(** *** Notions used to reason about the parser *)

(** The parser is between two tokens, or at the end of a number (which
    only the next code unit ends). *)
Definition betweenTokens (m : machine) : bool :=
  match lexer m with
  | LIdle => true
  | LNumber _ _ => true
  | _ => false
  end.

Definition inString (m : machine) : bool :=
  match lexer m with
  | LString _ => true
  | _ => false
  end.

(** The rest of a literal name is made of small letters (as the rests of
    [true], [false] and [null] are). *)
Definition wellFormed (m : machine) : bool :=
  match lexer m with
  | LLiteral rest _ => forallb (fun c => (97 <=? c) && (c <=? 122))%N rest
  | _ => true
  end.

(** A machine state without the values it has built. *)
Inductive lexShape :=
| SIdle | SString | SEscape | SUnicode (read : nat)
| SNumber (st : numState) | SLiteral (rest : jsString).

Inductive frameShape := SArray | SObject (hasKey : bool).

Inductive expectShape :=
| XValue | XValueOrEnd | XKeyOrEnd | XKey | XColon | XCommaOrEnd | XDone.

Definition shapeOfLexer (l : lexState) : lexShape :=
  match l with
  | LIdle => SIdle
  | LString _ => SString
  | LEscape _ => SEscape
  | LUnicode _ ds => SUnicode (length ds)
  | LNumber n _ => SNumber n
  | LLiteral rest _ => SLiteral rest
  end.

Definition shapeOfFrame (f : frame) : frameShape :=
  match f with
  | FArray _ => SArray
  | FObject _ (Some _) => SObject true
  | FObject _ None => SObject false
  end.

Definition shapeOfExpect (e : expect) : expectShape :=
  match e with
  | EValue => XValue
  | EValueOrEnd => XValueOrEnd
  | EKeyOrEnd => XKeyOrEnd
  | EKey => XKey
  | EColon => XColon
  | ECommaOrEnd => XCommaOrEnd
  | EDone _ => XDone
  end.

Definition shape (m : machine) : lexShape * expectShape * list frameShape :=
  (shapeOfLexer (lexer m), shapeOfExpect (expected m), map shapeOfFrame (stack m)).

(** The value is complete and something that is not white space was read
    after it: no continuation can be accepted. *)
Definition doomed (m : machine) : bool :=
  match expected m, lexer m with
  | EDone _, LIdle => false
  | EDone _, _ => true
  | _, _ => false
  end.

(** The parser is between two tokens after reading [a]. *)
Definition atTokenBoundary (a : jsString) : bool :=
  match run start a with
  | Some m => betweenTokens m
  | None => false
  end.

(** Two outcomes of the parser with the same shape. *)
Definition sameShape (a b : option machine) : Prop :=
  match a, b with
  | Some x, Some y => shape x = shape y
  | None, None => True
  | _, _ => False
  end.

Definition isClosingUnit (c : N) : Prop := c = 125%N \/ c = 93%N.

(** The frames of the stack, as objects ([true]) and arrays. *)
Definition isObjectFrame (f : frame) : bool :=
  match f with FObject _ _ => true | FArray _ => false end.

Definition kinds (m : machine) : list bool := map isObjectFrame (stack m).

(** The outermost open frame is an object. *)
Definition rooted (ks : list bool) : bool := last ks false.

(** The number of open objects. *)
Fixpoint objectDepth (ks : list bool) : Z :=
  match ks with
  | [] => 0
  | k :: r => (if k then 1 else 0) + objectDepth r
  end.

Definition isDone (m : machine) : bool :=
  match expected m with EDone _ => true | _ => false end.

Definition isObject (v : value) : bool :=
  match v with JObject _ => true | _ => false end.

(** The value being read is an object: either it is complete, or the
    outermost open frame is an object. *)
Definition readsObject (m : machine) : bool :=
  match expected m with
  | EDone v => isObject v && match stack m with [] => true | _ => false end
  | _ => rooted (kinds m)
  end.

Definition isBrace (c : N) : bool := ((c =? 123) || (c =? 125))%N.

(** Reading [s] from [m], no brace is read inside a string literal. *)
Fixpoint bracesOutside (m : machine) (s : jsString) : bool :=
  match s with
  | [] => true
  | c :: r =>
    (negb (isBrace c) || negb (inString m))
    && match step m c with
       | Some m' => bracesOutside m' r
       | None => true
       end
  end.

End JSON.

(** ** From the raw answer to a playlist suggestion *)

Module Extractor.

Definition fence : jsString := units "```".
Definition comma : N := 44%N.
Definition openBrace : N := 123%N.
Definition closeBrace : N := 125%N.
Definition closeBracket : N := 93%N.

(** The text before the first [```] of [s]. *)
Fixpoint untilFence (s : jsString) : option jsString :=
  match s with
  | [] => None
  | c :: r =>
    if startsWith fence s then Some []
    else match untilFence r with
         | Some inner => Some (c :: inner)
         | None => None
         end
  end.

(** What [(?:json)?\s*] consumes after an opening fence: both are
    greedy, and giving characters back cannot help the rest of the
    pattern, since none of them is a backtick. *)
Definition afterOpening (s : jsString) : jsString :=
  trimStart (match stripPrefix (units "json") s with
             | Some r => r
             | None => s
             end).

(** Group 1 of the first match of [/```(?:json)?\s*([\s\S]*?)```/]. *)
Fixpoint codeBlockMatch (s : jsString) : option jsString :=
  match s with
  | [] => None
  | _ :: r =>
    match stripPrefix fence s with
    | Some rest =>
      match untilFence (afterOpening rest) with
      | Some inner => Some inner
      | None => codeBlockMatch r
      end
    | None => codeBlockMatch r
    end
  end.

(** The suffix of [s] that starts at the first [c]. *)
Fixpoint fromFirst (c : N) (s : jsString) : option jsString :=
  match s with
  | [] => None
  | x :: r => if (x =? c)%N then Some s else fromFirst c r
  end.

(** The prefix of [s] that ends at the last [c]. *)
Definition uptoLast (c : N) (s : jsString) : option jsString :=
  match fromFirst c (rev s) with
  | Some r => Some (rev r)
  | None => None
  end.

(** The match of [/\{[\s\S]*\}/]: from the first opening brace to the
    last closing brace after it. *)
Definition jsonMatch (s : jsString) : option jsString :=
  match fromFirst openBrace s with
  | Some (b :: r) =>
    match uptoLast closeBrace r with
    | Some body => Some (b :: body)
    | None => None
    end
  | _ => None
  end.

Definition isClosing (c : N) : bool := ((c =? closeBrace) || (c =? closeBracket))%N.

(** [\s*([}\]])] matches at the head of [s]. *)
Definition closingAhead (s : jsString) : bool :=
  match trimStart s with
  | c :: _ => isClosing c
  | [] => false
  end.

(** [s.replace(/,\s*([}\]])/g, "$1")], read from left to right.  With
    [inMatch] the scan is inside a match, after its comma: the white
    space is dropped and the bracket that ends the match is kept. *)
Fixpoint replaceFrom (inMatch : bool) (s : jsString) : jsString :=
  match s with
  | [] => []
  | c :: r =>
    if inMatch
    then if isWhiteSpace c then replaceFrom true r else c :: replaceFrom false r
    else if (c =? comma)%N && closingAhead r then replaceFrom true r
    else c :: replaceFrom false r
  end.

Definition stripTrailingCommas (s : jsString) : jsString := replaceFrom false s.

Inductive Error :=
| NoJsonObjectFound   (* "No JSON object found in AI response" *)
| FailedToParse       (* "Failed to parse AI response: ..." *)
| ContainsNoSongs     (* "AI response contains no songs. ..." *)
| TypeError.          (* a property read on null *)

(** [cleanAIResponse(data)]: the statements that [parseAiPlaylistResponse]
    runs before it parses. *)
Definition cleanAIResponse (data : jsString) : result Error jsString :=
  let jsonString :=
    match codeBlockMatch data with
    | Some inner => trim inner
    | None => data
    end in
  match jsonMatch jsonString with
  | None => Throw NoJsonObjectFound
  | Some m => Ok (stripTrailingCommas m)
  end.

(** *** Notions used to reason about the cleanup and the repair *)

(** Some code unit of [s] is not white space. *)
Definition solid (s : jsString) : bool :=
  existsb (fun c => negb (isWhiteSpace c)) s.

(** No comma of [s] is followed by white space only, up to the end of
    [s]: whether the pattern matches at a comma of [s] does not depend on
    what follows [s]. *)
Definition noPendingComma (s : jsString) : Prop :=
  forall a w, s = a ++ comma :: w -> solid w = true.

(** The last code unit of [s] that is not white space is a comma. *)
Definition endsWithComma (s : jsString) : bool :=
  match trimStart (rev s) with
  | c :: _ => (c =? comma)%N
  | [] => false
  end.

(** From the brace depth [d], the depth returns to zero at the last code
    unit of [p], and not before. *)
Fixpoint closes (d : Z) (p : jsString) : bool :=
  match p with
  | [] => false
  | c :: r =>
    let d := if (c =? openBrace)%N then (d + 1)%Z else d in
    if (c =? closeBrace)%N
    then if (d - 1 =? 0)%Z then match r with [] => true | _ :: _ => false end
         else closes (d - 1) r
    else closes d r
  end.

(** No [```] in [s]. *)
Definition noFence (s : jsString) : Prop := untilFence s = None.

(** No fence begins in [x], even when backticks follow [x]. *)
Definition fenceFree (x : jsString) : Prop := noFence (x ++ [96; 96]%N).

(** [c] does not occur in [s]. *)
Definition lacks (c : N) (s : jsString) : bool := forallb (fun x => negb (x =? c)%N) s.

(** What follows the object, up to the last closing brace. *)
Definition proseSpan (prose : jsString) : jsString :=
  match uptoLast closeBrace prose with
  | Some p => p
  | None => []
  end.

(** The loop of the [catch] block: [Some endIndex] when it breaks. *)
Fixpoint braceLoop (s : jsString) (braceCount : Z) (i : nat) : option nat :=
  match s with
  | [] => None
  | c :: r =>
    let braceCount := if (c =? openBrace)%N then (braceCount + 1)%Z else braceCount in
    if (c =? closeBrace)%N
    then if (braceCount - 1 =? 0)%Z then Some (i + 1)%nat
         else braceLoop r (braceCount - 1) (i + 1)
    else braceLoop r braceCount (i + 1)
  end.

Definition endIndex (s : jsString) : nat :=
  match braceLoop s 0 0 with
  | Some e => e
  | None => length s
  end.

(** [jsonString.substring(0, endIndex)] *)
Definition repair (s : jsString) : jsString := firstn (endIndex s) s.

(** What the loop keeps of [s] when it starts at the brace depth [d]. *)
Definition keptFrom (d : Z) (s : jsString) : jsString :=
  match braceLoop s d 0 with
  | Some e => firstn e s
  | None => s
  end.

(** The two parse attempts. *)
Definition parseWithRepair (jsonString : jsString) : result Error JSON.value :=
  match JSON.parse jsonString with
  | Some playlist => Ok playlist
  | None =>
    match JSON.parse (repair jsonString) with
    | Some playlist => Ok playlist
    | None => Throw FailedToParse
    end
  end.

(** The digits of a number literal before its exponent. *)
Fixpoint mantissa (l : jsString) : jsString :=
  match l with
  | [] => []
  | c :: r => if ((c =? 101) || (c =? 69))%N then [] else c :: mantissa r
  end.

(** The literal denotes zero: no digit of the mantissa is 1 to 9.  (A
    literal that underflows to zero is not told apart; a number is
    rejected by [Array.isArray] in any case.) *)
Definition isZeroLiteral (l : jsString) : bool :=
  forallb (fun c => negb ((49 <=? c) && (c <=? 57))%N) (mantissa l).

(** [!v] *)
Definition falsy (v : option JSON.value) : bool :=
  match v with
  | None => true
  | Some JSON.JNull => true
  | Some (JSON.JBool b) => negb b
  | Some (JSON.JString s) => match s with [] => true | _ => false end
  | Some (JSON.JNumber l) => isZeroLiteral l
  | Some _ => false
  end.

Definition isArray (v : option JSON.value) : bool :=
  match v with Some (JSON.JArray _) => true | _ => false end.

Definition lengthOf (v : option JSON.value) : nat :=
  match v with Some (JSON.JArray items) => length items | _ => 0 end.

(** [playlist.tracks] *)
Definition tracksOf (playlist : JSON.value) : result Error (option JSON.value) :=
  match playlist with
  | JSON.JObject ms => Ok (JSON.getMember (units "tracks") ms)
  | JSON.JNull => Throw TypeError
  | _ => Ok None
  end.

(** [parseAiPlaylistResponse(data)] *)
Definition parseAiPlaylistResponse (data : jsString) : result Error JSON.value :=
  match cleanAIResponse data with
  | Throw e => Throw e
  | Ok jsonString =>
    match parseWithRepair jsonString with
    | Throw e => Throw e
    | Ok playlist =>
      match tracksOf playlist with
      | Throw e => Throw e
      | Ok tracks =>
        if falsy tracks || negb (isArray tracks) || Nat.eqb (lengthOf tracks) 0
        then Throw ContainsNoSongs
        else Ok playlist
      end
    end
  end.

(** A playlist suggestion with at least one suggested song. *)
Definition hasSongs (playlist : JSON.value) : Prop :=
  exists ms items,
    playlist = JSON.JObject ms
    /\ JSON.getMember (units "tracks") ms = Some (JSON.JArray items)
    /\ items <> [].

(** [tracks] is missing, not a list, or an empty list. *)
Definition noSongs (ms : list (jsString * JSON.value)) : Prop :=
  JSON.getMember (units "tracks") ms = None
  \/ (exists v, JSON.getMember (units "tracks") ms = Some v
                /\ forall items, v <> JSON.JArray items)
  \/ JSON.getMember (units "tracks") ms = Some (JSON.JArray []).

(** The earlier [parseAiPlaylistResponse], which returns what it parsed
    without looking at [tracks]. *)
Definition parseAiPlaylistResponse_unvalidated (data : jsString)
  : result Error JSON.value :=
  match cleanAIResponse data with
  | Throw e => Throw e
  | Ok jsonString => parseWithRepair jsonString
  end.

End Extractor.

(** ** Resolving the suggested songs on Spotify *)

Module Resolver.

Section WithSearch.

(** [SimplifiedTrackObject] *)
Variable Track : Type.

(** The body of a search answer: [response?.items]. *)
Record SearchResponse := { items : option (list Track) }.

(** [searchTracks(query, limit)]: the answer (possibly [undefined]), or
    the error it throws. *)
Variable searchTracks : jsString -> Z -> result jsString (option SearchResponse).

Record Suggestion := { title : jsString; artist : jsString }.

(** [`track:${song.title} artist:${song.artist}`] *)
Definition strictQuery (song : Suggestion) : jsString :=
  units "track:" ++ title song ++ units " artist:" ++ artist song.

(** [`${song.title} ${song.artist}`] *)
Definition lenientQuery (song : Suggestion) : jsString :=
  title song ++ units " " ++ artist song.

(** [response?.items?.[0]] *)
Definition firstHit (response : option SearchResponse) : option Track :=
  match response with
  | Some r => match items r with
              | Some (t :: _) => Some t
              | _ => None
              end
  | None => None
  end.

(** The three outcomes of one search. *)
Definition throws (query : jsString) : Prop :=
  exists e, searchTracks query 1 = Throw e.

Definition hits (query : jsString) (t : Track) : Prop :=
  exists r, searchTracks query 1 = Ok r /\ firstHit r = Some t.

Definition noHit (query : jsString) : Prop :=
  exists r, searchTracks query 1 = Ok r /\ firstHit r = None.

(** The callback of [aiTracks.map], with the queries it sends to the
    search API, in order. *)
Definition resolveSongLog (song : Suggestion) : list jsString * option Track :=
  match searchTracks (strictQuery song) 1 with
  | Throw _ => ([strictQuery song], None)
  | Ok response =>
    match firstHit response with
    | Some track => ([strictQuery song], Some track)
    | None =>
      match searchTracks (lenientQuery song) 1 with
      | Throw _ => ([strictQuery song; lenientQuery song], None)
      | Ok response' => ([strictQuery song; lenientQuery song], firstHit response')
      end
    end
  end.

Definition resolveSong (song : Suggestion) : option Track :=
  snd (resolveSongLog song).

Inductive Error :=
| NoneCouldBeFound.  (* "None of the suggested songs could be found on Spotify. ..." *)

Definition isNull {A} (t : option A) : bool :=
  match t with None => true | Some _ => false end.

(** [resolveTracksOnSpotify(aiTracks)]: [Promise.all] returns the
    results in the order of the suggestions. *)
Definition resolveTracksOnSpotify (aiTracks : list Suggestion)
  : result Error (list (option Track)) :=
  let tracks := map resolveSong aiTracks in
  let validTracks := filter (fun t => negb (isNull t)) tracks in
  if Nat.eqb (length validTracks) 0
  then Throw NoneCouldBeFound
  else Ok tracks.

(** The earlier callback: one strict query, no second attempt. *)
Definition resolveSong_strictOnly (song : Suggestion) : option Track :=
  match searchTracks (strictQuery song) 1 with
  | Throw _ => None
  | Ok response => firstHit response
  end.

(** The earlier [resolveTracksOnSpotify]: no check of the result. *)
Definition resolveTracksOnSpotify_unchecked (aiTracks : list Suggestion)
  : list (option Track) :=
  map resolveSong_strictOnly aiTracks.

(** The variant of the command with [cleanAIResponse] (its suggestions
    have the fields [name] and [artists]): the strict query only, and
    [validTracks] is what is returned. *)
Definition resolveTracksOnSpotify_validOnly (aiTracks : list Suggestion)
  : result Error (list (option Track)) :=
  let tracks := map resolveSong_strictOnly aiTracks in
  let validTracks := filter (fun t => negb (isNull t)) tracks in
  if Nat.eqb (length validTracks) 0
  then Throw NoneCouldBeFound
  else Ok validTracks.

End WithSearch.

End Resolver.

(** ** Removing duplicate songs from the playlist that is shown *)

Module Dedup.

Section WithTracks.

(** The fields of a track object; [id] is [undefined] when absent. *)
Variable TrackFields : Type.
Variable id : TrackFields -> option jsString.

Definition Track := object TrackFields.

(** [===] on two [id] values. *)
Definition sameId (a b : option jsString) : bool :=
  match a, b with
  | None, None => true
  | Some x, Some y => eqs x y
  | _, _ => false
  end.

(** [t?.id] *)
Definition idOf (t : option Track) : option jsString :=
  match t with
  | Some o => id (fields o)
  | None => None
  end.

(** [arr.findIndex(p)], counting from [i]. *)
Fixpoint findIndexFrom {A} (p : A -> bool) (arr : list A) (i : Z) : Z :=
  match arr with
  | [] => (-1)%Z
  | x :: r => if p x then i else findIndexFrom p r (i + 1)
  end.

Definition findIndex {A} (p : A -> bool) (arr : list A) : Z :=
  findIndexFrom p arr 0.

(** [arr.filter((x, index, arr) => p(x, index, arr))], counting from [i]. *)
Fixpoint filterFrom {A} (p : A -> Z -> bool) (l : list A) (i : Z) : list A :=
  match l with
  | [] => []
  | x :: r => if p x i then x :: filterFrom p r (i + 1) else filterFrom p r (i + 1)
  end.

(** The callback of the filter: [track && arr.findIndex((t) => t?.id ===
    track.id) === index]. *)
Definition firstWithItsId (arr : list (option Track))
           (track : option Track) (index : Z) : bool :=
  match track with
  | None => false
  | Some o =>
    (findIndex (fun t => sameId (idOf t) (id (fields o))) arr =? index)%Z
  end.

(** [tracks], filtered by track ID; an undefined list gives [[]]. *)
Definition dedupById (tracks : option (list (option Track))) : list (option Track) :=
  match tracks with
  | Some arr => filterFrom (firstWithItsId arr) arr 0
  | None => []
  end.

(** Removal of later duplicates by track ID, written as one pass that
    remembers the [id] values read so far ([undefined] for a [null]
    entry): the reading of the specification, to compare with
    [dedupById]. *)
Fixpoint firstOccurrences (seen : list (option jsString))
         (arr : list (option Track)) : list (option Track) :=
  match arr with
  | [] => []
  | None :: r => firstOccurrences (None :: seen) r
  | Some o :: r =>
    if existsb (fun k => sameId k (id (fields o))) seen
    then firstOccurrences (id (fields o) :: seen) r
    else Some o :: firstOccurrences (id (fields o) :: seen) r
  end.

(** SameValueZero on array entries: [null] equals [null], two objects
    are equal when they are the same object. *)
Definition sameEntry (a b : option Track) : bool :=
  match a, b with
  | None, None => true
  | Some x, Some y => sameObject x y
  | _, _ => false
  end.

(** The entries of [new Set(arr)] in insertion order, given the entries
    already in the set. *)
Fixpoint addAll (seen : list (option Track)) (arr : list (option Track))
  : list (option Track) :=
  match arr with
  | [] => []
  | x :: r =>
    if existsb (sameEntry x) seen then addAll seen r
    else x :: addAll (x :: seen) r
  end.

(** [[...new Set(tracks)]]; an undefined list gives [[]]. *)
Definition dedupBySet (tracks : option (list (option Track))) : list (option Track) :=
  match tracks with
  | Some arr => addAll [] arr
  | None => []
  end.

End WithTracks.

End Dedup.

(** ** Concrete inputs used by the examples *)

Module Samples.

(** History [[A;B;C]] with the cursor on [B], as after one revert. *)
Definition version (n : string) : Command.PlaylistVersion unit :=
{| Command.name := units n; Command.description := [];
   Command.tracks := []; Command.prompt := units n |}.

Definition revertedABC : Command.State unit :=
{| Command.history := [version "A"; version "B"; version "C"];
   Command.currentIndex := 1; Command.searchText := [];
   Command.tuneError := None |}.

(** Two playlists as two objects, the second one selected. *)
Definition playlistA : TuneHistory.Playlist string := Obj 1 "A"%string.
Definition playlistB : TuneHistory.Playlist string := Obj 2 "B"%string.

Definition selectedB : TuneHistory.State string :=
{| TuneHistory.history := [playlistA; playlistB];
   TuneHistory.currentPlaylist := Some playlistB |}.

(** A search API that knows one song, and only under the lenient query. *)
Definition song1 : Resolver.Suggestion :=
{| Resolver.title := units "Song"; Resolver.artist := units "Artist" |}.
Definition song2 : Resolver.Suggestion :=
{| Resolver.title := units "Other"; Resolver.artist := units "Nobody" |}.

Definition lenientOnly (query : jsString) (limit : Z)
  : result jsString (option (Resolver.SearchResponse nat)) :=
if eqs query (units "Song Artist")
then Ok (Some {| Resolver.items := Some [7%nat] |})
else if startsWith (units "track:Other") query
then Throw (units "429")
else Ok (Some {| Resolver.items := Some [] |}).

(** A search API that knows the second song only, under the strict
    query. *)
Definition strictSecond (query : jsString) (limit : Z)
  : result jsString (option (Resolver.SearchResponse nat)) :=
if eqs query (units "track:Other artist:Nobody")
then Ok (Some {| Resolver.items := Some [9%nat] |})
else Ok (Some {| Resolver.items := Some [] |}).

(** A search API without any hit. *)
Definition noHits (query : jsString) (limit : Z)
  : result jsString (option (Resolver.SearchResponse nat)) :=
if startsWith (units "track:Other") query
then Throw (units "503")
else Ok (Some {| Resolver.items := Some [] |}).

(** Two objects fetched for the same track. *)
Definition fetched1 : Dedup.Track jsString := Obj 1 (units "4uLU6hMCjMI75M1A2tKUQC").
Definition fetched2 : Dedup.Track jsString := Obj 2 (units "4uLU6hMCjMI75M1A2tKUQC").

Definition LF : jsString := [10%N].

(** The example of the specification: a fenced object with a trailing
    comma in its track list. *)
Definition fencedExample : jsString :=
units "```json" ++ LF
++ quoted "{'name':'X','tracks':[{'title':'Song','artist':'Artist'},]}"
++ LF ++ units "```".

(** The same object with a trailing comma in the song, in the list and
    in the object; [severalCommasHead] is the object up to the last of
    these commas. *)
Definition severalCommasHead : jsString :=
quoted "{'name':'X','tracks':[{'title':'Song','artist':'Artist',},]".
Definition severalCommas : jsString :=
units "```json" ++ LF ++ severalCommasHead ++ quoted ",}" ++ LF ++ units "```".

(** A valid object whose name contains a comma before a brace. *)
Definition commaInName : jsString :=
quoted "{'name':'a,}','tracks':[{'title':'t','artist':'b'}]}".

(** A valid object with a brace in a title, followed by prose. *)
Definition braceInTitle : jsString :=
quoted "{'tracks':[{'title':'}','artist':'A'}]}".
Definition prose : jsString := units " Enjoy :}".

(** A valid object without a brace in its string literals. *)
Definition plainMid : jsString := quoted "'tracks':[{'title':'T','artist':'A'}]".
Definition plainObject : jsString :=
Extractor.openBrace :: plainMid ++ [Extractor.closeBrace].
Definition plainValue : JSON.value :=
JSON.JObject
  [(units "tracks",
    JSON.JArray [JSON.JObject [(units "title", JSON.JString (units "T"));
                               (units "artist", JSON.JString (units "A"))]])].

(** The object of the example of the specification, up to the comma. *)
Definition exampleHead : jsString :=
quoted "'name':'X','tracks':[{'title':'Song','artist':'Artist'}".
Definition exampleValue : JSON.value :=
JSON.JObject
  [(units "name", JSON.JString (units "X"));
   (units "tracks",
    JSON.JArray [JSON.JObject [(units "title", JSON.JString (units "Song"));
                               (units "artist", JSON.JString (units "Artist"))]])].

(** Answers that are rejected. *)
Definition emptyTracks : jsString := quoted "{'name':'X','tracks':[]}".
Definition unclosedList : jsString := quoted "{'tracks':[{'title':'T'}".

End Samples.

(** ** What the command shows and retries after an error *)

Module Feedback.

(** The messages of the errors that the pipeline throws on purpose.
    [detail] is the message of the second [SyntaxError]. *)
Definition noJsonObjectFound : jsString :=
  units "No JSON object found in AI response".

Definition failedToParse (detail : jsString) : jsString :=
  units "Failed to parse AI response: " ++ detail.

Definition containsNoSongs : jsString :=
  units "AI response contains no songs. Please try again with a different prompt.".

Definition noneCouldBeFound : jsString :=
  units "None of the suggested songs could be found on Spotify. Please try a different prompt.".

(** The four texts that [getErrorMessage] shows instead of a message. *)
Definition unavailable : jsString :=
  units "AI service is temporarily unavailable. Please try again in a few moments.".

Definition invalidResponse : jsString :=
  units "AI returned an invalid response. Please try again.".

Definition tooManyRequests : jsString :=
  units "Too many requests. Please wait a moment and try again.".

Definition noValidSongs : jsString :=
  units "AI didn't return any valid songs. Please try a different prompt.".

(** The first test of [getErrorMessage]. *)
Definition namesOutage (s : jsString) : bool :=
  includes (units "503") s
  || includes (units "heroku") s
  || includes (units "Service Unavailable") s.

Section WithTracks.

Variable Track : Type.

(** The prompt of the "Retry" action of a tuning error:
    [searchText.trim() || tuneError.failedPrompt]. *)
Definition promptToUse (st : Command.State Track)
           (tuneError : Command.ErrorState) : jsString :=
  match trim (Command.searchText st) with
  | [] => Command.failedPrompt tuneError
  | c :: s => c :: s
  end.

End WithTracks.

End Feedback.

(** ** More concrete inputs *)

Module MoreSamples.

(** Three playlists as three objects, the first one selected. *)
Definition playlistC : TuneHistory.Playlist string := Obj 3 "C"%string.

Definition selectedA : TuneHistory.State string :=
{| TuneHistory.history := [Samples.playlistA; Samples.playlistB; playlistC];
   TuneHistory.currentPlaylist := Some Samples.playlistA |}.

End MoreSamples.

(** ** Starting playback ([play] of api/play.ts)

  The Web API, the Spotify application and the helper modules are
  outside the program: the answer to a request is a function of the
  requests made before it.  [Thrown] is the type of the values that are
  thrown. *)

Module Player.

Inductive ContextTypes := album | artist | playlist | track | show | episode.

(** [uriForType] *)
Definition uriForType (t : ContextTypes) : jsString :=
  match t with
  | album => units "spotify:album:"
  | artist => units "spotify:artist:"
  | playlist => units "spotify:playlist:"
  | track => units "spotify:track:"
  | show => units "spotify:show:"
  | episode => units "spotify:episode:"
  end.

(** [PlayProps]: a property that is [undefined] is [None]. *)
Record PlayProps := {
  id : option jsString;
  type : option ContextTypes;
  contextUri : option jsString;
  uris : option (list jsString)
}.

(** [play()] without an argument: [{}]. *)
Definition noProps : PlayProps :=
  {| id := None; type := None; contextUri := None; uris := None |}.

(** A device of [getMyDevices]; its [id] may be [null]. *)
Record Device := { deviceId : option jsString; is_active : bool }.

(** The body of [spotifyClient.putMePlayerPlay]. *)
Inductive PlayBody :=
| Uris (uris : list jsString)
| ContextUri (context_uri : option jsString)
| ContextUriOffset (context_uri : jsString) (offsetUri : jsString).

(** [runSpotifyScript(SpotifyScriptType.Play)] and
    [runSpotifyScript(SpotifyScriptType.PlayTrack, false, uri, delay)]. *)
Inductive Script :=
| Play
| PlayTrack (uri : jsString) (delay : option Z).

Inductive Request :=
| AddToQueue (uri : jsString)
| PutMePlayerPlay (body : PlayBody) (deviceId : option jsString)
| RunSpotifyScript (script : Script).

Definition isAddToQueue (r : Request) : bool :=
  match r with AddToQueue _ => true | _ => false end.

Definition isPutMePlayerPlay (r : Request) : bool :=
  match r with PutMePlayerPlay _ _ => true | _ => false end.

Definition isRunSpotifyScript (r : Request) : bool :=
  match r with RunSpotifyScript _ => true | _ => false end.

Section WithWorld.

Variable Thrown : Type.

(** [new Error(message)] *)
Variable newError : jsString -> Thrown.

(** [getErrorMessage] of helpers/getError. *)
Variable getErrorMessage : Thrown -> jsString.

Variable toLocaleLowerCase : jsString -> jsString.

(** The answers of the Web API and of the application. *)
Variable respond : list Request -> Request -> result Thrown unit.
Variable getMyDevices : list Request -> result Thrown (option (list Device)).
Variable checkSpotifyApp : list Request -> result Thrown bool.

(** One awaited request. *)
Definition send (log : list Request) (r : Request)
  : list Request * result Thrown unit :=
  (log ++ [r], respond log r).

(** The script that [launchSpotifyAndPlay] runs. *)
Definition scriptOf (props : PlayProps) : Script :=
  match uris props with
  | Some (first :: _) => PlayTrack first None
  | _ =>
    match type props, id props with
    | Some t, Some (c :: i) =>
      match t with
      | track => PlayTrack (uriForType t ++ c :: i) None
      | _ => PlayTrack (uriForType t ++ c :: i) (Some 1%Z)
      end
    | _, _ => Play
    end
  end.

Definition launchSpotifyAndPlay (props : PlayProps) (log : list Request)
  : list Request * result Thrown unit :=
  match send log (RunSpotifyScript (scriptOf props)) with
  | (log', Ok u) => (log', Ok u)
  | (log', Throw error) => (log', Throw (newError (getErrorMessage error)))
  end.

(** [devices?.find((device) => device.is_active)] *)
Definition activeDeviceOf (devices : option (list Device)) : option Device :=
  match devices with
  | Some l => find is_active l
  | None => None
  end.

(** [activeDevice?.id ?? devices?.[0]?.id ?? undefined] *)
Definition deviceIdOf (activeDevice : option Device)
           (devices : option (list Device)) : option jsString :=
  let first :=
    match devices with
    | Some (d :: _) => deviceId d
    | _ => None
    end in
  match activeDevice with
  | Some d => match deviceId d with
              | Some i => Some i
              | None => first
              end
  | None => first
  end.

(** The body that [play] sends to the Web API. *)
Definition bodyOf (props : PlayProps) : PlayBody :=
  match uris props with
  | Some (u :: r) => Uris (u :: r)
  | _ =>
    match type props, id props with
    | Some t, Some (c :: i) =>
      match t with
      | track =>
        match contextUri props with
        | Some (x :: y) => ContextUriOffset (x :: y) (uriForType track ++ c :: i)
        | _ => Uris [uriForType track ++ c :: i]
        end
      | episode => Uris [uriForType episode ++ c :: i]
      | _ => ContextUri (Some (uriForType t ++ c :: i))
      end
    | _, _ => ContextUri (contextUri props)
    end
  end.

(** The errors after which [play] opens the application. *)
Definition needsApplication (error : jsString) : bool :=
  includes (units "no device found") (toLocaleLowerCase error)
  || includes (units "no active device") (toLocaleLowerCase error)
  || includes (units "restricted device") (toLocaleLowerCase error)
  || includes (units "premium required") (toLocaleLowerCase error).

(** [play(props)], from the requests made so far. *)
Definition play (props : PlayProps) (log : list Request)
  : list Request * result Thrown unit :=
  match getMyDevices log with
  | Throw e => (log, Throw e)
  | Ok devices =>
    match checkSpotifyApp log with
    | Throw e => (log, Throw e)
    | Ok isSpotifyInstalled =>
      let activeDevice := activeDeviceOf devices in
      let tried :=
        match activeDevice with
        | None =>
          if isSpotifyInstalled then launchSpotifyAndPlay props log
          else send log (PutMePlayerPlay (bodyOf props) (deviceIdOf activeDevice devices))
        | Some _ =>
          send log (PutMePlayerPlay (bodyOf props) (deviceIdOf activeDevice devices))
        end in
      match tried with
      | (log', Ok u) => (log', Ok u)
      | (log', Throw err) =>
        let error := getErrorMessage err in
        if isSpotifyInstalled && needsApplication error
        then launchSpotifyAndPlay props log'
        else (log', Throw (newError error))
      end
    end
  end.

(** What [play] may send for [props]: its body to the Web API, its
    script to the application. *)
Definition sentFor (props : PlayProps) (r : Request) : Prop :=
  r = RunSpotifyScript (scriptOf props)
  \/ exists d, r = PutMePlayerPlay (bodyOf props) d.

(** The requests [added] after [log] end with one that was answered
    without an error. *)
Definition lastAnswered (log added : list Request) : Prop :=
  exists before r, added = before ++ [r] /\ respond (log ++ before) r = Ok tt.

(** [retry(run, { retries, minTimeout })] of async-retry: [run] is tried
    until it succeeds, [retries + 1] times at most, and not again after
    an error whose [bail] property is set, which is the rejection then;
    [mainError] is the error it rejects with after the last attempt,
    given the errors of all attempts. *)
Variable mainError : list Thrown -> Thrown.
Variable bail : Thrown -> bool.

Fixpoint retryFrom (attempts : nat)
         (run : list Request -> list Request * result Thrown unit)
         (errors : list Thrown) (log : list Request)
  : list Request * result Thrown unit :=
  match attempts with
  | O => (log, Throw (mainError errors))
  | S n =>
    match run log with
    | (log', Ok u) => (log', Ok u)
    | (log', Throw e) =>
      if bail e then (log', Throw e) else retryFrom n run (errors ++ [e]) log'
    end
  end.

Definition retry (retries : nat)
           (run : list Request -> list Request * result Thrown unit)
           (log : list Request) : list Request * result Thrown unit :=
  retryFrom (S retries) run [] log.

End WithWorld.

End Player.

(** ** Playing and queueing the playlist that is shown *)

Module Playback.

Local Abbreviation Request := Player.Request.
Local Abbreviation Device := Player.Device.

Section WithTracks.

(** The fields of a track object that the handlers read; a field that
    is [undefined] or [null] is [None]. *)
Variable TrackFields : Type.
Variable id : TrackFields -> option jsString.
Variable uri : TrackFields -> option jsString.

Local Abbreviation Track := (object TrackFields).

Variable Thrown : Type.
Variable newError : jsString -> Thrown.
Variable getErrorMessage : Thrown -> jsString.
Variable toLocaleLowerCase : jsString -> jsString.
Variable respond : list Request -> Request -> result Thrown unit.
Variable getMyDevices : list Request -> result Thrown (option (list Device)).
Variable checkSpotifyApp : list Request -> result Thrown bool.
Variable mainError : list Thrown -> Thrown.
Variable bail : Thrown -> bool.

(** [err instanceof Error ? err.message : String(err)] and
    [toLowerCase]. *)
Variable messageOf : Thrown -> jsString.
Variable toLowerCase : jsString -> jsString.

Local Abbreviation play :=
  (Player.play newError getErrorMessage toLocaleLowerCase respond getMyDevices
               checkSpotifyApp).

(** The tracks that are shown: those of the current playlist, filtered
    by track ID. *)
Definition tracksOf (st : Command.State Track) : list (option Track) :=
  Dedup.dedupById id
    (match Command.currentPlaylist st with
     | Some v => Some (Command.tracks v)
     | None => None
     end).

(** [track?.uri] *)
Definition uriOf (track : option Track) : option jsString :=
  match track with
  | Some o => uri (fields o)
  | None => None
  end.

(** [Boolean(u)] for a string that may be missing. *)
Definition truthy (u : option jsString) : bool :=
  match u with
  | Some (_ :: _) => true
  | _ => false
  end.

(** A list of strings that may be missing, read as [string[]]. *)
Fixpoint strings (l : list (option jsString)) : list jsString :=
  match l with
  | [] => []
  | Some s :: r => s :: strings r
  | None :: r => strings r
  end.

(** [trackUris] of [addPlaylistToSpotify]:
    [tracks?.map((track) => track?.uri).filter(Boolean)]. *)
Definition urisToAdd (tracks : list (option Track)) : list jsString :=
  strings (filter truthy (map uriOf tracks)).

(** [track != null && track.uri != null] *)
Definition hasUri (track : option Track) : bool :=
  match uriOf track with
  | Some _ => true
  | None => false
  end.

(** [trackUris] of [playPlaylist]. *)
Definition urisToPlay (tracks : list (option Track)) : list jsString :=
  strings (map uriOf (filter hasUri tracks)).

(** [playPlaylist()]: the requests made, and the toast at the end
    ([None] when the handler returns at a guard, [Throw] for the
    failure toast). *)
Definition playPlaylist (st : Command.State Track) (log : list Request)
  : list Request * option (result Thrown unit) :=
  match Command.currentPlaylist st with
  | None => (log, None)
  | Some _ =>
    match tracksOf st with
    | [] => (log, None)
    | _ :: _ =>
      match urisToPlay (tracksOf st) with
      | [] => (log, Some (Throw (newError (units "No valid tracks found"))))
      | u :: r =>
        let trackUris := u :: r in
        match Player.retry mainError bail 3
                    (play {| Player.id := None; Player.type := None;
                             Player.contextUri := None;
                             Player.uris := Some trackUris |}) log with
        | (log', outcome) => (log', Some outcome)
        end
      end
    end
  end.

(** The errors of [addToQueue] after which the track is played
    directly. *)
Definition noPlayer (errorMessage : jsString) : bool :=
  includes (units "no active device") errorMessage
  || includes (units "no device found") errorMessage
  || includes (units "player command failed") errorMessage.

(** The loop of [addSongsToQueue], from the track at hand: the requests
    made, and [startedPlayback] at the end or the error that leaves the
    loop. *)
Fixpoint queueFrom (tracks : list (option Track)) (startedPlayback : bool)
         (log : list Request) : list Request * result Thrown bool :=
  match tracks with
  | [] => (log, Ok startedPlayback)
  | track :: rest =>
    match track with
    | Some o =>
      match uri (fields o) with
      | Some (c :: u) =>
        match Player.send respond log (Player.AddToQueue (c :: u)) with
        | (log1, Ok _) => queueFrom rest startedPlayback log1
        | (log1, Throw err) =>
          let errorMessage := toLowerCase (messageOf err) in
          if negb startedPlayback && noPlayer errorMessage
          then
            match Player.retry mainError bail 3
                        (play {| Player.id := id (fields o);
                                 Player.type := Some Player.track;
                                 Player.contextUri := None;
                                 Player.uris := None |}) log1 with
            | (log2, Ok _) => queueFrom rest true log2
            | (log2, Throw e) => (log2, Throw e)
            end
          else (log1, Throw err)
        end
      | _ => queueFrom rest startedPlayback log
      end
    | None => queueFrom rest startedPlayback log
    end
  end.

(** [addSongsToQueue()]: [None] when the handler returns at a guard,
    [Ok startedPlayback] for the success toast, [Throw] for the failure
    toast. *)
Definition addSongsToQueue (st : Command.State Track) (log : list Request)
  : list Request * option (result Thrown bool) :=
  match Command.currentPlaylist st with
  | None => (log, None)
  | Some _ =>
    match tracksOf st with
    | [] => (log, None)
    | _ :: _ =>
      match queueFrom (tracksOf st) false log with
      | (log', outcome) => (log', Some outcome)
      end
    end
  end.

(** [Boolean(s)] for a string. *)
Definition notEmpty (s : jsString) : bool :=
  match s with
  | [] => false
  | _ :: _ => true
  end.

(** The URIs of the queue requests of a log. *)
Fixpoint queued (log : list Request) : list jsString :=
  match log with
  | [] => []
  | Player.AddToQueue u :: r => u :: queued r
  | _ :: r => queued r
  end.

End WithTracks.

End Playback.

(** ** Notions for the first steps on an answer *)

Module Span.

(** Neither a comma nor white space. *)
Definition essential (c : N) : bool :=
  negb (c =? Extractor.comma)%N && negb (isWhiteSpace c).

(** Some opening brace of [s] has a closing brace after it. *)
Definition holdsBraces (s : jsString) : Prop :=
  exists L mid R, s = L ++ Extractor.openBrace :: mid ++ Extractor.closeBrace :: R.

End Span.

(* ===================================================================== *)
(** * Part II: properties *)
(* ===================================================================== *)

(** ** The version history *)

Module HistoryFacts.

Import Command.

Lemma elemAt_Some_range {A} (l : list A) (i : Z) (x : A) :
  elemAt l i = Some x -> (0 <= i < Z.of_nat (length l))%Z.
Proof.
  unfold elemAt. destruct (Z.ltb_spec i 0); [discriminate|].
  intros E. assert (nth_error l (Z.to_nat i) <> None) as NE by congruence.
  apply nth_error_Some in NE. lia.
Qed.

Lemma elemAt_in_range {A} (l : list A) (i : Z) :
  (0 <= i < Z.of_nat (length l))%Z -> exists x, elemAt l i = Some x.
Proof.
  intros R. unfold elemAt. destruct (Z.ltb_spec i 0); [lia|].
  destruct (nth_error l (Z.to_nat i)) eqn:E; [eauto|].
  apply nth_error_None in E. lia.
Qed.

Lemma slice0_in_range {A} (l : list A) (e : Z) :
  (0 <= e <= Z.of_nat (length l))%Z ->
  slice0 l e = firstn (Z.to_nat e) l.
Proof.
  intros R. unfold slice0.
  destruct (Z.ltb_spec e 0); [lia|].
  now rewrite Z.min_l by lia.
Qed.

Section WithTracks.

Variable Track : Type.
Implicit Types (st : State Track) (v : PlaylistVersion Track).

(** [tunePlaylist] does nothing on a blank prompt or without a current
    playlist. *)
Lemma tunePlaylist_guarded render prompt generated st :
  trim prompt = [] \/ currentPlaylist render = None ->
  tunePlaylist render prompt generated st = st.
Proof.
  unfold tunePlaylist. intros [E|E]; rewrite E; [reflexivity|].
  now destruct (trim prompt).
Qed.

Lemma tunePlaylist_success st prompt v :
  trim prompt <> [] ->
  (0 <= currentIndex st < Z.of_nat (length (history st)))%Z ->
  tunePlaylist st prompt (Ok v) st =
  {| history := firstn (Z.to_nat (currentIndex st) + 1) (history st) ++ [v];
     currentIndex := currentIndex st + 1;
     searchText := [];
     tuneError := None |}.
Proof.
  intros NB R. unfold tunePlaylist.
  destruct (trim prompt) as [|c t]; [congruence|].
  destruct (elemAt_in_range (history st) R) as [cur E].
  unfold currentPlaylist. rewrite E.
  rewrite slice0_in_range by lia.
  now replace (Z.to_nat (currentIndex st + 1)) with (Z.to_nat (currentIndex st) + 1)%nat by lia.
Qed.

(** C1. Appending a version with the cursor anywhere in the history
    (in particular after a revert) keeps the versions up to the cursor,
    discards the later ones, pushes the new version and moves the cursor
    to the new last index.  ([tunePlaylist] is called from the render of
    the state [st], and its updates apply to [st].) *)
Theorem tunePlaylist_truncates_then_appends st prompt v :
  trim prompt <> [] ->
  (0 <= currentIndex st < Z.of_nat (length (history st)))%Z ->
  let st' := tunePlaylist st prompt (Ok v) st in
  history st' = firstn (Z.to_nat (currentIndex st) + 1) (history st) ++ [v]
  /\ length (history st') = (Z.to_nat (currentIndex st) + 2)%nat
  /\ currentIndex st' = (Z.of_nat (length (history st')) - 1)%Z
  /\ currentPlaylist st' = Some v.
Proof.
  intros NB R st'. subst st'. rewrite tunePlaylist_success by assumption.
  cbn [history currentIndex].
  assert (length (firstn (Z.to_nat (currentIndex st) + 1) (history st))
          = (Z.to_nat (currentIndex st) + 1)%nat) as L
    by (rewrite length_firstn; lia).
  split; [reflexivity|]. split; [|split].
  - rewrite length_app, L. simpl. lia.
  - rewrite length_app, L. simpl. lia.
  - unfold currentPlaylist, elemAt. cbn [history currentIndex].
    destruct (Z.ltb_spec (currentIndex st + 1) 0); [lia|].
    replace (Z.to_nat (currentIndex st + 1)) with
      (length (firstn (Z.to_nat (currentIndex st) + 1) (history st)) + 0)%nat
      by (rewrite L; lia).
    now rewrite nth_error_app2, Nat.add_comm, Nat.add_sub by lia.
Qed.

(** The four transitions of the command, each called from the render of
    the state it updates, and the seeding of the history keep the cursor
    inside a non-empty history. *)
Lemma initialize_cursorInRange st v : cursorInRange (initialize st v).
Proof. unfold cursorInRange. cbn. lia. Qed.

Lemma tunePlaylist_cursorInRange st prompt generated :
  cursorInRange st -> cursorInRange (tunePlaylist st prompt generated st).
Proof.
  intros I. unfold tunePlaylist.
  destruct (trim prompt) as [|c t] eqn:T; [assumption|].
  destruct (currentPlaylist st) as [cur|] eqn:C; [|assumption].
  apply elemAt_Some_range in C.
  destruct generated as [v|err].
  - unfold cursorInRange. cbn [history currentIndex]. intros _.
    rewrite slice0_in_range, length_app, length_firstn by lia. simpl. lia.
  - unfold cursorInRange in *. cbn [history currentIndex]. assumption.
Qed.

Lemma revertToPrevious_cursorInRange st :
  cursorInRange st -> cursorInRange (revertToPrevious st st).
Proof.
  unfold revertToPrevious, canRevert, cursorInRange. intros I.
  destruct (Z.gtb_spec (currentIndex st) 0); cbn; [|exact I].
  intros NE. specialize (I NE). lia.
Qed.

Lemma redoNext_cursorInRange st :
  cursorInRange st -> cursorInRange (redoNext st st).
Proof.
  unfold redoNext, canRedo, cursorInRange. intros I.
  destruct (Z.ltb_spec (currentIndex st) (Z.of_nat (length (history st)) - 1));
    cbn; [|exact I].
  intros NE. specialize (I NE). lia.
Qed.

Lemma jumpToVersion_cursorInRange st i :
  cursorInRange st -> cursorInRange (jumpToVersion st i st).
Proof.
  unfold jumpToVersion, cursorInRange. intros I.
  destruct (Z.geb_spec i 0); destruct (Z.ltb_spec i (Z.of_nat (length (history st))));
    cbn; try exact I. intros _. lia.
Qed.

(** A redo while the generation is awaited: the slice ends at the cursor
    of the closure and the increment starts from the latest cursor, so
    the cursor ends one past the last version, whatever the history. *)
Lemma redoNext_during_tunePlaylist st prompt v :
  trim prompt <> [] ->
  (0 <= currentIndex st < Z.of_nat (length (history st)) - 1)%Z ->
  let redone := redoNext st st in
  let st' := tunePlaylist st prompt (Ok v) redone in
  cursorInRange redone
  /\ history st' = firstn (Z.to_nat (currentIndex st) + 1) (history st) ++ [v]
  /\ currentIndex st' = Z.of_nat (length (history st'))
  /\ ~ cursorInRange st'.
Proof.
  intros NB R redone st'.
  assert (redone = {| history := history st; currentIndex := currentIndex st + 1;
                      searchText := searchText st; tuneError := None |}) as Er.
  { subst redone. unfold redoNext, canRedo.
    destruct (Z.ltb_spec (currentIndex st) (Z.of_nat (length (history st)) - 1));
      [reflexivity|lia]. }
  assert (st' = {| history := firstn (Z.to_nat (currentIndex st) + 1) (history st) ++ [v];
                   currentIndex := currentIndex st + 1 + 1;
                   searchText := [];
                   tuneError := None |}) as Es.
  { subst st'. rewrite Er. unfold tunePlaylist.
    destruct (trim prompt) as [|c t]; [congruence|].
    assert (0 <= currentIndex st < Z.of_nat (length (history st)))%Z as R' by lia.
    destruct (elemAt_in_range (history st) R') as [cur E].
    unfold currentPlaylist. rewrite E. cbn [history currentIndex].
    rewrite slice0_in_range by lia.
    now replace (Z.to_nat (currentIndex st + 1))
      with (Z.to_nat (currentIndex st) + 1)%nat by lia. }
  assert (length (firstn (Z.to_nat (currentIndex st) + 1) (history st))
          = (Z.to_nat (currentIndex st) + 1)%nat) as L
    by (rewrite length_firstn; lia).
  assert (currentIndex st' = Z.of_nat (length (history st'))) as I.
  { rewrite Es. cbn [history currentIndex]. rewrite length_app, L. cbn [length]. lia. }
  split; [|split; [now rewrite Es|split; [exact I|]]].
  - rewrite Er. unfold cursorInRange. cbn [history currentIndex]. intros _. lia.
  - unfold cursorInRange. intros C.
    assert (history st' <> []) as NE.
    { rewrite Es. cbn [history]. intros H. apply app_eq_nil in H. destruct H. discriminate. }
    specialize (C NE). lia.
Qed.

End WithTracks.

Import Samples.

Lemma tunePlaylist_truncates_then_appends_witness :
  trim (units "more jazz") <> []
  /\ (0 <= currentIndex revertedABC
      < Z.of_nat (length (history revertedABC)))%Z
  /\ history (tunePlaylist revertedABC (units "more jazz") (Ok (version "D"))
                          revertedABC)
     = [version "A"; version "B"; version "D"]
  /\ currentIndex (tunePlaylist revertedABC (units "more jazz") (Ok (version "D"))
                               revertedABC)
     = 2%Z.
Proof.
  assert (trim (units "more jazz") <> []) as NB by (vm_compute; discriminate).
  assert (0 <= currentIndex revertedABC
          < Z.of_nat (length (history revertedABC)))%Z as R by (cbn; lia).
  destruct (@tunePlaylist_truncates_then_appends unit revertedABC
              (units "more jazz") (version "D") NB R)
    as (H & _ & I & _).
  split; [exact NB|]. split; [exact R|]. split.
  - rewrite H. reflexivity.
  - rewrite I, H. reflexivity.
Defined.

(** C6. The cursor invariant is not kept by a tuning during which the
    user redoes: with the history [[A;B;C]] and the cursor on [B], a
    prompt is submitted and "Redo" is used while the generation is
    awaited.  The slice of [tunePlaylist] ends at the cursor of its
    closure and its increment starts from the latest cursor, so the
    history becomes [[A;B;D]] with the cursor 3, outside the history. *)
Theorem tunePlaylist_during_redo :
  let st := redoNext revertedABC revertedABC in
  let st' := tunePlaylist revertedABC (units "more jazz") (Ok (version "D")) st in
  cursorInRange st
  /\ history st' = [version "A"; version "B"; version "D"]
  /\ currentIndex st' = 3%Z
  /\ ~ cursorInRange st'.
Proof.
  intros st st'.
  assert (history st' = [version "A"; version "B"; version "D"]) as H by reflexivity.
  assert (currentIndex st' = 3%Z) as I by reflexivity.
  split; [|split; [exact H|split; [exact I|]]].
  - unfold cursorInRange. intros _. vm_compute. split; [discriminate|reflexivity].
  - unfold cursorInRange. rewrite H, I. intros R.
    assert ([version "A"; version "B"; version "D"] <> []) as NE by discriminate.
    specialize (R NE). cbn [length] in R. lia.
Qed.

End HistoryFacts.

(** ** The history list with deletion *)

Module TuneHistoryFacts.

Import TuneHistory.

Section WithPlaylists.

Variable PlaylistFields : Type.
Implicit Types (st : State PlaylistFields) (p : Playlist PlaylistFields).

Lemma sameObject_refl {A} (o : object A) : sameObject o o = true.
Proof. unfold sameObject. apply Nat.eqb_refl. Qed.

Lemma indexOfFrom_found {A} (l : list (object A)) (o : object A) (i : Z) :
  existsb (fun x => sameObject x o) l = true ->
  (i <= indexOfFrom l o i < i + Z.of_nat (length l))%Z.
Proof.
  revert i. induction l as [|x r IH]; intros i; cbn [existsb indexOfFrom length].
  - discriminate.
  - destruct (sameObject x o); cbn [orb]; intros E; [lia|].
    specialize (IH (i + 1)%Z E). lia.
Qed.

Lemma existsb_nth_error {A} (l : list (object A)) (n : nat) (o : object A) :
  nth_error l n = Some o -> existsb (fun x => sameObject x o) l = true.
Proof.
  intros E. apply existsb_exists. exists o. split.
  - eapply nth_error_In; eassumption.
  - apply sameObject_refl.
Qed.

Lemma history_setCurrentPlaylist st (x : option (Playlist PlaylistFields)) :
  history (setCurrentPlaylist x st) = history st.
Proof. reflexivity. Qed.

Lemma cursorInRange_empty st : history st = [] -> cursorInRange st.
Proof. unfold cursorInRange. congruence. Qed.

(** Selecting an entry of the history puts the cursor in range. *)
Lemma select_entry_in_range st (k : Z) :
  (0 <= k < Z.of_nat (length (history st)))%Z ->
  cursorInRange (setCurrentPlaylist (elemAt (history st) k) st).
Proof.
  intros R. unfold elemAt. destruct (Z.ltb_spec k 0); [lia|].
  destruct (nth_error (history st) (Z.to_nat k)) as [q|] eqn:E.
  - unfold cursorInRange, currentIndex, indexOf. cbn. intros _.
    pose proof (indexOfFrom_found (history st) q 0 (existsb_nth_error _ _ E)) as F.
    rewrite Z.add_0_l in F. exact F.
  - apply nth_error_None in E. lia.
Qed.

Lemma selected_tunePlaylist_cursorInRange st p : cursorInRange (tunePlaylist p st).
Proof.
  unfold cursorInRange, currentIndex, indexOf. cbn. intros _.
  assert (existsb (fun x => sameObject x p) (history st ++ [p]) = true) as E.
  { rewrite existsb_app. cbn. rewrite sameObject_refl. now rewrite orb_true_r. }
  pose proof (indexOfFrom_found _ _ 0 E) as F.
  rewrite Z.add_0_l in F. exact F.
Qed.

Lemma selected_revertToPrevious_cursorInRange st :
  cursorInRange st -> cursorInRange (revertToPrevious st st).
Proof.
  intros I. unfold revertToPrevious.
  destruct (Z.gtb_spec (currentIndex st) 0) as [G|G]; [|exact I].
  destruct (history st) as [|x r] eqn:H.
  - apply cursorInRange_empty. now rewrite history_setCurrentPlaylist.
  - rewrite <- H in *. apply select_entry_in_range.
    assert (history st <> []) as NE by (rewrite H; discriminate).
    specialize (I NE). lia.
Qed.

Lemma selected_redoNext_cursorInRange st :
  cursorInRange st -> cursorInRange (redoNext st st).
Proof.
  intros I. unfold redoNext.
  destruct (Z.ltb_spec (currentIndex st) (Z.of_nat (length (history st)) - 1)) as [G|G];
    [|exact I].
  destruct (history st) as [|x r] eqn:H.
  - apply cursorInRange_empty. now rewrite history_setCurrentPlaylist.
  - rewrite <- H in *. apply select_entry_in_range.
    assert (history st <> []) as NE by (rewrite H; discriminate).
    specialize (I NE). lia.
Qed.

Lemma selected_jumpToVersion_cursorInRange st (i : Z) :
  cursorInRange st -> cursorInRange (jumpToVersion st i st).
Proof.
  intros I. unfold jumpToVersion.
  destruct (Z.geb_spec i 0); destruct (Z.ltb_spec i (Z.of_nat (length (history st))));
    cbn [andb]; try exact I.
  apply select_entry_in_range. lia.
Qed.

(** The index that [handleDelete] selects is a valid index of the new
    history whenever the cursor of the render was valid. *)
Lemma selectionAfterDelete_in_new_history (l : list (Playlist PlaylistFields))
      (current i : Z) :
  (0 <= current < Z.of_nat (length l))%Z ->
  (0 <= i < Z.of_nat (length l))%Z ->
  removeAt l i <> [] ->
  (0 <= selectionAfterDelete current i (removeAt l i)
   < Z.of_nat (length (removeAt l i)))%Z.
Proof.
  intros Rc Ri NE.
  assert (forall (l : list (Playlist PlaylistFields)) (i : Z),
             (0 <= i < Z.of_nat (length l))%Z ->
             Z.of_nat (length (removeAt l i)) = (Z.of_nat (length l) - 1)%Z) as L.
  { clear. induction l as [|x r IH]; intros i R; cbn [length removeAt] in *; [lia|].
    destruct (Z.eqb_spec i 0); [lia|].
    cbn [length]. rewrite Nat2Z.inj_succ, IH; lia. }
  rewrite L by assumption.
  unfold selectionAfterDelete.
  destruct (Z.gtb_spec current i); [lia|].
  destruct (Z.eqb_spec current i); cbn [andb].
  - destruct (Nat.eqb_spec (length (removeAt l i)) 0) as [Z0|Z0]; cbn [negb].
    + destruct (removeAt l i); [congruence|discriminate].
    + assert (Z.of_nat (length (removeAt l i)) <> 0%Z) by lia.
      rewrite L in * by assumption. lia.
  - lia.
Qed.

Lemma history_jumpToVersion render (k : Z) st :
  history (jumpToVersion render k st) = history st.
Proof. unfold jumpToVersion. now destruct (_ && _). Qed.

Lemma jumpToVersion_in_range st (k : Z) :
  (0 <= k < Z.of_nat (length (history st)))%Z ->
  cursorInRange (jumpToVersion st k st).
Proof.
  intros R. unfold jumpToVersion.
  destruct (Z.geb_spec k 0); [|lia].
  destruct (Z.ltb_spec k (Z.of_nat (length (history st)))); [|lia].
  cbn [andb]. now apply select_entry_in_range.
Qed.

(** With a [jumpToVersion] that read the history after the deletion,
    the selection of [handleDelete] would keep the cursor in range. *)
Lemma handleDelete_selection_on_new_history st (i : Z) :
  cursorInRange st ->
  (0 <= i < Z.of_nat (length (history st)))%Z ->
  let st1 := setHistory (removeAt (history st) i) st in
  cursorInRange
    (jumpToVersion st1 (selectionAfterDelete (currentIndex st) i (history st1)) st1).
Proof.
  intros I Ri st1.
  assert (history st1 = [] \/ history st1 <> []) as [E|NE']
      by (destruct (history st1); [now left|right; discriminate]).
  - apply cursorInRange_empty. now rewrite history_jumpToVersion.
  - apply jumpToVersion_in_range.
    assert (history st <> []) as NE by (destruct (history st); [cbn in Ri; lia|discriminate]).
    exact (@selectionAfterDelete_in_new_history (history st) (currentIndex st) i
             (I NE) Ri NE').
Qed.

End WithPlaylists.

Import Samples.

(** The deletion as [Command] wires it: the list receives no
    [setHistory], so [handleDelete] throws before it reaches a callback
    and the state of [Command] stays as it is. *)
Lemma handleDelete_without_setHistory (A : Type) (render st : TuneHistory.State A)
      (localHistory : list (TuneHistory.Playlist A)) (index : Z) :
  TuneHistoryList.handleDelete (TuneHistoryList.viewHistory render) localHistory index st
  = (removeAt localHistory index, st, Throw TuneHistoryList.TypeError).
Proof. reflexivity. Qed.

(** With a parent that passes the setter of its history cell the
    deletion would select through the closure over the history before
    the deletion: with the history [[A;B]] and [B] selected, deleting [A]
    would leave the history [[B]] with the deleted [A] selected, and the
    cursor [-1]. *)
Lemma handleDelete_with_setHistory_selects_deleted :
  let list := TuneHistoryList.viewHistoryWithSetter selectedB in
  cursorInRange selectedB
  /\ TuneHistoryList.handleDelete list (history selectedB) 0 selectedB
     = ([playlistB],
        {| history := [playlistB]; currentPlaylist := Some playlistA |},
        Ok tt)
  /\ ~ cursorInRange {| history := [playlistB]; currentPlaylist := Some playlistA |}.
Proof.
  intros list. split; [|split].
  - unfold cursorInRange. cbn. lia.
  - reflexivity.
  - unfold cursorInRange. cbn. intros H.
    assert ([playlistB] <> []) as NE by discriminate.
    specialize (H NE). lia.
Qed.

End TuneHistoryFacts.

(** ** The track resolver *)

Module ResolverFacts.

Import Resolver.

Section WithSearch.

Variable Track : Type.
Variable searchTracks : jsString -> Z -> result jsString (option (SearchResponse Track)).

Local Abbreviation resolveSong := (resolveSong searchTracks).
Local Abbreviation resolveSongLog := (resolveSongLog searchTracks).
Local Abbreviation resolveTracksOnSpotify := (resolveTracksOnSpotify searchTracks).
Local Abbreviation throws := (throws searchTracks).
Local Abbreviation hits := (hits searchTracks).
Local Abbreviation noHit := (noHit searchTracks).

Lemma outcome_cases (query : jsString) :
  throws query \/ (exists t, hits query t) \/ noHit query.
Proof.
  unfold Resolver.throws, Resolver.hits, Resolver.noHit.
  destruct (searchTracks query 1) as [r|e] eqn:E; [|eauto].
  right. destruct (firstHit r) as [t|] eqn:F; eauto.
Qed.

Lemma filter_valid_nil (tracks : list (option Track)) :
  length (filter (fun t => negb (isNull t)) tracks) = 0%nat <->
  Forall (fun t => t = None) tracks.
Proof.
  induction tracks as [|[t|] r IH]; cbn.
  - split; constructor.
  - split; [discriminate|]. intros F. inversion F. discriminate.
  - rewrite IH. split; [now constructor|]. intros F. now inversion F.
Qed.

(** C2. If every position resolves to [null], the resolver throws instead
    of returning the list. *)
Theorem resolveTracksOnSpotify_all_null_throws (aiTracks : list Suggestion) :
  Forall (fun song => resolveSong song = None) aiTracks ->
  resolveTracksOnSpotify aiTracks = Throw NoneCouldBeFound.
Proof.
  intros F. unfold Resolver.resolveTracksOnSpotify.
  assert (length (filter (fun t => negb (isNull t)) (map resolveSong aiTracks)) = 0%nat) as E.
  { apply filter_valid_nil. apply Forall_map. exact F. }
  now rewrite E.
Qed.

(** A list that is returned holds at least one track. *)
Lemma resolveTracksOnSpotify_Ok_has_track (aiTracks : list Suggestion)
      (tracks : list (option Track)) :
  resolveTracksOnSpotify aiTracks = Ok tracks ->
  exists t, In (Some t) tracks.
Proof.
  unfold Resolver.resolveTracksOnSpotify.
  destruct (Nat.eqb_spec
              (length (filter (fun t => negb (isNull t)) (map resolveSong aiTracks))) 0)
    as [E|E]; [discriminate|].
  intros [= <-].
  destruct (filter (fun t => negb (isNull t)) (map resolveSong aiTracks))
    as [|[t|] r] eqn:Fl; [now elim E| |].
  - exists t. assert (In (Some t) (Some t :: r)) as I by now left.
    rewrite <- Fl in I. now apply filter_In in I.
  - assert (In None (@None Track :: r)) as I by now left.
    rewrite <- Fl in I. apply filter_In in I. now destruct I.
Qed.

(** C3. A returned list has the length of the input, and its entry at
    each index is the resolution of the suggestion at that index. *)
Theorem resolveTracksOnSpotify_keeps_positions (aiTracks : list Suggestion)
        (tracks : list (option Track)) :
  resolveTracksOnSpotify aiTracks = Ok tracks ->
  length tracks = length aiTracks
  /\ forall (i : nat) (song : Suggestion),
       nth_error aiTracks i = Some song ->
       nth_error tracks i = Some (resolveSong song).
Proof.
  unfold Resolver.resolveTracksOnSpotify.
  destruct (Nat.eqb (length (filter _ _)) 0); [discriminate|].
  intros [= <-]. split.
  - apply length_map.
  - intros i song E. rewrite nth_error_map, E. reflexivity.
Qed.

(** C7. The strict query goes first; the lenient query is sent exactly
    when the strict one returned without a hit; the first hit of the
    first query that has one is returned, and [null] is recorded exactly
    when a call throws or both queries return without a hit. *)
Theorem resolveSong_strict_then_lenient (song : Suggestion) :
  let strict := units "track:" ++ title song ++ units " artist:" ++ artist song in
  let lenient := title song ++ units " " ++ artist song in
  (fst (resolveSongLog song) = [strict]
   \/ fst (resolveSongLog song) = [strict; lenient])
  /\ (fst (resolveSongLog song) = [strict; lenient] <-> noHit strict)
  /\ (forall t, hits strict t -> resolveSong song = Some t)
  /\ (forall t, noHit strict -> hits lenient t -> resolveSong song = Some t)
  /\ (resolveSong song = None <->
      throws strict \/ (noHit strict /\ (throws lenient \/ noHit lenient))).
Proof.
  intros strict lenient.
  unfold Resolver.resolveSong, Resolver.resolveSongLog, Resolver.throws, Resolver.hits, Resolver.noHit.
  fold strict. change (lenientQuery song) with lenient.
  change (strictQuery song) with strict.
  destruct (searchTracks strict 1) as [r|e] eqn:S.
  - destruct (firstHit r) as [t|] eqn:F.
    + cbn. split; [now left|]. split; [|split; [|split]].
      * split; [discriminate|]. intros (r' & [= <-] & F'). congruence.
      * intros t' (r' & [= <-] & F'). congruence.
      * intros t' (r' & [= <-] & F'). congruence.
      * split; [discriminate|].
        intros [(e & E)|((r' & [= <-] & F') & _)]; congruence.
    + assert (exists r0, @Ok jsString _ r = Ok r0 /\ firstHit r0 = None) as NH by eauto.
      destruct (searchTracks lenient 1) as [r2|e2] eqn:L; cbn.
      * split; [now right|]. split; [tauto|]. split; [|split].
        -- intros t' (r' & [= <-] & F'). congruence.
        -- intros t' _ (r' & [= <-] & F'). exact F'.
        -- split.
           ++ intros N. right. split; [exact NH|]. right. eauto.
           ++ intros [(e & E)|(_ & [(e & E)|(r' & [= <-] & F')])];
                [discriminate|discriminate|exact F'].
      * split; [now right|]. split; [tauto|]. split; [|split].
        -- intros t' (r' & [= <-] & F'). congruence.
        -- intros t' _ (r' & E & _). discriminate.
        -- split; [|reflexivity]. intros _. right. split; [exact NH|]. left. eauto.
  - cbn. split; [now left|]. split; [|split; [|split]].
    + split; [discriminate|]. intros (r' & E & _). discriminate.
    + intros t' (r' & E & _). discriminate.
    + intros t' (r' & E & _). discriminate.
    + split; [|reflexivity]. intros _. left. eauto.
Qed.

(** The earlier resolver returned the list even when it held no track. *)
Lemma resolveTracksOnSpotify_unchecked_length (aiTracks : list Suggestion) :
  length (resolveTracksOnSpotify_unchecked searchTracks aiTracks) = length aiTracks.
Proof. apply length_map. Qed.

End WithSearch.

Import Samples.

Lemma resolveTracksOnSpotify_all_null_throws_witness :
  Forall (fun song => Resolver.resolveSong noHits song = None) [song1; song2]
  /\ Resolver.resolveTracksOnSpotify noHits [song1; song2] = Throw NoneCouldBeFound.
Proof.
  assert (Forall (fun song => Resolver.resolveSong noHits song = None) [song1; song2]) as F
    by (repeat constructor).
  split; [exact F|].
  exact (resolveTracksOnSpotify_all_null_throws noHits F).
Defined.

Lemma resolveTracksOnSpotify_keeps_positions_witness :
  Resolver.resolveTracksOnSpotify lenientOnly [song1; song2] = Ok [Some 7%nat; None]
  /\ length [Some 7%nat; @None nat] = length [song1; song2]
  /\ nth_error [Some 7%nat; None] 1 = Some (Resolver.resolveSong lenientOnly song2).
Proof.
  assert (Resolver.resolveTracksOnSpotify lenientOnly [song1; song2]
          = Ok [Some 7%nat; None]) as E by reflexivity.
  destruct (resolveTracksOnSpotify_keeps_positions lenientOnly [song1; song2] E)
    as (L & P).
  split; [exact E|]. split; [exact L|].
  apply P. reflexivity.
Defined.

Lemma resolveSong_strict_then_lenient_witness :
  noHit lenientOnly (units "track:Song artist:Artist")
  /\ hits lenientOnly (units "Song Artist") 7%nat
  /\ Resolver.resolveSong lenientOnly song1 = Some 7%nat.
Proof.
  assert (noHit lenientOnly (units "track:Song artist:Artist")) as NH.
  { exists (Some {| items := Some [] |}). split; reflexivity. }
  assert (hits lenientOnly (units "Song Artist") 7%nat) as H.
  { exists (Some {| items := Some [7%nat] |}). split; reflexivity. }
  split; [exact NH|]. split; [exact H|].
  destruct (resolveSong_strict_then_lenient lenientOnly song1) as (_ & _ & _ & L & _).
  exact (L 7%nat NH H).
Defined.

(** *** The other variants of the resolver *)

(** Without the check, a list without any track is returned. *)
Lemma resolveTracksOnSpotify_unchecked_all_null :
  Resolver.resolveTracksOnSpotify_unchecked noHits [song1; song2] = [None; None].
Proof. reflexivity. Qed.

(** Without the second attempt, a song that only the lenient query finds
    is lost. *)
Lemma resolveSong_strictOnly_misses :
  Resolver.resolveSong_strictOnly lenientOnly song1 = None
  /\ Resolver.resolveSong lenientOnly song1 = Some 7%nat.
Proof. split; reflexivity. Qed.

(** Where [validTracks] is returned, the track of the second suggestion
    is at index 0. *)
Lemma resolveTracksOnSpotify_validOnly_moves_tracks :
  Resolver.resolveTracksOnSpotify_validOnly strictSecond [song1; song2] = Ok [Some 9%nat]
  /\ Resolver.resolveTracksOnSpotify strictSecond [song1; song2] = Ok [None; Some 9%nat].
Proof. split; reflexivity. Qed.

End ResolverFacts.

(** ** The removal of duplicate tracks *)

Module DedupFacts.

Import Dedup.

Lemma eqs_refl (a : jsString) : eqs a a = true.
Proof. induction a as [|x r IH]; cbn; [reflexivity|]. now rewrite N.eqb_refl. Qed.

Lemma eqs_eq (a b : jsString) : eqs a b = true <-> a = b.
Proof.
  revert b. induction a as [|x r IH]; intros [|y b]; cbn; try (split; congruence).
  rewrite andb_true_iff, N.eqb_eq, IH. split; [intros [-> ->]; reflexivity|].
  intros [= -> ->]. now split.
Qed.

Lemma sameId_refl (k : option jsString) : sameId k k = true.
Proof. destruct k; cbn; [apply eqs_refl|reflexivity]. Qed.

Lemma sameId_eq (a b : option jsString) : sameId a b = true <-> a = b.
Proof.
  destruct a, b; cbn; try (split; congruence).
  rewrite eqs_eq. split; congruence.
Qed.

Section WithTracks.

Variable TrackFields : Type.
Variable id : TrackFields -> option jsString.

Lemma existsb_rev_map {A B} (p : B -> bool) (f : A -> B) (l : list A) :
  existsb p (rev (map f l)) = existsb (fun x => p (f x)) l.
Proof.
  induction l as [|x r IH]; cbn; [reflexivity|].
  rewrite existsb_app, IH. cbn. rewrite orb_false_r. apply orb_comm.
Qed.

Lemma findIndexFrom_skip {A} (p : A -> bool) (pre l : list A) (i : Z) :
  existsb p pre = false ->
  findIndexFrom p (pre ++ l) i = findIndexFrom p l (i + Z.of_nat (length pre)).
Proof.
  revert i. induction pre as [|x r IH]; intros i; cbn [existsb app length findIndexFrom].
  - intros _. f_equal. lia.
  - destruct (p x); cbn [orb]; [discriminate|]. intros E.
    rewrite IH by exact E. f_equal. lia.
Qed.

Lemma findIndexFrom_early {A} (p : A -> bool) (pre l : list A) (i : Z) :
  existsb p pre = true ->
  (i <= findIndexFrom p (pre ++ l) i < i + Z.of_nat (length pre))%Z.
Proof.
  revert i. induction pre as [|x r IH]; intros i; cbn [existsb app length findIndexFrom].
  - discriminate.
  - destruct (p x); cbn [orb]; [lia|]. intros E.
    specialize (IH (i + 1)%Z E). lia.
Qed.

(** The callback keeps an entry exactly when it is a track and no earlier
    entry has its [id]. *)
Lemma firstWithItsId_spec (pre suf : list (option (Track TrackFields)))
      (o : Track TrackFields) :
  firstWithItsId id (pre ++ Some o :: suf) (Some o) (Z.of_nat (length pre))
  = negb (existsb (fun t => sameId (idOf id t) (id (fields o))) pre).
Proof.
  unfold firstWithItsId, findIndex.
  destruct (existsb (fun t => sameId (idOf id t) (id (fields o))) pre) eqn:E; cbn [negb].
  - pose proof (findIndexFrom_early _ pre (Some o :: suf) 0 E) as R.
    apply Z.eqb_neq. lia.
  - rewrite findIndexFrom_skip by exact E. cbn [findIndexFrom idOf].
    rewrite sameId_refl. apply Z.eqb_eq. lia.
Qed.

Lemma filterFrom_firstOccurrences (pre suf : list (option (Track TrackFields))) :
  filterFrom (firstWithItsId id (pre ++ suf)) suf (Z.of_nat (length pre))
  = firstOccurrences id (rev (map (idOf id) pre)) suf.
Proof.
  revert pre. induction suf as [|x r IH]; intros pre; [reflexivity|].
  assert (forall y : option (Track TrackFields),
             filterFrom (firstWithItsId id (pre ++ y :: r)) r (Z.of_nat (length pre) + 1)
             = firstOccurrences id (idOf id y :: rev (map (idOf id) pre)) r) as Step.
  { intros y. specialize (IH (pre ++ [y])).
    rewrite <- app_assoc, length_app, map_app, rev_app_distr in IH. cbn in IH.
    rewrite <- IH. f_equal. lia. }
  cbn [filterFrom firstOccurrences]. destruct x as [o|].
  - rewrite firstWithItsId_spec, Step. cbn [idOf].
    rewrite existsb_rev_map.
    now destruct (existsb _ pre).
  - cbn [firstWithItsId]. now rewrite Step.
Qed.

(** The filter by track ID removes the [null] entries and every entry
    whose [id] was read before, and keeps the others in order. *)
Lemma dedupById_firstOccurrences (arr : list (option (Track TrackFields))) :
  dedupById id (Some arr) = firstOccurrences id [] arr.
Proof. exact (filterFrom_firstOccurrences [] arr). Qed.

(** Two objects with the same [id], one after the other: the filter by
    track ID keeps the first one only. *)
Lemma dedupById_same_id (a b : Track TrackFields) :
  id (fields a) = id (fields b) ->
  dedupById id (Some [Some a; Some b]) = [Some a].
Proof.
  intros E. rewrite dedupById_firstOccurrences. cbn.
  now rewrite E, sameId_refl.
Qed.

(** The set keeps every object that was not inserted before, whatever
    its [id]. *)
Lemma dedupBySet_distinct_objects (a b : Track TrackFields) :
  addr a <> addr b ->
  dedupBySet (Some [Some a; Some b]) = [Some a; Some b].
Proof.
  intros NE. cbn. unfold sameObject.
  destruct (Nat.eqb_spec (addr b) (addr a)); [congruence|reflexivity].
Qed.

End WithTracks.

Import Samples.

(** C9. The set of the earlier [Command] compares objects, not tracks:
    two objects fetched for the same track are both kept, where the
    filter by track ID keeps one. *)
Theorem dedupBySet_keeps_both_objects_of_one_track :
  fields fetched1 = fields fetched2
  /\ dedupBySet (Some [Some fetched1; Some fetched2]) = [Some fetched1; Some fetched2]
  /\ dedupById Some (Some [Some fetched1; Some fetched2]) = [Some fetched1].
Proof. repeat split. Qed.

End DedupFacts.

(** ** The parser *)

Module JSONFacts.

Import JSON.

Lemma run_app (m : machine) (a b : jsString) :
  run m (a ++ b) = match run m a with Some m' => run m' b | None => None end.
Proof.
  revert m. induction a as [|c r IH]; intros m; cbn; [reflexivity|].
  destruct (step m c); [apply IH|reflexivity].
Qed.

Lemma parseFrom_app (m : machine) (a b : jsString) :
  parseFrom m (a ++ b) = match run m a with Some m' => parseFrom m' b | None => None end.
Proof. unfold parseFrom. rewrite run_app. now destruct (run m a). Qed.

Lemma closeValue_lexer v st m : closeValue v st = Some m -> lexer m = LIdle.
Proof.
  destruct st as [|[items|ms [k|]] r]; cbn; intros [= <-] || discriminate; reflexivity.
Qed.

Lemma scalar_lexer v e st m : scalar v e st = Some m -> lexer m = LIdle.
Proof. unfold scalar. destruct (wantsValue e); [apply closeValue_lexer|discriminate]. Qed.

Lemma stringToken_lexer s e st m : stringToken s e st = Some m -> lexer m = LIdle.
Proof.
  unfold stringToken.
  destruct e; try discriminate; try apply closeValue_lexer;
    destruct st as [|[items|ms [k|]] r]; try discriminate; now intros [= <-].
Qed.

Ltac break_if :=
  match goal with
  | |- context [if ?b then _ else _] => destruct b eqn:?
  | H : context [if ?b then _ else _] |- _ => destruct b eqn:?
  end.

Lemma idleStep_wellFormed c e st m :
  idleStep c e st = Some m -> wellFormed m = true.
Proof.
  unfold idleStep, wellFormed.
  repeat (break_if; [try (intros [= <-]; reflexivity); try discriminate|]);
    try discriminate.
  all: try (intros H; apply closeValue_lexer in H; now rewrite H).
  all: try (destruct e; try discriminate;
            destruct st as [|[items|ms [k|]] r]; try discriminate;
            try (intros [= <-]; reflexivity);
            intros H; apply closeValue_lexer in H; now rewrite H).
Qed.

Lemma step_wellFormed m c m' :
  wellFormed m = true -> step m c = Some m' -> wellFormed m' = true.
Proof.
  unfold step. destruct m as [l e st]. cbn [lexer expected stack].
  destruct l as [|acc|acc|acc ds|n acc|rest v].
  - intros _. apply idleStep_wellFormed.
  - intros _. repeat break_if; try discriminate; try (intros [= <-]; reflexivity).
    intros H. apply stringToken_lexer in H. unfold wellFormed. now rewrite H.
  - intros _. repeat break_if; try discriminate; try (intros [= <-]; reflexivity).
    destruct (escapeUnit c); [intros [= <-]; reflexivity|discriminate].
  - intros _. destruct (hexValue c); [|discriminate].
    destruct ds as [|d2 [|d1 [|d0 [|? ?]]]]; intros [= <-]; reflexivity.
  - intros _. destruct (numberNext n c); [intros [= <-]; reflexivity|].
    destruct (numberComplete n); [|discriminate].
    destruct (scalar _ e st) as [m1|]; [|discriminate].
    apply idleStep_wellFormed.
  - unfold wellFormed at 1. cbn [lexer]. destruct rest as [|x rest']; [discriminate|].
    cbn [forallb]. intros W. apply andb_true_iff in W. destruct W as [_ W].
    destruct (c =? x)%N; [|discriminate].
    destruct rest'; [|intros [= <-]; exact W].
    intros H. apply scalar_lexer in H. unfold wellFormed. now rewrite H.
Qed.

Lemma run_wellFormed s m m' :
  wellFormed m = true -> run m s = Some m' -> wellFormed m' = true.
Proof.
  revert m. induction s as [|c r IH]; intros m W; cbn.
  - now intros [= <-].
  - destruct (step m c) as [m1|] eqn:S; [|discriminate].
    apply IH. eapply step_wellFormed; eassumption.
Qed.

(** After the value is complete only white space may follow. *)
Lemma step_doomed m c m' :
  doomed m = true -> step m c = Some m' -> doomed m' = true.
Proof.
  destruct m as [l e st]. unfold doomed, step. cbn [lexer expected stack].
  destruct e; try discriminate. destruct l as [|acc|acc|acc ds|n acc|rest w];
    try discriminate; intros _.
  - repeat break_if; try discriminate; intros [= <-]; reflexivity.
  - repeat break_if; try discriminate; try (intros [= <-]; reflexivity).
    destruct (escapeUnit c); [intros [= <-]; reflexivity|discriminate].
  - destruct (hexValue c); [|discriminate].
    destruct ds as [|d2 [|d1 [|d0 [|? ?]]]]; intros [= <-]; reflexivity.
  - destruct (numberNext n c); [intros [= <-]; reflexivity|].
    destruct (numberComplete n); discriminate.
  - destruct rest as [|x rest']; [discriminate|].
    destruct (c =? x)%N; [|discriminate].
    destruct rest'; [discriminate|intros [= <-]; reflexivity].
Qed.

Lemma finish_doomed m : doomed m = true -> finish m = None.
Proof.
  destruct m as [l e st]. unfold doomed, finish. cbn [lexer expected stack].
  destruct e; try discriminate. destruct l; try discriminate; try reflexivity.
  intros _. now destruct (numberComplete st0).
Qed.

Lemma parseFrom_doomed s m : doomed m = true -> parseFrom m s = None.
Proof.
  unfold parseFrom. revert m. induction s as [|c r IH]; intros m D; cbn.
  - now apply finish_doomed.
  - destruct (step m c) as [m1|] eqn:S; [|reflexivity].
    apply IH. eapply step_doomed; eassumption.
Qed.

Lemma idleStep_done c v st m :
  idleStep c (EDone v) st = Some m ->
  (isJsonSpace c = true /\ m = {| lexer := LIdle; expected := EDone v; stack := st |})
  \/ (isJsonSpace c = false /\ doomed m = true).
Proof.
  unfold idleStep.
  destruct (isJsonSpace c); [intros [= <-]; now left|].
  intros H. right. split; [reflexivity|]. revert H.
  repeat (break_if; [try discriminate; try (intros [= <-]; reflexivity)|]);
    discriminate.
Qed.

(** Once the value is complete, a text that holds anything but white
    space is rejected. *)
Lemma parseFrom_done_garbage s v st :
  existsb (fun c => negb (isJsonSpace c)) s = true ->
  parseFrom {| lexer := LIdle; expected := EDone v; stack := st |} s = None.
Proof.
  induction s as [|c r IH]; cbn [existsb]; [discriminate|].
  intros E. unfold parseFrom. cbn [run]. unfold step. cbn [lexer expected stack].
  destruct (idleStep c (EDone v) st) as [m|] eqn:S; [|reflexivity].
  apply idleStep_done in S. destruct S as [(W & ->)|(W & D)].
  - rewrite W in E. cbn in E. apply IH in E. exact E.
  - now apply parseFrom_doomed.
Qed.

(** A text that was accepted and ends with a closing brace leaves the
    parser idle with its value. *)
Lemma finish_after_closeBrace m0 m v :
  step m0 125 = Some m -> finish m = Some v ->
  m = {| lexer := LIdle; expected := EDone v; stack := stack m |}.
Proof.
  intros S F.
  assert (lexer m = LIdle) as L.
  { revert S. unfold step. destruct m0 as [l e st]. cbn [lexer expected stack].
    destruct l as [|acc|acc|acc ds|n acc|rest w].
    - cbn. destruct e; try discriminate;
        destruct st as [|[items|ms [k|]] r]; try discriminate; apply closeValue_lexer.
    - cbn. intros [= <-]. cbn in F. discriminate.
    - cbn. discriminate.
    - cbn. discriminate.
    - assert (numberNext n 125 = None) as -> by now destruct n.
      destruct (numberComplete n); [|discriminate].
      destruct (scalar _ e st) as [m1|]; [|discriminate].
      cbn. destruct (expected m1); try discriminate;
        destruct (stack m1) as [|[items|ms [k|]] r]; try discriminate; apply closeValue_lexer.
    - destruct rest as [|x rest']; [discriminate|].
      destruct (125 =? x)%N; [|discriminate].
      destruct rest'; [apply scalar_lexer|].
      intros [= <-]. cbn in F. discriminate. }
  destruct m as [l e st]. cbn in L. subst l. cbn in F.
  destruct e; try discriminate. now injection F as ->.
Qed.

Lemma parse_then_garbage (J q : jsString) (v : value) :
  parse (J ++ [125%N]) = Some v ->
  existsb (fun c => negb (isJsonSpace c)) q = true ->
  parse ((J ++ [125%N]) ++ q) = None.
Proof.
  unfold parse. intros P G. rewrite parseFrom_app.
  unfold parseFrom in P.
  destruct (run start (J ++ [125%N])) as [m|] eqn:R; [|discriminate].
  rewrite run_app in R.
  destruct (run start J) as [m0|]; [|discriminate].
  cbn [run] in R. destruct (step m0 125) as [m1|] eqn:S; [|discriminate].
  injection R as ->.
  rewrite (finish_after_closeBrace _ S P).
  now apply parseFrom_done_garbage.
Qed.

Lemma isJsonSpace_cases c :
  isJsonSpace c = true -> c = 32%N \/ c = 9%N \/ c = 10%N \/ c = 13%N.
Proof.
  unfold isJsonSpace. rewrite !orb_true_iff, !N.eqb_eq. tauto.
Qed.

Lemma isJsonSpace_isWhiteSpace c : isJsonSpace c = true -> isWhiteSpace c = true.
Proof.
  intros H. apply isJsonSpace_cases in H.
  destruct H as [ -> | [ -> | [ -> | -> ]]]; reflexivity.
Qed.

Lemma isWhiteSpace_cases c :
  isWhiteSpace c = true ->
  (9 <= c <= 13 \/ c = 32 \/ c = 160 \/ c = 5760 \/ 8192 <= c <= 8202
   \/ c = 8232 \/ c = 8233 \/ c = 8239 \/ c = 8287 \/ c = 12288 \/ c = 65279)%N.
Proof.
  unfold isWhiteSpace.
  rewrite !orb_true_iff, !andb_true_iff, !N.leb_le, !N.eqb_eq. tauto.
Qed.

(** White space of the language that is not white space of JSON is not
    accepted between tokens. *)
Lemma idleStep_foreign_space c e st :
  isWhiteSpace c = true -> isJsonSpace c = false -> idleStep c e st = None.
Proof.
  intros W J. apply isWhiteSpace_cases in W.
  unfold idleStep. rewrite J. unfold isDigit.
  repeat match goal with
         | |- context [(c =? ?k)%N] =>
           destruct (N.eqb_spec c k); [exfalso; lia|]
         end.
  destruct (N.leb_spec 48 c), (N.leb_spec c 57); cbn; try reflexivity. exfalso; lia.
Qed.

Lemma idleStep_space c e st :
  isJsonSpace c = true ->
  idleStep c e st = Some {| lexer := LIdle; expected := e; stack := st |}.
Proof. unfold idleStep. now intros ->. Qed.

Lemma numberNext_space n c : isJsonSpace c = true -> numberNext n c = None.
Proof.
  intros H. apply isJsonSpace_cases in H.
  destruct H as [ -> | [ -> | [ -> | -> ]]]; now destruct n.
Qed.

Lemma numberNext_closing n c : isClosingUnit c -> numberNext n c = None.
Proof. intros [ -> | -> ]; now destruct n. Qed.

(** White space before a closing bracket does not change what the parser
    does with the bracket and the rest. *)
Lemma run_skip_space m ws br q :
  betweenTokens m = true ->
  forallb isJsonSpace ws = true ->
  isClosingUnit br ->
  run m (ws ++ br :: q) = run m (br :: q).
Proof.
  intros B W C. destruct m as [l e st]. unfold betweenTokens in B. cbn in B.
  assert (forall e st, run {| lexer := LIdle; expected := e; stack := st |} (ws ++ br :: q)
                       = run {| lexer := LIdle; expected := e; stack := st |} (br :: q)) as Idle.
  { clear - W. induction ws as [|c r IH]; intros e st; [reflexivity|].
    cbn [forallb] in W. apply andb_true_iff in W. destruct W as [Wc Wr].
    cbn [app run]. unfold step at 1. cbn [lexer expected stack].
    rewrite idleStep_space by exact Wc. now apply IH. }
  destruct l as [|acc|acc|acc ds|n acc|rest w]; try discriminate; [apply Idle|].
  destruct ws as [|c r]; [reflexivity|].
  cbn [forallb] in W. apply andb_true_iff in W. destruct W as [Wc Wr].
  cbn [app run]. unfold step. cbn [lexer expected stack].
  rewrite (@numberNext_space n c Wc), (@numberNext_closing n br C).
  destruct (numberComplete n); [|reflexivity].
  destruct (scalar _ e st) as [m1|]; [|reflexivity].
  rewrite idleStep_space by exact Wc.
  assert (forallb isJsonSpace r = true) as Wr' by exact Wr.
  clear - Wr'. revert m1. induction r as [|c r IH]; intros m1.
  - cbn [app run]. unfold step. cbn [lexer expected stack]. reflexivity.
  - cbn [forallb] in Wr'. apply andb_true_iff in Wr'. destruct Wr' as [Wc Wr].
    cbn [app run]. unfold step at 1. cbn [lexer expected stack].
    rewrite idleStep_space by exact Wc.
    specialize (IH Wr {| lexer := LIdle; expected := expected m1; stack := stack m1 |}).
    exact IH.
Qed.

(** After a comma between two values or members, white space and a
    closing bracket are rejected. *)
Lemma run_comma_then_closing s e st :
  e = EValue \/ e = EKey ->
  Extractor.closingAhead s = true ->
  run {| lexer := LIdle; expected := e; stack := st |} s = None.
Proof.
  intros E. induction s as [|c r IH]; unfold Extractor.closingAhead; cbn [trimStart].
  - discriminate.
  - cbn [run]. unfold step. cbn [lexer expected stack].
    destruct (isWhiteSpace c) eqn:W.
    + intros A. destruct (isJsonSpace c) eqn:J.
      * rewrite idleStep_space by exact J. now apply IH.
      * now rewrite idleStep_foreign_space.
    + unfold Extractor.isClosing. rewrite orb_true_iff, !N.eqb_eq.
      unfold Extractor.closeBrace, Extractor.closeBracket.
      intros [ -> | -> ]; destruct E as [ -> | -> ]; reflexivity.
Qed.

(** A comma that is accepted outside a string literal separates two
    values or members. *)
Lemma step_comma_outside_string m m' :
  wellFormed m = true -> inString m = false ->
  step m 44 = Some m' ->
  exists e st, m' = {| lexer := LIdle; expected := e; stack := st |}
               /\ (e = EValue \/ e = EKey).
Proof.
  destruct m as [l e st]. unfold wellFormed, inString, step. cbn [lexer expected stack].
  assert (forall e st m', idleStep 44 e st = Some m' ->
            exists e' st', m' = {| lexer := LIdle; expected := e'; stack := st' |}
                           /\ (e' = EValue \/ e' = EKey)) as Idle.
  { clear. intros e st m'. cbn.
    destruct e; try discriminate.
    destruct st as [|[items|ms [k|]] r]; try discriminate; intros [= <-]; eauto. }
  destruct l as [|acc|acc|acc ds|n acc|rest w]; intros W S.
  - apply Idle.
  - discriminate.
  - cbn. discriminate.
  - cbn. discriminate.
  - assert (numberNext n 44 = None) as -> by now destruct n.
    destruct (numberComplete n); [|discriminate].
    destruct (scalar _ e st) as [m1|]; [|discriminate]. apply Idle.
  - destruct rest as [|x rest']; [discriminate|].
    cbn [forallb] in W. apply andb_true_iff in W. destruct W as [Wx _].
    destruct (N.eqb_spec 44 x) as [<-|NE]; [discriminate|discriminate].
Qed.

(** Inside a string literal, a comma, white space and brackets are
    content. *)
Lemma step_in_string acc e st c :
  (c =? 34)%N = false -> (c =? 92)%N = false ->
  step {| lexer := LString acc; expected := e; stack := st |} c
  = if (c <? 32)%N then None
    else Some {| lexer := LString (c :: acc); expected := e; stack := st |}.
Proof. unfold step. cbn [lexer expected stack]. now intros -> ->. Qed.

(** Two outcomes of the parser with the same shape. *)
Lemma closeValue_shape v v' st st' :
  map shapeOfFrame st = map shapeOfFrame st' ->
  sameShape (closeValue v st) (closeValue v' st').
Proof.
  destruct st as [|[items|ms [k|]] r], st' as [|[items'|ms' [k'|]] r'];
    cbn; try discriminate; try tauto; intros [= E]; unfold shape; cbn; now rewrite E.
Qed.

Lemma scalar_shape v v' e e' st st' :
  shapeOfExpect e = shapeOfExpect e' ->
  map shapeOfFrame st = map shapeOfFrame st' ->
  sameShape (scalar v e st) (scalar v' e' st').
Proof.
  intros E S. unfold scalar.
  destruct e, e'; try discriminate; cbn; try exact I; now apply closeValue_shape.
Qed.

Lemma stringToken_shape s s' e e' st st' :
  shapeOfExpect e = shapeOfExpect e' ->
  map shapeOfFrame st = map shapeOfFrame st' ->
  sameShape (stringToken s e st) (stringToken s' e' st').
Proof.
  intros E S. unfold stringToken.
  destruct e, e'; try discriminate; try (now apply closeValue_shape);
    destruct st as [|[items|ms [k|]] r], st' as [|[items'|ms' [k'|]] r'];
    cbn in *; try discriminate; try exact I;
      injection S as S; unfold shape; cbn; now rewrite S.
Qed.

Lemma idleStep_shape c e e' st st' :
  shapeOfExpect e = shapeOfExpect e' ->
  map shapeOfFrame st = map shapeOfFrame st' ->
  sameShape (idleStep c e st) (idleStep c e' st').
Proof.
  intros E S. unfold idleStep.
  assert (wantsValue e = wantsValue e') as W by (destruct e, e'; try discriminate; reflexivity).
  rewrite <- W.
  repeat (break_if; [try (unfold sameShape, shape; cbn; now rewrite ?E, ?S)|]);
    try exact I.
  - destruct e, e'; try discriminate; try exact I;
      destruct st as [|[items|ms [k|]] r], st' as [|[items'|ms' [k'|]] r'];
      cbn in S |- *; try discriminate; try exact I;
        injection S as S; now apply closeValue_shape.
  - destruct e, e'; try discriminate; try exact I;
      destruct st as [|[items|ms [k|]] r], st' as [|[items'|ms' [k'|]] r'];
      cbn in S |- *; try discriminate; try exact I;
        injection S as S; now apply closeValue_shape.
  - destruct e, e'; try discriminate; try exact I;
      destruct st as [|[items|ms [k|]] r], st' as [|[items'|ms' [k'|]] r'];
      cbn in S |- *; try discriminate; try exact I;
        injection S as S; unfold shape; cbn; now rewrite S.
  - destruct e, e'; try discriminate; try exact I.
    unfold sameShape, shape; cbn; now rewrite S.
Qed.

Lemma sameShape_Some m1 (a b : option machine) :
  a = Some m1 -> sameShape a b -> exists m1', b = Some m1' /\ shape m1 = shape m1'.
Proof. intros ->. destruct b; cbn; [eauto|tauto]. Qed.

(** One step of the parser depends on the values it has built only for
    the values it builds. *)
Lemma step_shape m m' c :
  shape m = shape m' -> sameShape (step m c) (step m' c).
Proof.
  destruct m as [l e st], m' as [l' e' st']. unfold shape. cbn [lexer expected stack].
  intros [= L E S]. unfold step. cbn [lexer expected stack].
  destruct l as [|acc|acc|acc ds|n acc|rest w],
           l' as [|acc'|acc'|acc' ds'|n' acc'|rest' w']; try discriminate.
  - now apply idleStep_shape.
  - repeat break_if; try exact I; try (unfold sameShape, shape; cbn; now rewrite ?E, ?S).
    now apply stringToken_shape.
  - repeat break_if; try exact I; try (unfold sameShape, shape; cbn; now rewrite ?E, ?S).
    destruct (escapeUnit c); [|exact I]. unfold sameShape, shape; cbn; now rewrite ?E, ?S.
  - cbn in L. injection L as L.
    destruct (hexValue c); [|exact I].
    destruct ds as [|d2 [|d1 [|d0 [|? ?]]]], ds' as [|d2' [|d1' [|d0' [|? ?]]]];
      try discriminate; unfold sameShape, shape; cbn in L |- *; rewrite ?E, ?S; congruence.
  - cbn in L. injection L as <-.
    destruct (numberNext n c); [unfold sameShape, shape; cbn; now rewrite ?E, ?S|].
    destruct (numberComplete n); [|exact I].
    pose proof (@scalar_shape (JNumber (rev acc)) (JNumber (rev acc')) e e' st st' E S) as H.
    destruct (scalar _ e st) as [m1|], (scalar _ e' st') as [m1'|]; cbn in H; try tauto.
    unfold shape in H. injection H as _ E1 S1. now apply idleStep_shape.
  - cbn in L. injection L as <-.
    destruct rest as [|x r]; [exact I|].
    destruct (c =? x)%N; [|exact I].
    destruct r; [now apply scalar_shape|].
    unfold sameShape, shape; cbn; now rewrite ?E, ?S.
Qed.

Lemma finish_shape m m' v :
  shape m = shape m' -> finish m = Some v -> exists v', finish m' = Some v'.
Proof.
  destruct m as [l e st], m' as [l' e' st']. unfold shape. cbn [lexer expected stack].
  intros [= L E S]. unfold finish. cbn [lexer expected stack].
  destruct l as [|acc|acc|acc ds|n acc|rest w],
           l' as [|acc'|acc'|acc' ds'|n' acc'|rest' w']; try discriminate.
  - destruct e, e'; try discriminate. eauto.
  - cbn in L. injection L as <-.
    destruct (numberComplete n); [|discriminate].
    pose proof (@scalar_shape (JNumber (rev acc)) (JNumber (rev acc')) e e' st st' E S) as H.
    destruct (scalar _ e st) as [m1|], (scalar _ e' st') as [m1'|]; cbn in H;
      try tauto; try discriminate.
    unfold shape in H. injection H as _ E1 _.
    destruct (expected m1), (expected m1'); try discriminate. eauto.
Qed.

Lemma shape_betweenTokens m m' :
  shape m = shape m' -> betweenTokens m = betweenTokens m'.
Proof.
  unfold shape, betweenTokens. intros [= L _ _].
  destruct (lexer m), (lexer m'); try discriminate; reflexivity.
Qed.

Lemma shape_inString m m' :
  shape m = shape m' -> inString m = inString m'.
Proof.
  unfold shape, inString. intros [= L _ _].
  destruct (lexer m), (lexer m'); try discriminate; reflexivity.
Qed.

(** *** The frames of the stack, as objects and arrays *)

Lemma rooted_cons k ks : ks <> [] -> rooted (k :: ks) = rooted ks.
Proof. destruct ks; [congruence|reflexivity]. Qed.

Lemma rooted_not_nil ks : rooted ks = true -> ks <> [].
Proof. now destruct ks. Qed.

Lemma objectDepth_nonneg ks : (0 <= objectDepth ks)%Z.
Proof. induction ks as [|[|] r IH]; cbn [objectDepth]; lia. Qed.

Lemma rooted_depth ks : rooted ks = true -> (0 < objectDepth ks)%Z.
Proof.
  induction ks as [|k r IH]; [discriminate|].
  destruct r as [|k' r'].
  - cbn [rooted last objectDepth]. intros ->. lia.
  - intros R. rewrite rooted_cons in R by discriminate. specialize (IH R).
    cbn [objectDepth] in *. destruct k; lia.
Qed.

(** Completing a value keeps the frames that are open. *)
Lemma closeValue_kinds v st m :
  st <> [] -> closeValue v st = Some m ->
  kinds m = map isObjectFrame st /\ expected m = ECommaOrEnd /\ lexer m = LIdle.
Proof.
  destruct st as [|[items|ms [k|]] r]; [congruence| | |discriminate];
    intros _ [= <-]; auto.
Qed.

Lemma closeValue_top v m :
  closeValue v [] = Some m -> m = {| lexer := LIdle; expected := EDone v; stack := [] |}.
Proof. now intros [= <-]. Qed.

Lemma scalar_kinds v e st m :
  st <> [] -> scalar v e st = Some m ->
  kinds m = map isObjectFrame st /\ expected m = ECommaOrEnd /\ lexer m = LIdle.
Proof. unfold scalar. destruct (wantsValue e); [apply closeValue_kinds|discriminate]. Qed.

Lemma stringToken_kinds s e st m :
  st <> [] -> stringToken s e st = Some m ->
  kinds m = map isObjectFrame st /\ isDone m = false /\ lexer m = LIdle.
Proof.
  intros NE. unfold stringToken.
  destruct e; try discriminate;
    try (intros H; destruct (@closeValue_kinds _ _ _ NE H) as (K & E & L);
         unfold isDone; rewrite E; auto);
    destruct st as [|[items|ms [k|]] r]; try discriminate; intros [= <-]; auto.
Qed.

(** What one code unit does to the open frames, between tokens. *)
Lemma idleStep_kinds c e st m :
  (forall v, e <> EDone v) ->
  rooted (map isObjectFrame st) = true ->
  idleStep c e st = Some m ->
  (c = 123%N /\ kinds m = true :: map isObjectFrame st /\ isDone m = false)
  \/ (c = 125%N /\ map isObjectFrame st = true :: kinds m
      /\ (kinds m = [] -> exists v, m = {| lexer := LIdle; expected := EDone v; stack := [] |}
                                    /\ isObject v = true)
      /\ (kinds m <> [] -> isDone m = false))
  \/ (c <> 123%N /\ c <> 125%N /\ isDone m = false
      /\ objectDepth (kinds m) = objectDepth (map isObjectFrame st)
      /\ rooted (kinds m) = true).
Proof.
  intros ND R. pose proof (@rooted_not_nil _ R) as NEk.
  assert (st <> []) as NE by (intros ->; now apply NEk).
  assert (forall l, isDone {| lexer := l; expected := e; stack := st |} = false) as Dn.
  { intros l. unfold isDone. cbn. destruct e; try reflexivity. now elim (ND v). }
  unfold idleStep.
  destruct (isJsonSpace c) eqn:Sp.
  { intros [= <-]. right. right.
    split; [intros ->; discriminate Sp|]. split; [intros ->; discriminate Sp|].
    repeat split; try reflexivity; try apply Dn; exact R. }
  repeat match goal with
         | |- context [(c =? ?k)%N] =>
           destruct (N.eqb_spec c k);
           [subst c; cbn [isDigit N.leb N.compare Pos.compare Pos.compare_cont andb]|]
         end.
  all: try (intros [= <-]; right; right;
            repeat split; try congruence; try reflexivity; try apply Dn; exact R).
  all: try (destruct (isDigit c);
            [intros [= <-]; right; right;
             repeat split; try congruence; try reflexivity; try apply Dn; exact R|]).
  all: try discriminate.
  - (* { *)
    destruct (wantsValue e); [|discriminate]. intros [= <-]. left. auto.
  - (* [ *)
    destruct (wantsValue e); [|discriminate]. intros [= <-]. right. right.
    split; [discriminate|]. split; [discriminate|]. split; [reflexivity|].
    split; [reflexivity|].
    unfold kinds. cbn [stack map isObjectFrame]. now rewrite rooted_cons by exact NEk.
  - (* } *)
    destruct e; try discriminate;
      destruct st as [|[items|ms [k|]] r]; try discriminate;
      intros H; right; left; (split; [reflexivity|]).
    all: destruct r as [|f r'];
      [ apply closeValue_top in H; subst m; unfold kinds; cbn [stack map isObjectFrame];
        split; [reflexivity|]; split; [intros _; eauto|congruence]
      | destruct (@closeValue_kinds _ (f :: r') _ ltac:(discriminate) H) as (K & E & L);
        rewrite K; cbn [map isObjectFrame]; unfold isDone; rewrite E;
        split; [reflexivity|]; split; [intros Z; discriminate Z|reflexivity] ].
  - (* ] *)
    destruct e; try discriminate;
      destruct st as [|[items|ms [k|]] r]; try discriminate;
      intros H; right; right.
    all: cbn [map isObjectFrame] in R;
      assert (r <> []) as NEr by (intros ->; discriminate R);
      rewrite rooted_cons in R by (destruct r; [congruence|discriminate]);
      destruct (@closeValue_kinds _ _ _ NEr H) as (K & E & L);
      unfold isDone; rewrite K, E; cbn [map isObjectFrame objectDepth];
      split; [discriminate|]; split; [discriminate|]; split; [reflexivity|];
      split; [lia|exact R].
  - (* , *)
    destruct e; try discriminate;
      destruct st as [|[items|ms [k|]] r]; try discriminate;
      intros [= <-]; right; right;
      (split; [discriminate|]); (split; [discriminate|]); (split; [reflexivity|]);
      (split; [reflexivity|exact R]).
  - (* : *)
    destruct e; try discriminate.
    intros [= <-]; right; right;
      (split; [discriminate|]); (split; [discriminate|]); (split; [reflexivity|]);
      (split; [reflexivity|exact R]).
Qed.

(** What one code unit does to the open frames. *)
Lemma step_kinds m c m2 :
  wellFormed m = true -> isDone m = false -> rooted (kinds m) = true ->
  step m c = Some m2 ->
  (inString m = false /\ c = 123%N /\ kinds m2 = true :: kinds m /\ isDone m2 = false)
  \/ (inString m = false /\ c = 125%N /\ kinds m = true :: kinds m2
      /\ (kinds m2 = [] -> exists v, m2 = {| lexer := LIdle; expected := EDone v; stack := [] |}
                                     /\ isObject v = true)
      /\ (kinds m2 <> [] -> isDone m2 = false))
  \/ ((inString m = true \/ (c <> 123%N /\ c <> 125%N)) /\ isDone m2 = false
      /\ objectDepth (kinds m2) = objectDepth (kinds m)
      /\ rooted (kinds m2) = true).
Proof.
  destruct m as [l e st]. unfold wellFormed, isDone, kinds, inString, step.
  cbn [lexer expected stack]. intros W D R.
  assert (forall v, e <> EDone v) as ND by (intros v ->; discriminate D).
  assert (st <> []) as NE by (intros ->; discriminate R).
  assert (forall l', isDone {| lexer := l'; expected := e; stack := st |} = false
                     /\ objectDepth (kinds {| lexer := l'; expected := e; stack := st |})
                        = objectDepth (map isObjectFrame st)
                     /\ rooted (kinds {| lexer := l'; expected := e; stack := st |}) = true)
    as Same by (intros l'; repeat split; assumption).
  destruct l as [|acc|acc|acc ds|n acc|rest w].
  - intros H. destruct (@idleStep_kinds _ _ _ _ ND R H) as [(C & K & Dn)|[(C & K & Z & NZ)|(C1 & C2 & Dn & O & Rt)]].
    + left. auto.
    + right. left. auto.
    + right. right. auto.
  - intros H. right. right. split; [now left|]. revert H.
    destruct (c =? 34)%N.
    { intros H. destruct (@stringToken_kinds _ _ _ _ NE H) as (K & Dn & L).
      unfold kinds in K. now rewrite K. }
    destruct (c =? 92)%N; [intros [= <-]; apply Same|].
    destruct (c <? 32)%N; [discriminate|intros [= <-]; apply Same].
  - intros H. right. right. revert H.
    destruct (N.eqb_spec c 117) as [->|].
    { intros [= <-]. split; [right; split; discriminate|apply Same]. }
    destruct (escapeUnit c) eqn:Esc; [|discriminate].
    intros [= <-]. split; [|apply Same]. right.
    split; intros ->; discriminate Esc.
  - intros H. right. right. revert H.
    destruct (hexValue c) eqn:Hx; [|discriminate].
    assert (c <> 123%N /\ c <> 125%N) as NB by (split; intros ->; discriminate Hx).
    destruct ds as [|d2 [|d1 [|d0 [|? ?]]]]; intros [= <-]; (split; [now right|apply Same]).
  - destruct (numberNext n c) eqn:Nx.
    { intros [= <-]. right. right. split; [|apply Same]. right.
      split; intros ->; destruct n; discriminate Nx. }
    destruct (numberComplete n); [|discriminate].
    destruct (scalar _ e st) as [m1|] eqn:Sc; [|discriminate].
    destruct (@scalar_kinds _ _ _ _ NE Sc) as (K & E & L).
    unfold kinds in K. intros H.
    assert (forall v, expected m1 <> EDone v) as ND1 by (rewrite E; discriminate).
    assert (rooted (map isObjectFrame (stack m1)) = true) as R1 by now rewrite K.
    destruct (@idleStep_kinds _ _ _ _ ND1 R1 H)
      as [(C & K' & Dn)|[(C & K' & Z & NZ)|(C1 & C2 & Dn & O & Rt)]];
      rewrite K in *.
    + left. auto.
    + right. left. auto.
    + right. right. auto.
  - destruct rest as [|x rest']; [discriminate|].
    cbn [forallb] in W. apply andb_true_iff in W. destruct W as [Wx _].
    destruct (N.eqb_spec c x) as [->|]; [|discriminate].
    assert (x <> 123%N /\ x <> 125%N) as NB by (split; intros ->; discriminate Wx).
    intros H. right. right. split; [now right|]. revert H.
    destruct rest'; [|intros [= <-]; apply Same].
    intros H. destruct (@scalar_kinds _ _ _ _ NE H) as (K & E & L).
    unfold isDone. unfold kinds in K. now rewrite K, E.
Qed.


(** Once the value is complete, it stays the result. *)
Lemma step_done m c m2 v :
  expected m = EDone v -> step m c = Some m2 ->
  expected m2 = EDone v /\ stack m2 = stack m.
Proof.
  destruct m as [l e st]. cbn [expected stack]. intros ->. unfold step.
  cbn [lexer expected stack].
  destruct l as [|acc|acc|acc ds|n acc|rest w].
  - unfold idleStep. cbn [wantsValue].
    repeat (break_if; [try discriminate; try (intros [= <-]; auto)|]); discriminate.
  - repeat break_if; try discriminate; intros [= <-]; auto.
  - repeat break_if; try discriminate; try (intros [= <-]; auto).
    destruct (escapeUnit c); [intros [= <-]; auto|discriminate].
  - destruct (hexValue c); [|discriminate].
    destruct ds as [|d2 [|d1 [|d0 [|? ?]]]]; intros [= <-]; auto.
  - destruct (numberNext n c); [intros [= <-]; auto|].
    destruct (numberComplete n); discriminate.
  - destruct rest as [|x rest']; [discriminate|].
    destruct (c =? x)%N; [|discriminate].
    destruct rest'; [discriminate|intros [= <-]; auto].
Qed.

Lemma readsObject_not_done m :
  isDone m = false -> readsObject m = rooted (kinds m).
Proof. unfold isDone, readsObject. now destruct (expected m). Qed.

Lemma step_readsObject m c m2 :
  wellFormed m = true -> readsObject m = true -> step m c = Some m2 ->
  readsObject m2 = true.
Proof.
  intros W RO St. destruct (isDone m) eqn:D.
  - unfold isDone in D. destruct (expected m) eqn:E; try discriminate.
    destruct (@step_done m c m2 v E St) as (E2 & S2).
    unfold readsObject in *. now rewrite E2, S2, E in *.
  - rewrite readsObject_not_done in RO by exact D.
    destruct (@step_kinds m c m2 W D RO St)
      as [(_ & _ & K & Dn)|[(_ & _ & K & Z & NZ)|(_ & Dn & _ & Rt)]].
    + rewrite readsObject_not_done by exact Dn. rewrite K.
      now rewrite rooted_cons by (now apply rooted_not_nil).
    + destruct (kinds m2) as [|k ks] eqn:K2.
      * destruct (Z eq_refl) as (v & -> & O). unfold readsObject. cbn. now rewrite O.
      * rewrite readsObject_not_done by (apply NZ; discriminate).
        rewrite K2. rewrite K in RO. now rewrite rooted_cons in RO by discriminate.
    + now rewrite readsObject_not_done by exact Dn.
Qed.

Lemma run_readsObject s :
  forall m m2, wellFormed m = true -> readsObject m = true ->
               run m s = Some m2 -> readsObject m2 = true.
Proof.
  induction s as [|c r IH]; intros m m2 W RO; cbn [run].
  - now intros [= <-].
  - destruct (step m c) as [m1|] eqn:St; [|discriminate].
    apply IH.
    + eapply step_wellFormed; eassumption.
    + eapply step_readsObject; eassumption.
Qed.

Lemma finish_not_done m :
  isDone m = false -> rooted (kinds m) = true -> finish m = None.
Proof.
  destruct m as [l e st]. unfold isDone, kinds, finish. cbn [lexer expected stack].
  intros D R. assert (st <> []) as NE by (intros ->; discriminate R).
  destruct l; try reflexivity.
  - destruct e; try reflexivity. discriminate.
  - destruct (numberComplete st0); [|reflexivity].
    destruct (scalar _ e st) as [m1|] eqn:Sc; [|reflexivity].
    destruct (@scalar_kinds _ _ _ _ NE Sc) as (_ & E & _). now rewrite E.
Qed.

Lemma finish_readsObject m v :
  readsObject m = true -> finish m = Some v -> isObject v = true.
Proof.
  intros RO F. destruct (isDone m) eqn:D.
  - unfold isDone in D. unfold readsObject in RO.
    destruct m as [l e st]. cbn [expected stack] in *.
    destruct e; try discriminate. apply andb_true_iff in RO. destruct RO as [O _].
    unfold finish in F. cbn [lexer expected stack] in F.
    destruct l; try discriminate.
    + now injection F as <-.
    + destruct (numberComplete st0); discriminate.
  - rewrite readsObject_not_done in RO by exact D.
    now rewrite finish_not_done in F.
Qed.

(** A text that starts with an opening brace parses to an object. *)
Lemma parse_object s v :
  parse (123%N :: s) = Some v -> exists ms, v = JObject ms.
Proof.
  unfold parse, parseFrom. cbn [run].
  set (m1 := {| lexer := LIdle; expected := EKeyOrEnd; stack := [FObject [] None] |}).
  change (step start 123) with (Some m1).
  destruct (run m1 s) as [m|] eqn:R; [|discriminate].
  intros F.
  pose proof (@run_readsObject s m1 m eq_refl eq_refl R) as RO.
  pose proof (@finish_readsObject m v RO F) as O.
  destruct v; try discriminate. eauto.
Qed.

(** *** Braces outside string literals *)

Lemma closes_of_parse s :
  forall m v,
    wellFormed m = true -> isDone m = false -> rooted (kinds m) = true ->
    bracesOutside m s = true ->
    parseFrom m s = Some v ->
    (exists s0, s = s0 ++ [125%N]) ->
    Extractor.closes (objectDepth (kinds m)) s = true.
Proof.
  induction s as [|c r IH]; intros m v W D R BO P (s0 & E).
  - now destruct s0.
  - unfold parseFrom in P. cbn [run] in P. cbn [bracesOutside] in BO.
    destruct (step m c) as [m2|] eqn:St; [|discriminate].
    apply andb_true_iff in BO. destruct BO as [BOc BOr].
    fold (parseFrom m2 r) in P.
    pose proof (@step_wellFormed m c m2 W St) as W2.
    assert (r = [] \/ exists r0, r = r0 ++ [125%N]) as Er.
    { destruct s0 as [|x s0]; [left; now injection E|].
      right. exists s0. now injection E. }
    assert (isDone m2 = false -> rooted (kinds m2) = true -> exists r0, r = r0 ++ [125%N])
      as Cont.
    { intros D2 R2. destruct Er as [->|Er]; [|exact Er].
      unfold parseFrom in P. cbn in P. now rewrite finish_not_done in P. }
    cbn [Extractor.closes]. unfold Extractor.openBrace, Extractor.closeBrace.
    destruct (@step_kinds m c m2 W D R St)
      as [(InS & -> & K & Dn)|[(InS & -> & K & Z & NZ)|(Or & Dn & O & Rt)]].
    + change (123 =? 123)%N with true. change (123 =? 125)%N with false.
      assert (rooted (kinds m2) = true) as R2
          by (rewrite K; now rewrite rooted_cons by (now apply rooted_not_nil)).
      replace (objectDepth (kinds m) + 1)%Z with (objectDepth (kinds m2))
        by (rewrite K; cbn [objectDepth]; lia).
      exact (IH m2 v W2 Dn R2 BOr P (Cont Dn R2)).
    + change (125 =? 123)%N with false. change (125 =? 125)%N with true.
      rewrite K. cbn [objectDepth].
      destruct (list_eq_dec Bool.bool_dec (kinds m2) []) as [K2|K2].
      * rewrite K2. cbn [objectDepth]. change (1 + 0 - 1 =? 0)%Z with true.
        destruct (Z K2) as (w & -> & _).
        destruct Er as [->|(r0 & ->)]; [reflexivity|].
        rewrite parseFrom_done_garbage in P; [discriminate|].
        rewrite existsb_app. cbn. apply orb_true_r.
      * assert (isDone m2 = false) as D2 by (apply NZ; exact K2).
        assert (rooted (kinds m2) = true) as R2.
        { rewrite K in R. now rewrite rooted_cons in R by exact K2. }
        pose proof (@rooted_depth _ R2) as Pos.
        destruct (Z.eqb_spec (1 + objectDepth (kinds m2) - 1) 0) as [Z0|_]; [lia|].
        replace (1 + objectDepth (kinds m2) - 1)%Z with (objectDepth (kinds m2)) by lia.
        exact (IH m2 v W2 D2 R2 BOr P (Cont D2 R2)).
    + assert ((c =? 123)%N = false /\ (c =? 125)%N = false) as [C1 C2].
      { destruct Or as [InS|[C1 C2]]; [|split; now apply N.eqb_neq].
        rewrite InS in BOc. cbn in BOc. rewrite orb_false_r in BOc.
        apply negb_true_iff in BOc. unfold isBrace in BOc.
        apply orb_false_iff in BOc. exact BOc. }
      rewrite C1, C2, <- O. exact (IH m2 v W2 Dn Rt BOr P (Cont Dn Rt)).
Qed.

(** A valid object without a brace in its string literals closes at its
    last brace. *)
Lemma closes_object mid v :
  parse (123%N :: mid ++ [125%N]) = Some v ->
  bracesOutside start (123%N :: mid ++ [125%N]) = true ->
  Extractor.closes 0 (123%N :: mid ++ [125%N]) = true.
Proof.
  intros P BO. cbn [Extractor.closes].
  change (123 =? Extractor.openBrace)%N with true.
  change (123 =? Extractor.closeBrace)%N with false.
  unfold parse, parseFrom in P. cbn [run] in P. cbn [bracesOutside] in BO.
  change (step start 123) with
      (Some {| lexer := LIdle; expected := EKeyOrEnd; stack := [FObject [] None] |})
    in P, BO.
  cbn [isBrace inString lexer start negb orb andb] in BO.
  rewrite andb_true_iff in BO. destruct BO as [_ BO].
  eapply (@closes_of_parse (mid ++ [125%N])
            {| lexer := LIdle; expected := EKeyOrEnd; stack := [FObject [] None] |} v);
    try reflexivity; eauto.
Qed.

End JSONFacts.

(** ** The extraction of the playlist suggestion *)

Module ExtractorFacts.

Import JSON Extractor JSONFacts.

Lemma isWhiteSpace_not_quote c :
  isWhiteSpace c = true -> (c =? 34)%N = false /\ (c =? 92)%N = false.
Proof.
  intros W. apply isWhiteSpace_cases in W.
  split; apply N.eqb_neq; lia.
Qed.

Lemma isClosing_cases c : isClosing c = true -> c = 125%N \/ c = 93%N.
Proof.
  unfold isClosing, closeBrace, closeBracket.
  rewrite orb_true_iff, !N.eqb_eq. tauto.
Qed.

Lemma closingAhead_cons c r :
  closingAhead (c :: r) = if isWhiteSpace c then closingAhead r else isClosing c.
Proof. unfold closingAhead. cbn [trimStart]. now destruct (isWhiteSpace c). Qed.

(** The parser accepts the cleaned text wherever it accepts the text,
    and ends in a state of the same shape: in a text that is accepted,
    the pattern only matches inside string literals. *)
Lemma run_replaceFrom s :
  forall (inMatch : bool) (m m' m1 : machine),
    wellFormed m = true ->
    shape m = shape m' ->
    (inMatch = true -> inString m = true /\ closingAhead s = true) ->
    run m s = Some m1 ->
    exists m1', run m' (replaceFrom inMatch s) = Some m1' /\ shape m1 = shape m1'.
Proof.
  induction s as [|c r IH]; intros inMatch m m' m1 W Sh M R.
  - cbn in R. injection R as <-. destruct inMatch; cbn; eauto.
  - cbn [run] in R. destruct (step m c) as [m2|] eqn:St; [|discriminate].
    pose proof (@step_wellFormed _ _ _ W St) as W2.
    destruct inMatch.
    + destruct (M eq_refl) as [InS CA]. rewrite closingAhead_cons in CA.
      destruct m as [l e st]. unfold inString in InS. cbn in InS.
      destruct l as [|acc|acc|acc ds|n acc|rest w]; try discriminate.
      cbn [replaceFrom]. destruct (isWhiteSpace c) eqn:Wc.
      * destruct (@isWhiteSpace_not_quote _ Wc) as [Q B].
        rewrite step_in_string in St by assumption.
        destruct (c <? 32)%N; [discriminate|]. injection St as <-.
        eapply (IH true); eauto.
      * apply isClosing_cases in CA.
        assert ((c =? 34)%N = false /\ (c =? 92)%N = false) as [Q B]
            by (destruct CA as [ -> | -> ]; split; reflexivity).
        pose proof (@step_shape _ _ c Sh) as SS. rewrite St in SS.
        destruct (step m' c) as [m2'|] eqn:St'; [|contradiction]. cbn in SS.
        cbn [run]. rewrite St'.
        eapply (IH false); eauto. discriminate.
    + cbn [replaceFrom].
      destruct ((c =? comma)%N && closingAhead r) eqn:Match.
      * apply andb_true_iff in Match. destruct Match as [Cm CA].
        apply N.eqb_eq in Cm. unfold comma in Cm. subst c.
        destruct (inString m) eqn:InS.
        -- destruct m as [l e st]. unfold inString in InS. cbn in InS.
           destruct l as [|acc|acc|acc ds|n acc|rest w]; try discriminate.
           rewrite step_in_string in St by reflexivity. cbn in St.
           injection St as <-.
           eapply (IH true); eauto.
        -- destruct (@step_comma_outside_string _ _ W InS St) as (e & st & -> & E).
           rewrite (@run_comma_then_closing _ _ st E CA) in R. discriminate.
      * pose proof (@step_shape _ _ c Sh) as SS. rewrite St in SS.
        destruct (step m' c) as [m2'|] eqn:St'; [|contradiction]. cbn in SS.
        cbn [run]. rewrite St'.
        eapply (IH false); eauto. discriminate.
Qed.

(** The cleanup keeps a valid text valid. *)
Lemma parse_stripTrailingCommas s v :
  parse s = Some v -> exists v', parse (stripTrailingCommas s) = Some v'.
Proof.
  unfold parse, parseFrom, stripTrailingCommas. intros P.
  destruct (run start s) as [m|] eqn:R; [|discriminate].
  destruct (@run_replaceFrom s false start start m eq_refl eq_refl) as (m' & R' & Sh);
    [discriminate|exact R|].
  rewrite R'. eapply finish_shape; eassumption.
Qed.

(** *** White space and trimming *)

Lemma trimStart_space_app w x :
  forallb isWhiteSpace w = true -> trimStart (w ++ x) = trimStart x.
Proof.
  induction w as [|c r IH]; cbn; [reflexivity|].
  intros H. apply andb_true_iff in H. destruct H as [-> H]. now apply IH.
Qed.

Lemma trimStart_solid_app r x :
  solid r = true -> trimStart (r ++ x) = trimStart r ++ x.
Proof.
  unfold solid. induction r as [|c r IH]; cbn; [discriminate|].
  destruct (isWhiteSpace c); cbn; [exact IH|reflexivity].
Qed.

Lemma trimStart_solid r : solid r = true -> trimStart r <> [].
Proof.
  unfold solid. induction r as [|c r IH]; cbn; [discriminate|].
  destruct (isWhiteSpace c); cbn; [exact IH|discriminate].
Qed.

Lemma solid_false w : solid w = false -> forallb isWhiteSpace w = true.
Proof.
  unfold solid. induction w as [|c r IH]; cbn; [reflexivity|].
  destruct (isWhiteSpace c); cbn; [exact IH|discriminate].
Qed.

Lemma solid_app_r a b : solid b = true -> solid (a ++ b) = true.
Proof. unfold solid. intros H. rewrite existsb_app, H. apply orb_true_r. Qed.

Lemma forallb_rev_eq {A} (p : A -> bool) (l : list A) :
  forallb p (rev l) = forallb p l.
Proof.
  induction l as [|x r IH]; cbn; [reflexivity|].
  rewrite forallb_app, IH. cbn. rewrite andb_true_r. apply andb_comm.
Qed.

(** *** The code fence *)

Lemma fence_units : fence = [96; 96; 96]%N.
Proof. reflexivity. Qed.

(** Without a fence there is no code block. *)
Lemma codeBlockMatch_noFence s : noFence s -> codeBlockMatch s = None.
Proof.
  unfold noFence. induction s as [|c r IH]; [reflexivity|].
  cbn [untilFence codeBlockMatch]. unfold startsWith.
  destruct (stripPrefix fence (c :: r)); [discriminate|].
  destruct (untilFence r); [discriminate|]. intros _. now apply IH.
Qed.

Lemma stripPrefix_app_None p l b :
  stripPrefix p (l ++ b) = None -> stripPrefix p l = None.
Proof.
  revert l. induction p as [|x p IH]; intros l; [discriminate|].
  destruct l as [|y l]; [reflexivity|]. cbn [app stripPrefix].
  destruct (x =? y)%N; [apply IH|reflexivity].
Qed.

Lemma noFence_app_l a b : noFence (a ++ b) -> noFence a.
Proof.
  unfold noFence. induction a as [|c r IH]; [reflexivity|].
  cbn [app untilFence]. unfold startsWith.
  destruct (stripPrefix fence (c :: r ++ b)) eqn:P; [discriminate|].
  rewrite (@stripPrefix_app_None fence (c :: r) b P).
  destruct (untilFence (r ++ b)); [discriminate|]. intros _. now rewrite IH.
Qed.

Lemma json_units : units "json" = [106; 115; 111; 110]%N.
Proof. reflexivity. Qed.

(** *** The candidate span *)

Lemma fromFirst_app c x y :
  fromFirst c (x ++ y)
  = match fromFirst c x with
    | Some x' => Some (x' ++ y)
    | None => fromFirst c y
    end.
Proof.
  induction x as [|a r IH]; cbn; [reflexivity|].
  destruct (a =? c)%N; [reflexivity|exact IH].
Qed.

Lemma uptoLast_app c a b :
  uptoLast c (a ++ b)
  = match uptoLast c b with
    | Some b' => Some (a ++ b')
    | None => uptoLast c a
    end.
Proof.
  unfold uptoLast. rewrite rev_app_distr, fromFirst_app.
  destruct (fromFirst c (rev b)) as [x|]; [|reflexivity].
  now rewrite rev_app_distr, rev_involutive.
Qed.

Lemma uptoLast_snoc c a : uptoLast c (a ++ [c]) = Some (a ++ [c]).
Proof.
  unfold uptoLast. rewrite rev_app_distr. cbn. rewrite N.eqb_refl.
  cbn. now rewrite rev_involutive.
Qed.

Lemma jsonMatch_object mid prose :
  jsonMatch ((openBrace :: mid ++ [closeBrace]) ++ prose)
  = Some ((openBrace :: mid ++ [closeBrace]) ++ proseSpan prose).
Proof.
  unfold jsonMatch, proseSpan. cbn [app fromFirst]. rewrite N.eqb_refl.
  rewrite uptoLast_app. destruct (uptoLast closeBrace prose) as [p|].
  - reflexivity.
  - now rewrite uptoLast_snoc, app_nil_r.
Qed.

(** *** The cleanup of a text in two parts *)

Lemma closingAhead_solid_app r x :
  solid r = true -> closingAhead (r ++ x) = closingAhead r.
Proof.
  intros S. unfold closingAhead. rewrite trimStart_solid_app by exact S.
  pose proof (trimStart_solid r S) as NE.
  now destruct (trimStart r).
Qed.

Lemma closingAhead_space_app w x :
  forallb isWhiteSpace w = true -> closingAhead (w ++ x) = closingAhead x.
Proof. intros W. unfold closingAhead. now rewrite trimStart_space_app. Qed.

Lemma noPendingComma_tail c r : noPendingComma (c :: r) -> noPendingComma r.
Proof. intros H a w E. apply (H (c :: a) w). now rewrite E. Qed.

Lemma noPendingComma_head r : noPendingComma (comma :: r) -> solid r = true.
Proof. intros H. now apply (H [] r). Qed.

Lemma noPendingComma_nil : noPendingComma [].
Proof. intros a w E. now destruct a. Qed.

(** A text that ends with something that is neither white space nor a
    comma has no pending comma. *)
Lemma noPendingComma_snoc s c :
  isWhiteSpace c = false -> c <> comma -> noPendingComma (s ++ [c]).
Proof.
  intros W NC a w E.
  destruct (exists_last (l := comma :: w)) as (w' & y & Ew); [discriminate|].
  rewrite Ew in E. rewrite app_assoc in E. apply app_inj_tail in E.
  destruct E as [_ <-].
  destruct w' as [|z w'].
  - cbn in Ew. injection Ew as E1 _. congruence.
  - cbn in Ew. injection Ew as _ ->.
    apply solid_app_r. unfold solid. cbn. now rewrite W.
Qed.

Lemma replaceFrom_app a :
  forall (inMatch : bool) (x : jsString),
    noPendingComma a ->
    (inMatch = true -> solid a = true) ->
    replaceFrom inMatch (a ++ x) = replaceFrom inMatch a ++ replaceFrom false x.
Proof.
  induction a as [|c r IH]; intros inMatch x NP S.
  - destruct inMatch; [|reflexivity]. discriminate (S eq_refl).
  - cbn [app replaceFrom]. destruct inMatch.
    + specialize (S eq_refl). unfold solid in S. cbn [existsb] in S.
      destruct (isWhiteSpace c); cbn [negb orb] in S.
      * apply IH; [eapply noPendingComma_tail; eassumption|auto].
      * cbn [app]. f_equal. apply IH; [eapply noPendingComma_tail; eassumption|discriminate].
    + destruct (N.eqb_spec c comma) as [->|NC]; cbn [andb].
      * pose proof (noPendingComma_head NP) as Sr.
        rewrite closingAhead_solid_app by exact Sr.
        destruct (closingAhead r).
        -- apply IH; [eapply noPendingComma_tail; eassumption|auto].
        -- cbn [app]. f_equal.
           apply IH; [eapply noPendingComma_tail; eassumption|discriminate].
      * cbn [app]. f_equal.
        apply IH; [eapply noPendingComma_tail; eassumption|discriminate].
Qed.

(** White space and a bracket are left alone; after a comma they are the
    rest of a match. *)
Lemma replaceFrom_space_bracket ws br x :
  forallb isJsonSpace ws = true -> isClosing br = true ->
  replaceFrom false (ws ++ br :: x) = ws ++ br :: replaceFrom false x
  /\ replaceFrom true (ws ++ br :: x) = br :: replaceFrom false x
  /\ closingAhead (ws ++ br :: x) = true.
Proof.
  intros W B.
  assert (isWhiteSpace br = false /\ (br =? comma)%N = false) as [Wb Cb].
  { apply isClosing_cases in B. destruct B as [ -> | -> ]; split; reflexivity. }
  induction ws as [|c r IH].
  - cbn [app replaceFrom]. rewrite Wb, Cb. cbn [andb].
    split; [reflexivity|]. split; [reflexivity|].
    rewrite closingAhead_cons, Wb. exact B.
  - cbn [forallb] in W. apply andb_true_iff in W. destruct W as [Wc Wr].
    destruct (IH Wr) as (F & T & A).
    pose proof (isJsonSpace_isWhiteSpace _ Wc) as Ws.
    assert ((c =? comma)%N = false) as Cc.
    { apply isJsonSpace_cases in Wc. destruct Wc as [ -> | [ -> | [ -> | -> ]]]; reflexivity. }
    cbn [app replaceFrom]. rewrite Ws, Cc. cbn [andb].
    rewrite F, T, closingAhead_cons, Ws. auto.
Qed.

(** *** The brace count *)

Lemma braceLoop_closes p :
  forall (d : Z) (i : nat) (rest : jsString),
    closes d p = true -> braceLoop (p ++ rest) d i = Some (i + length p)%nat.
Proof.
  induction p as [|c r IH]; intros d i rest; cbn [closes app braceLoop length];
    [discriminate|].
  destruct (c =? closeBrace)%N.
  - destruct (_ - 1 =? 0)%Z.
    + destruct r; [|discriminate]. intros _. reflexivity.
    + intros C. rewrite (IH _ (i + 1)%nat rest C). f_equal. lia.
  - intros C. rewrite (IH _ (i + 1)%nat rest C). f_equal. lia.
Qed.

Lemma repair_closes p rest : closes 0 p = true -> repair (p ++ rest) = p.
Proof.
  intros C. unfold repair, endIndex. rewrite (braceLoop_closes p 0 0 rest C).
  cbn [Nat.add]. rewrite firstn_app, firstn_all, Nat.sub_diag. cbn. apply app_nil_r.
Qed.

Lemma replaceFrom_true_not_nil r : closingAhead r = true -> replaceFrom true r <> [].
Proof.
  induction r as [|c r IH]; [discriminate|].
  rewrite closingAhead_cons. cbn [replaceFrom].
  destruct (isWhiteSpace c); [exact IH|discriminate].
Qed.

Lemma replaceFrom_false_nil r : replaceFrom false r = [] -> r = [].
Proof.
  destruct r as [|c r]; [reflexivity|]. cbn [replaceFrom].
  destruct ((c =? comma)%N && closingAhead r) eqn:M; [|discriminate].
  apply andb_true_iff in M. destruct M as [_ A].
  intros E. now elim (replaceFrom_true_not_nil r A).
Qed.

Lemma isWhiteSpace_not_brace c :
  isWhiteSpace c = true -> (c =? openBrace)%N = false /\ (c =? closeBrace)%N = false.
Proof.
  intros W. apply isWhiteSpace_cases in W.
  unfold openBrace, closeBrace. split; apply N.eqb_neq; lia.
Qed.

(** The cleanup removes no brace: the depth returns to zero at the last
    code unit of the cleaned text as it does in the text. *)
Lemma closes_replaceFrom p :
  forall (inMatch : bool) (d : Z),
    closes d (replaceFrom inMatch p) = closes d p.
Proof.
  induction p as [|c r IH]; intros inMatch d; [now destruct inMatch|].
  assert (closes d (c :: replaceFrom false r) = closes d (c :: r)) as Keep.
  { cbn [closes]. rewrite !IH.
    destruct (replaceFrom false r) eqn:E, r; try reflexivity.
    - apply replaceFrom_false_nil in E. discriminate.
    - discriminate. }
  cbn [replaceFrom]. destruct inMatch.
  - destruct (isWhiteSpace c) eqn:W; [|exact Keep].
    destruct (isWhiteSpace_not_brace _ W) as [O C].
    cbn [closes]. rewrite O, C. apply IH.
  - destruct (N.eqb_spec c comma) as [->|NC]; cbn [andb]; [|exact Keep].
    destruct (closingAhead r); [|exact Keep].
    cbn [closes]. change (comma =? openBrace)%N with false.
    change (comma =? closeBrace)%N with false. apply IH.
Qed.

Lemma replaceFrom_keeps_braces s :
  forall inMatch,
    existsb (fun c => (c =? closeBrace)%N) (replaceFrom inMatch s)
    = existsb (fun c => (c =? closeBrace)%N) s.
Proof.
  induction s as [|c r IH]; intros inMatch; [now destruct inMatch|].
  cbn [replaceFrom]. destruct inMatch.
  - destruct (isWhiteSpace c) eqn:W.
    + destruct (isWhiteSpace_not_brace _ W) as [_ C].
      cbn [existsb]. rewrite C. apply IH.
    + cbn [existsb]. now rewrite IH.
  - destruct (N.eqb_spec c comma) as [->|NC]; cbn [andb].
    + destruct (closingAhead r); cbn [existsb]; now rewrite IH.
    + cbn [existsb]. now rewrite IH.
Qed.

Lemma run_space_in_string w :
  forall m m', inString m = true -> forallb isWhiteSpace w = true ->
               run m w = Some m' -> inString m' = true.
Proof.
  induction w as [|c r IH]; intros m m' S W; cbn [run].
  - now intros [= <-].
  - cbn [forallb] in W. apply andb_true_iff in W. destruct W as [Wc Wr].
    destruct m as [l e st]. unfold inString in S. cbn in S.
    destruct l as [|acc|acc|acc ds|n acc|rest v]; try discriminate.
    destruct (@isWhiteSpace_not_quote c Wc) as [Q B].
    rewrite step_in_string by assumption.
    destruct (c <? 32)%N; [discriminate|]. now apply IH.
Qed.

(** Before a closing bracket that the parser accepts between tokens, no
    comma is pending. *)
Lemma noPendingComma_of_run a x m m' :
  run start a = Some m -> betweenTokens m = true ->
  closingAhead x = true -> run m x = Some m' ->
  noPendingComma a.
Proof.
  intros R B CA Rx a0 w E.
  destruct (solid w) eqn:S; [reflexivity|exfalso].
  apply solid_false in S.
  subst a. rewrite run_app in R.
  destruct (run start a0) as [m0|] eqn:R0; [|discriminate].
  pose proof (@run_wellFormed a0 start m0 eq_refl R0) as W0.
  cbn [run] in R. destruct (step m0 comma) as [m2|] eqn:St; [|discriminate].
  destruct (inString m0) eqn:InS.
  - assert (inString m2 = true) as InS2.
    { destruct m0 as [l e st]. unfold inString in InS. cbn in InS.
      destruct l as [|acc|acc|acc ds|n acc|rest v]; try discriminate.
      unfold comma in St. rewrite step_in_string in St by reflexivity.
      cbn in St. now injection St as <-. }
    pose proof (@run_space_in_string w m2 m InS2 S R) as InSm.
    unfold inString in InSm. unfold betweenTokens in B.
    destruct (lexer m); discriminate.
  - destruct (@step_comma_outside_string m0 m2 W0 InS St) as (e & st & -> & Ev).
    assert (run {| lexer := LIdle; expected := e; stack := st |} (w ++ x) = None) as N.
    { apply run_comma_then_closing; [exact Ev|].
      now rewrite closingAhead_space_app. }
    rewrite run_app, R, Rx in N. discriminate.
Qed.

Lemma replaceFrom_last s c :
  isWhiteSpace c = false -> c <> comma ->
  forall inMatch, exists s', replaceFrom inMatch (s ++ [c]) = s' ++ [c].
Proof.
  intros W NC. apply N.eqb_neq in NC.
  induction s as [|x r IH]; intros inMatch.
  - exists []. cbn. rewrite W, NC. now destruct inMatch.
  - cbn [app replaceFrom]. destruct inMatch.
    + destruct (isWhiteSpace x); [apply IH|].
      destruct (IH false) as (s' & ->). now exists (x :: s').
    + destruct ((x =? comma)%N && closingAhead (r ++ [c])); [apply IH|].
      destruct (IH false) as (s' & ->). now exists (x :: s').
Qed.

Lemma uptoLast_has c s p :
  uptoLast c s = Some p -> existsb (fun x => (x =? c)%N) p = true.
Proof.
  unfold uptoLast. destruct (fromFirst c (rev s)) as [r|] eqn:F; [|discriminate].
  intros [= <-].
  assert (exists t, r = c :: t) as (t & ->).
  { clear - F. induction (rev s) as [|x l IH]; [discriminate|]. cbn in F.
    destruct (N.eqb_spec x c) as [->|]; [injection F as <-; eauto|auto]. }
  cbn [rev]. rewrite existsb_app. cbn. rewrite N.eqb_refl. now rewrite orb_true_r.
Qed.

Lemma closeBrace_not_space q :
  existsb (fun c => (c =? closeBrace)%N) q = true ->
  existsb (fun c => negb (isJsonSpace c)) q = true.
Proof.
  induction q as [|c r IH]; cbn; [discriminate|].
  destruct (N.eqb_spec c closeBrace) as [->|]; cbn; [reflexivity|].
  intros H. rewrite (IH H). apply orb_true_r.
Qed.

(** The text of an object alone goes through the first steps unchanged
    but for the cleanup. *)
Lemma cleanAIResponse_object mid :
  noFence (openBrace :: mid ++ [closeBrace]) ->
  cleanAIResponse (openBrace :: mid ++ [closeBrace])
  = Ok (stripTrailingCommas (openBrace :: mid ++ [closeBrace])).
Proof.
  intros NF. unfold cleanAIResponse. rewrite codeBlockMatch_noFence by exact NF.
  pose proof (jsonMatch_object mid []) as M. unfold proseSpan in M.
  cbn [uptoLast rev fromFirst] in M. rewrite !app_nil_r in M. now rewrite M.
Qed.

Section Repair.

Variables (mid prose : jsString) (v : value).

Let J : jsString := openBrace :: mid ++ [closeBrace].

Hypothesis NoFence : noFence (J ++ prose).
Hypothesis Closes : closes 0 J = true.
Hypothesis Valid : parse J = Some v.

Lemma repair_cleaned :
  exists cleaned v',
    cleanAIResponse (J ++ prose) = Ok cleaned
    /\ repair cleaned = stripTrailingCommas J
    /\ parse (stripTrailingCommas J) = Some v'
    /\ parseWithRepair cleaned = Ok v'.
Proof.
  destruct (@parse_stripTrailingCommas J v Valid) as (v' & P').
  exists (stripTrailingCommas J ++ stripTrailingCommas (proseSpan prose)), v'.
  assert (repair (stripTrailingCommas J ++ stripTrailingCommas (proseSpan prose))
          = stripTrailingCommas J) as Rp.
  { apply repair_closes. unfold stripTrailingCommas. now rewrite closes_replaceFrom. }
  split; [|split; [exact Rp|split; [exact P'|]]].
  - unfold cleanAIResponse. rewrite codeBlockMatch_noFence by exact NoFence.
    unfold J. rewrite jsonMatch_object. f_equal. unfold stripTrailingCommas.
    apply replaceFrom_app; [|discriminate].
    change (openBrace :: mid ++ [closeBrace]) with ((openBrace :: mid) ++ [closeBrace]).
    apply noPendingComma_snoc; [reflexivity|discriminate].
  - unfold parseWithRepair. rewrite Rp, P'.
    unfold proseSpan. destruct (uptoLast closeBrace prose) as [p|] eqn:U.
    + destruct (@replaceFrom_last (openBrace :: mid) closeBrace eq_refl
                  ltac:(discriminate) false) as (s' & Es).
      change ((openBrace :: mid) ++ [closeBrace]) with J in Es.
      unfold stripTrailingCommas in *. rewrite Es in P' |- *.
      pose proof (@parse_then_garbage s' (replaceFrom false p) v') as G.
      change [125%N] with [closeBrace] in G. rewrite G; [reflexivity|exact P'|].
      apply closeBrace_not_space. rewrite replaceFrom_keeps_braces.
      eapply uptoLast_has; eassumption.
    + change (stripTrailingCommas []) with (@nil N). rewrite app_nil_r. now rewrite P'.
Qed.

Lemma repair_same_result :
  parseAiPlaylistResponse (J ++ prose) = parseAiPlaylistResponse J.
Proof.
  destruct repair_cleaned as (cleaned & v' & C & _ & P' & PW).
  unfold parseAiPlaylistResponse. rewrite C, PW.
  unfold J. rewrite cleanAIResponse_object by (eapply noFence_app_l; exact NoFence).
  unfold parseWithRepair. fold J. now rewrite P'.
Qed.

End Repair.

(** No fence begins in [x], even when backticks follow [x]. *)
Lemma noFence_tail c r : noFence (c :: r) -> noFence r.
Proof.
  unfold noFence. cbn [untilFence]. destruct (startsWith fence (c :: r)); [discriminate|].
  now destruct (untilFence r).
Qed.

Lemma noFence_head c r : noFence (c :: r) -> stripPrefix fence (c :: r) = None.
Proof.
  unfold noFence. cbn [untilFence]. unfold startsWith.
  now destruct (stripPrefix fence (c :: r)).
Qed.

Lemma noFence_app_r a b : noFence (a ++ b) -> noFence b.
Proof.
  induction a as [|c r IH]; [auto|]. intros H. apply IH. eapply noFence_tail. exact H.
Qed.

(** Dropping a code unit that stands before one that is not a backtick
    creates no fence. *)
Lemma noFence_remove x c d y :
  (d =? 96)%N = false -> noFence (x ++ c :: d :: y) -> noFence (x ++ d :: y).
Proof.
  intros D. induction x as [|e x IH]; [apply noFence_tail|].
  intros F. pose proof (noFence_head F) as H. pose proof (IH (noFence_tail F)) as T.
  unfold noFence in *. cbn [app untilFence]. unfold startsWith.
  assert (stripPrefix fence (e :: x ++ d :: y) = None) as ->.
  { revert H. rewrite fence_units. rewrite N.eqb_sym in D.
    destruct x as [|f [|g x]]; cbn [app stripPrefix]; rewrite ?D;
      repeat (match goal with
              | |- context [(?a =? ?b)%N] => destruct (a =? b)%N
              end); intros P; try reflexivity; discriminate P. }
  cbn [app] in T. now rewrite T.
Qed.

Lemma fenceFree_without_comma L a ws br b R :
  forallb isJsonSpace ws = true -> isClosing br = true ->
  fenceFree (L ++ (a ++ comma :: ws ++ br :: b) ++ R) ->
  fenceFree (L ++ (a ++ ws ++ br :: b) ++ R).
Proof.
  intros Space Closing. unfold fenceFree.
  replace ((L ++ (a ++ comma :: ws ++ br :: b) ++ R) ++ [96; 96]%N)
    with ((L ++ a) ++ comma :: ws ++ br :: b ++ R ++ [96; 96]%N)
    by (rewrite <- ?app_assoc; cbn [app]; now rewrite <- ?app_assoc).
  replace ((L ++ (a ++ ws ++ br :: b) ++ R) ++ [96; 96]%N)
    with ((L ++ a) ++ ws ++ br :: b ++ R ++ [96; 96]%N)
    by (rewrite <- ?app_assoc; cbn [app]; now rewrite <- ?app_assoc).
  destruct ws as [|w ws]; cbn [app].
  - apply noFence_remove.
    destruct (br =? 96)%N eqn:E; [|reflexivity].
    apply N.eqb_eq in E. subst br. discriminate Closing.
  - apply noFence_remove.
    cbn [forallb] in Space. apply andb_prop in Space as (W & _).
    destruct (w =? 96)%N eqn:E; [|reflexivity].
    apply N.eqb_eq in E. subst w. discriminate W.
Qed.

Lemma stripPrefix_fence_more c r t :
  stripPrefix fence (c :: r ++ [96; 96]%N) = None ->
  stripPrefix fence (c :: r ++ 96%N :: 96%N :: t) = None.
Proof.
  rewrite fence_units.
  destruct r as [|x [|y r]]; cbn [app stripPrefix];
    repeat (match goal with
            | |- context [(?a =? ?b)%N] => destruct (a =? b)%N
            end); intros P; try reflexivity; discriminate P.
Qed.

Lemma untilFence_fenceFree x post :
  fenceFree x -> untilFence (x ++ fence ++ post) = Some x.
Proof.
  unfold fenceFree. induction x as [|c r IH]; intros F; [reflexivity|].
  cbn [app untilFence]. unfold startsWith.
  pose proof (noFence_head F) as H. cbn [app] in H.
  change (fence ++ post) with (96 :: 96 :: 96 :: post)%N.
  rewrite (@stripPrefix_fence_more c r (96%N :: post) H).
  change (96 :: 96 :: 96 :: post)%N with (fence ++ post).
  now rewrite (IH (noFence_tail F)).
Qed.

Lemma codeBlockMatch_first pre inner post :
  fenceFree pre ->
  untilFence (afterOpening (inner ++ fence ++ post)) = Some (afterOpening inner) ->
  codeBlockMatch (pre ++ fence ++ inner ++ fence ++ post) = Some (afterOpening inner).
Proof.
  unfold fenceFree. intros F U. induction pre as [|c r IH].
  - cbn [app].
    assert (forall x, codeBlockMatch (fence ++ x)
                      = match untilFence (afterOpening x) with
                        | Some inner => Some inner
                        | None => codeBlockMatch ([96; 96]%N ++ x)
                        end) as Unf by reflexivity.
    now rewrite Unf, U.
  - cbn [app codeBlockMatch].
    pose proof (noFence_head F) as H. cbn [app] in H.
    change (fence ++ inner ++ fence ++ post)
      with (96 :: 96 :: 96 :: inner ++ fence ++ post)%N.
    rewrite (@stripPrefix_fence_more c r (96%N :: inner ++ fence ++ post) H).
    apply IH. eapply noFence_tail. exact F.
Qed.

Lemma stripPrefix_json_app L x rest :
  x = 123%N :: rest ->
  stripPrefix (units "json") (L ++ x)
  = match stripPrefix (units "json") L with
    | Some r => Some (r ++ x)
    | None => None
    end.
Proof.
  intros ->. rewrite json_units.
  destruct L as [|l0 [|l1 [|l2 [|l3 L]]]]; cbn [app stripPrefix];
    change (106 =? 123)%N with false; change (115 =? 123)%N with false;
    change (111 =? 123)%N with false; change (110 =? 123)%N with false;
    repeat (match goal with
            | |- context [(?a =? ?b)%N] => destruct (a =? b)%N
            end); reflexivity.
Qed.

Lemma trimStart_app_solid u c w :
  isWhiteSpace c = false -> trimStart (u ++ c :: w) = trimStart u ++ c :: w.
Proof.
  intros W. induction u as [|x r IH]; cbn [app trimStart]; [now rewrite W|].
  now destruct (isWhiteSpace x).
Qed.

(** What [(?:json)?\s*] consumes does not reach an opening brace. *)
Lemma afterOpening_app L x rest :
  x = 123%N :: rest -> afterOpening (L ++ x) = afterOpening L ++ x.
Proof.
  intros E. unfold afterOpening. rewrite (stripPrefix_json_app L E). subst x.
  destruct (stripPrefix (units "json") L); now rewrite trimStart_app_solid.
Qed.

Lemma trimStart_idempotent s : trimStart (trimStart s) = trimStart s.
Proof.
  induction s as [|c r IH]; [reflexivity|]. cbn [trimStart].
  destruct (isWhiteSpace c) eqn:W; [exact IH|]. cbn [trimStart]. now rewrite W.
Qed.

Lemma trimEnd_app_solid y c R :
  isWhiteSpace c = false -> trimEnd (y ++ c :: R) = y ++ c :: trimEnd R.
Proof.
  intros W. unfold trimEnd.
  replace (y ++ c :: R) with ((y ++ [c]) ++ R) by now rewrite <- app_assoc.
  rewrite rev_app_distr, rev_app_distr. cbn [rev app].
  rewrite trimStart_app_solid by exact W.
  rewrite rev_app_distr. cbn [rev]. rewrite <- app_assoc. cbn [app].
  now rewrite rev_involutive.
Qed.

Lemma lacks_trimStart c s : lacks c s = true -> lacks c (trimStart s) = true.
Proof.
  unfold lacks. induction s as [|x r IH]; [reflexivity|]. cbn [trimStart forallb].
  intros H. apply andb_true_iff in H. destruct H as [Hx Hr].
  destruct (isWhiteSpace x); [now apply IH|]. cbn [forallb]. now rewrite Hx, Hr.
Qed.

Lemma lacks_trimEnd c s : lacks c s = true -> lacks c (trimEnd s) = true.
Proof.
  unfold trimEnd, lacks. intros H. rewrite forallb_rev_eq.
  apply lacks_trimStart. unfold lacks. now rewrite forallb_rev_eq.
Qed.

Lemma lacks_afterOpening c L : lacks c L = true -> lacks c (afterOpening L) = true.
Proof.
  unfold afterOpening. intros H. apply lacks_trimStart.
  destruct (stripPrefix (units "json") L) as [r|] eqn:P; [|exact H].
  rewrite json_units in P.
  destruct L as [|l0 [|l1 [|l2 [|l3 L]]]]; cbn [stripPrefix] in P; try discriminate P.
  all: revert P;
    repeat (match goal with
            | |- context [(?a =? ?b)%N] => destruct (a =? b)%N
            end); intros P; try discriminate P.
  injection P as <-. unfold lacks in *. cbn [forallb] in H.
  repeat (apply andb_true_iff in H; destruct H as [_ H]). exact H.
Qed.

Lemma fromFirst_lacks c L x rest :
  lacks c L = true -> x = c :: rest -> fromFirst c (L ++ x) = Some x.
Proof.
  unfold lacks. intros H ->. induction L as [|y r IH]; cbn [app fromFirst].
  - now rewrite N.eqb_refl.
  - cbn [forallb] in H. apply andb_true_iff in H. destruct H as [Hy Hr].
    apply negb_true_iff in Hy. rewrite Hy. now apply IH.
Qed.

Lemma uptoLast_lacks c R : lacks c R = true -> uptoLast c R = None.
Proof.
  unfold uptoLast, lacks. intros H. rewrite <- forallb_rev_eq in H.
  induction (rev R) as [|y r IH]; [reflexivity|]. cbn [fromFirst].
  cbn [forallb] in H. apply andb_true_iff in H. destruct H as [Hy Hr].
  apply negb_true_iff in Hy. rewrite Hy. now apply IH.
Qed.

(** The candidate span of a content that holds one object. *)
Lemma jsonMatch_inside L mid R :
  lacks openBrace L = true -> lacks closeBrace R = true ->
  jsonMatch (L ++ (openBrace :: mid ++ [closeBrace]) ++ R)
  = Some (openBrace :: mid ++ [closeBrace]).
Proof.
  intros HL HR. unfold jsonMatch.
  rewrite (@fromFirst_lacks openBrace L ((openBrace :: mid ++ [closeBrace]) ++ R)
             ((mid ++ [closeBrace]) ++ R) HL eq_refl).
  cbn [app]. rewrite uptoLast_app, (@uptoLast_lacks _ _ HR), uptoLast_snoc. reflexivity.
Qed.

Lemma noFence_trimStart s y : noFence (s ++ y) -> noFence (trimStart s ++ y).
Proof.
  induction s as [|c r IH]; [auto|]. cbn [trimStart app].
  destruct (isWhiteSpace c); [|auto]. intros H. apply IH. eapply noFence_tail. exact H.
Qed.

(** When no fence follows what [(?:json)?\s*] consumes greedily, none
    follows what it consumes after giving code units back. *)
Lemma afterOpening_backtracking s :
  untilFence (afterOpening s) = None ->
  forall given rest, s = given ++ rest -> untilFence rest = None.
Proof.
  intros U given rest ->. fold (noFence rest). apply (@noFence_app_r given).
  revert U. fold (noFence (afterOpening (given ++ rest))). unfold afterOpening.
  generalize (given ++ rest). clear given rest. intros s U.
  assert (forall x, noFence (trimStart x) -> noFence x) as T.
  { induction x as [|c r IH]; [auto|]. cbn [trimStart].
    destruct (isWhiteSpace c) eqn:W; [|auto]. intros H. specialize (IH H).
    unfold noFence in *. cbn [untilFence]. rewrite IH. unfold startsWith.
    rewrite fence_units. cbn [stripPrefix].
    destruct (96 =? c)%N eqn:E; [|reflexivity].
    apply N.eqb_eq in E. subst c. discriminate W. }
  apply T in U. destruct (stripPrefix (units "json") s) as [r|] eqn:P; [|exact U].
  rewrite json_units in P.
  destruct s as [|l0 [|l1 [|l2 [|l3 s]]]]; cbn [stripPrefix] in P; try discriminate P.
  all: revert P;
    repeat (match goal with
            | |- context [(?a =? ?b)%N] => destruct (a =? b)%N eqn:?
            end); intros P; try discriminate P.
  repeat (match goal with
          | E : (_ =? _)%N = true |- _ => apply N.eqb_eq in E
          end).
  injection P as <-. subst. unfold noFence in *.
  cbn [untilFence]. unfold startsWith. rewrite fence_units. cbn [stripPrefix N.eqb Pos.eqb].
  now rewrite U.
Qed.

Lemma stripPrefix_json_split L r :
  stripPrefix (units "json") L = Some r -> exists p, L = p ++ r.
Proof.
  rewrite json_units. intros P.
  destruct L as [|l0 [|l1 [|l2 [|l3 L]]]]; cbn [stripPrefix] in P; try discriminate P.
  all: revert P;
    repeat (match goal with
            | |- context [(?a =? ?b)%N] => destruct (a =? b)%N
            end); intros P; try discriminate P.
  injection P as <-. now exists [l0; l1; l2; l3].
Qed.

(** The first steps on a fenced block that holds one object: after the
    fence, a language tag or other text without an opening brace; after
    the object, text without a closing brace. *)
Lemma cleanAIResponse_fenced pre L mid R post :
  fenceFree pre ->
  fenceFree (L ++ (openBrace :: mid ++ [closeBrace]) ++ R) ->
  lacks openBrace L = true -> lacks closeBrace R = true ->
  cleanAIResponse (pre ++ fence ++ (L ++ (openBrace :: mid ++ [closeBrace]) ++ R)
                       ++ fence ++ post)
  = Ok (stripTrailingCommas (openBrace :: mid ++ [closeBrace])).
Proof.
  intros Fp Fi HL HR. unfold cleanAIResponse.
  set (J := openBrace :: mid ++ [closeBrace]) in *.
  assert (forall y, afterOpening (L ++ J ++ y) = afterOpening L ++ J ++ y) as AO.
  { intros y. apply (@afterOpening_app L (J ++ y) ((mid ++ [closeBrace]) ++ y)).
    reflexivity. }
  assert (afterOpening ((L ++ J ++ R) ++ fence ++ post)
          = (afterOpening L ++ J ++ R) ++ fence ++ post) as A1.
  { rewrite <- !app_assoc. now rewrite AO. }
  assert (afterOpening (L ++ J ++ R) = afterOpening L ++ J ++ R) as A2 by apply AO.
  assert (fenceFree (afterOpening L ++ J ++ R)) as F2.
  { unfold fenceFree in *. rewrite <- !app_assoc in *. unfold afterOpening.
    apply noFence_trimStart.
    destruct (stripPrefix (units "json") L) as [r|] eqn:P; [|exact Fi].
    destruct (stripPrefix_json_split _ P) as (p & ->).
    rewrite <- app_assoc in Fi. eapply noFence_app_r. exact Fi. }
  rewrite (@codeBlockMatch_first pre (L ++ J ++ R) post Fp);
    [|rewrite A1, A2; now apply untilFence_fenceFree].
  rewrite A2. unfold trim.
  assert (trimStart (afterOpening L ++ J ++ R) = afterOpening L ++ J ++ R) as T1.
  { unfold J. cbn [app]. rewrite trimStart_app_solid by reflexivity.
    unfold afterOpening. now rewrite trimStart_idempotent. }
  rewrite T1.
  assert (trimEnd (afterOpening L ++ J ++ R) = afterOpening L ++ J ++ trimEnd R) as T2.
  { unfold J.
    replace (afterOpening L ++ (openBrace :: mid ++ [closeBrace]) ++ R)
      with ((afterOpening L ++ openBrace :: mid) ++ closeBrace :: R)
      by (rewrite <- !app_assoc; cbn [app]; now rewrite <- app_assoc).
    rewrite trimEnd_app_solid by reflexivity.
    rewrite <- !app_assoc. cbn [app]. now rewrite <- app_assoc. }
  rewrite T2. subst J.
  now rewrite (@jsonMatch_inside (afterOpening L) mid (trimEnd R)
                 (@lacks_afterOpening _ _ HL) (@lacks_trimEnd _ _ HR)).
Qed.

(** *** The brace count, piece by piece *)

Lemma braceLoop_shift s :
  forall (d : Z) (i : nat),
    braceLoop s d i = option_map (fun e => (e + i)%nat) (braceLoop s d 0).
Proof.
  induction s as [|c r IH]; intros d i; cbn [braceLoop]; [reflexivity|].
  destruct (c =? closeBrace)%N.
  - destruct (_ - 1 =? 0)%Z; [cbn [option_map]; f_equal; lia|].
    rewrite (IH _ (i + 1)%nat), (IH _ (0 + 1)%nat).
    destruct (braceLoop r _ 0); cbn [option_map]; [f_equal; lia|reflexivity].
  - rewrite (IH _ (i + 1)%nat), (IH _ (0 + 1)%nat).
    destruct (braceLoop r _ 0); cbn [option_map]; [f_equal; lia|reflexivity].
Qed.

Lemma repair_keptFrom s : repair s = keptFrom 0 s.
Proof.
  unfold repair, endIndex, keptFrom.
  destruct (braceLoop s 0 0); [reflexivity|apply firstn_all].
Qed.

Lemma keptFrom_cons d c s :
  keptFrom d (c :: s)
  = if (c =? closeBrace)%N
    then if ((if (c =? openBrace)%N then d + 1 else d) - 1 =? 0)%Z then [c]
         else c :: keptFrom ((if (c =? openBrace)%N then d + 1 else d) - 1) s
    else c :: keptFrom (if (c =? openBrace)%N then d + 1 else d)%Z s.
Proof.
  unfold keptFrom. cbn [braceLoop].
  destruct (c =? closeBrace)%N.
  - destruct (_ - 1 =? 0)%Z; [reflexivity|].
    rewrite braceLoop_shift. destruct (braceLoop s _ 0); cbn [option_map]; [|reflexivity].
    now rewrite Nat.add_1_r.
  - rewrite braceLoop_shift. destruct (braceLoop s _ 0); cbn [option_map]; [|reflexivity].
    now rewrite Nat.add_1_r.
Qed.

(** Either the loop breaks inside [x], or it reads all of [x] and goes on
    with some depth. *)
Lemma keptFrom_prefix x :
  forall d : Z,
    (exists p, forall y, keptFrom d (x ++ y) = p)
    \/ (exists d', forall y, keptFrom d (x ++ y) = x ++ keptFrom d' y).
Proof.
  induction x as [|c r IH]; intros d.
  - right. now exists d.
  - destruct (c =? closeBrace)%N eqn:C.
    + destruct ((if (c =? openBrace)%N then d + 1 else d) - 1 =? 0)%Z eqn:Z0.
      * left. exists [c]. intros y. cbn [app]. now rewrite keptFrom_cons, C, Z0.
      * destruct (IH ((if (c =? openBrace)%N then d + 1 else d) - 1)%Z)
          as [(p & P)|(d' & P)].
        -- left. exists (c :: p). intros y. cbn [app].
           now rewrite keptFrom_cons, C, Z0, P.
        -- right. exists d'. intros y. cbn [app].
           now rewrite keptFrom_cons, C, Z0, P.
    + destruct (IH (if (c =? openBrace)%N then d + 1 else d)%Z) as [(p & P)|(d' & P)].
      * left. exists (c :: p). intros y. cbn [app]. now rewrite keptFrom_cons, C, P.
      * right. exists d'. intros y. cbn [app]. now rewrite keptFrom_cons, C, P.
Qed.

Lemma keptFrom_space ws d y :
  forallb isJsonSpace ws = true -> keptFrom d (ws ++ y) = ws ++ keptFrom d y.
Proof.
  induction ws as [|c r IH]; [reflexivity|]. cbn [forallb app].
  intros W. apply andb_true_iff in W. destruct W as [Wc Wr].
  destruct (isWhiteSpace_not_brace _ (isJsonSpace_isWhiteSpace _ Wc)) as [O C].
  rewrite keptFrom_cons, C, O. now rewrite IH.
Qed.

Lemma keptFrom_head d c s : exists t, keptFrom d (c :: s) = c :: t.
Proof.
  rewrite keptFrom_cons.
  destruct (c =? closeBrace)%N; [destruct (_ - 1 =? 0)%Z|]; eauto.
Qed.

(** *** White space before a closing bracket *)

Lemma parse_skip_space A ws br q :
  atTokenBoundary A = true ->
  forallb isJsonSpace ws = true ->
  isClosing br = true ->
  parse (A ++ ws ++ br :: q) = parse (A ++ br :: q).
Proof.
  unfold atTokenBoundary, parse. intros B W C. rewrite !parseFrom_app.
  destruct (run start A) as [m|]; [|discriminate]. unfold parseFrom.
  rewrite run_skip_space; [reflexivity|exact B|exact W|].
  now apply isClosing_cases.
Qed.

(** The two parse attempts do not see white space before a closing
    bracket, whether the text is accepted, repaired or rejected. *)
Lemma parseWithRepair_skip_space A ws br q :
  atTokenBoundary A = true ->
  forallb isJsonSpace ws = true ->
  isClosing br = true ->
  parseWithRepair (A ++ ws ++ br :: q) = parseWithRepair (A ++ br :: q).
Proof.
  intros B W C. unfold parseWithRepair.
  rewrite (@parse_skip_space A ws br q B W C).
  destruct (parse (A ++ br :: q)); [reflexivity|].
  rewrite !repair_keptFrom.
  destruct (keptFrom_prefix A 0) as [(p & K)|(d' & K)].
  - now rewrite !K.
  - rewrite !K, keptFrom_space by exact W.
    destruct (keptFrom_head d' br q) as (t & ->).
    now rewrite (@parse_skip_space A ws br t B W C).
Qed.

(** *** Commas before the trailing comma *)

Lemma solid_forallb w : solid w = negb (forallb isWhiteSpace w).
Proof.
  unfold solid. induction w as [|c r IH]; [reflexivity|]. cbn [existsb forallb].
  rewrite IH. now destruct (isWhiteSpace c).
Qed.

Lemma trimStart_split s :
  exists w, s = w ++ trimStart s /\ forallb isWhiteSpace w = true.
Proof.
  induction s as [|c r IH]; [now exists []|]. cbn [trimStart].
  destruct (isWhiteSpace c) eqn:W; [|now exists []].
  destruct IH as (w & E & F). exists (c :: w). cbn [app forallb].
  rewrite W, F. split; [now rewrite <- E|reflexivity].
Qed.

Lemma noPendingComma_endsWithComma a :
  noPendingComma a <-> endsWithComma a = false.
Proof.
  unfold endsWithComma. split.
  - intros NP. destruct (trimStart (rev a)) as [|c x] eqn:T; [reflexivity|].
    destruct (N.eqb_spec c comma) as [->|]; [exfalso|reflexivity].
    destruct (trimStart_split (rev a)) as (w & E & W). rewrite T in E.
    assert (a = rev x ++ comma :: rev w) as Ea.
    { rewrite <- (rev_involutive a), E, rev_app_distr. cbn [rev].
      now rewrite <- app_assoc. }
    pose proof (NP _ _ Ea) as S.
    rewrite solid_forallb, forallb_rev_eq, W in S. discriminate S.
  - intros E a0 w ->. destruct (solid w) eqn:S; [reflexivity|exfalso].
    apply solid_false in S.
    rewrite rev_app_distr in E. cbn [rev] in E. rewrite <- app_assoc in E.
    rewrite trimStart_space_app in E by now rewrite forallb_rev_eq.
    cbn in E. discriminate E.
Qed.

Lemma cleaned_with_comma a ws br b :
  noPendingComma a ->
  forallb isJsonSpace ws = true ->
  isClosing br = true ->
  stripTrailingCommas (a ++ comma :: ws ++ br :: b)
  = stripTrailingCommas a ++ br :: stripTrailingCommas b
  /\ stripTrailingCommas (a ++ ws ++ br :: b)
     = stripTrailingCommas a ++ ws ++ br :: stripTrailingCommas b.
Proof.
  intros NP Space Closing.
  destruct (@replaceFrom_space_bracket ws br b Space Closing) as (F & T & A).
  unfold stripTrailingCommas. split.
  - rewrite replaceFrom_app by (exact NP || discriminate).
    f_equal. cbn [replaceFrom]. rewrite N.eqb_refl, A. cbn [andb]. exact T.
  - rewrite replaceFrom_app by (exact NP || discriminate).
    f_equal. exact F.
Qed.

Lemma object_shape a' b0 br b (x : jsString) :
  br :: b = b0 ++ [closeBrace] ->
  (openBrace :: a') ++ x ++ br :: b = openBrace :: (a' ++ x ++ b0) ++ [closeBrace].
Proof. intros Last. cbn [app]. f_equal. rewrite Last, <- !app_assoc. reflexivity. Qed.

(** A trailing comma added to a valid text, between two tokens: no comma
    stands before it, and the cleaned text before it ends between two
    tokens. *)
Lemma trailing_comma_of_valid_text a ws br b v :
  forallb isJsonSpace ws = true ->
  isClosing br = true ->
  parse (a ++ ws ++ br :: b) = Some v ->
  atTokenBoundary a = true ->
  endsWithComma a = false
  /\ atTokenBoundary (stripTrailingCommas a) = true
  /\ exists v',
       parse (stripTrailingCommas (a ++ ws ++ br :: b)) = Some v'
       /\ parse (stripTrailingCommas (a ++ comma :: ws ++ br :: b)) = Some v'.
Proof.
  intros Space Closing Valid Between.
  destruct (@replaceFrom_space_bracket ws br b Space Closing) as (_ & _ & A).
  assert (noPendingComma a) as NP.
  { unfold atTokenBoundary in Between.
    destruct (run start a) as [m|] eqn:R; [|discriminate].
    unfold parse, parseFrom in Valid. rewrite run_app, R in Valid.
    destruct (run m (ws ++ br :: b)) as [m'|] eqn:Rx; [|discriminate].
    exact (@noPendingComma_of_run a (ws ++ br :: b) m m' R Between A Rx). }
  assert (atTokenBoundary (stripTrailingCommas a) = true) as B'.
  { unfold atTokenBoundary in *.
    destruct (run start a) as [m|] eqn:R; [|discriminate].
    destruct (@run_replaceFrom a false start start m eq_refl eq_refl) as (m' & R' & Sh);
      [discriminate|exact R|].
    unfold stripTrailingCommas. rewrite R'.
    now rewrite <- (@shape_betweenTokens _ _ Sh). }
  split; [now apply noPendingComma_endsWithComma|]. split; [exact B'|].
  destruct (@parse_stripTrailingCommas _ _ Valid) as (v' & P').
  exists v'. split; [exact P'|].
  destruct (@cleaned_with_comma a ws br b NP Space Closing) as (C & C').
  rewrite C. rewrite C' in P'.
  now rewrite <- (@parse_skip_space _ ws br _ B' Space Closing).
Qed.

(** C5. A fenced block holds an object with a trailing comma: a comma
    followed by white space and a closing brace or bracket, which stands
    between two tokens of the cleaned text and not behind another comma
    (so it is not part of a string literal or of a run of commas; the
    rest of the object may have further trailing commas or other
    defects).  The extractor returns for this text what it returns for
    the same text without the comma: the two cleaned texts have the same
    parse and the same outcome of the two parse attempts, with and
    without the validation of the songs.  ([L] is what stands between
    the opening fence and the object, such as the language tag; [R] is
    what stands between the object and the closing fence.) *)
Theorem trailing_comma_is_ignored
        (pre L a' ws b0 R post : jsString) (br : N) (b : jsString) :
  let a := openBrace :: a' in
  let withComma := a ++ comma :: ws ++ br :: b in
  let without := a ++ ws ++ br :: b in
  let textWith := pre ++ fence ++ (L ++ withComma ++ R) ++ fence ++ post in
  let textWithout := pre ++ fence ++ (L ++ without ++ R) ++ fence ++ post in
  fenceFree pre ->
  fenceFree (L ++ withComma ++ R) ->
  lacks openBrace L = true ->
  lacks closeBrace R = true ->
  br :: b = b0 ++ [closeBrace] ->
  forallb isJsonSpace ws = true ->
  isClosing br = true ->
  endsWithComma a = false ->
  atTokenBoundary (stripTrailingCommas a) = true ->
  (exists cleanedWith cleanedWithout,
      cleanAIResponse textWith = Ok cleanedWith
      /\ cleanAIResponse textWithout = Ok cleanedWithout
      /\ parse cleanedWith = parse cleanedWithout
      /\ parseWithRepair cleanedWith = parseWithRepair cleanedWithout)
  /\ parseAiPlaylistResponse_unvalidated textWith
     = parseAiPlaylistResponse_unvalidated textWithout
  /\ parseAiPlaylistResponse textWith = parseAiPlaylistResponse textWithout.
Proof.
  intros a withComma without textWith textWithout.
  subst a withComma without textWith textWithout.
  intros Fp Fw HL HR Last Space Closing NoComma Between.
  pose proof (@fenceFree_without_comma L _ ws br b R Space Closing Fw) as Fo.
  apply noPendingComma_endsWithComma in NoComma.
  destruct (@cleaned_with_comma _ ws br b NoComma Space Closing) as (Cw & Co).
  pose proof (@parse_skip_space _ ws br (stripTrailingCommas b) Between Space Closing) as P.
  pose proof (@parseWithRepair_skip_space _ ws br (stripTrailingCommas b)
                Between Space Closing) as PR.
  rewrite <- Cw, <- Co in P, PR.
  assert ((openBrace :: a') ++ comma :: ws ++ br :: b
          = openBrace :: (a' ++ (comma :: ws) ++ b0) ++ [closeBrace]) as Ew
      by exact (@object_shape a' b0 br b (comma :: ws) Last).
  assert ((openBrace :: a') ++ ws ++ br :: b
          = openBrace :: (a' ++ ws ++ b0) ++ [closeBrace]) as Eo
      by exact (@object_shape a' b0 br b ws Last).
  unfold parseAiPlaylistResponse, parseAiPlaylistResponse_unvalidated.
  rewrite Ew in Fw, P, PR |- *. rewrite Eo in Fo, P, PR |- *.
  rewrite !cleanAIResponse_fenced by assumption.
  split; [|rewrite <- PR; split; reflexivity].
  eexists. eexists. split; [reflexivity|]. split; [reflexivity|].
  split; [now rewrite P|now rewrite PR].
Qed.

(** C4, amended. A valid JSON object without a brace in its string
    literals is followed by arbitrary prose.  The brace count cuts the
    text at the end of the object, so the parse of the repaired text is
    the parse of the object alone.  In the pipeline, for a text without
    a code fence, the repair step receives the text after the cleanup
    of trailing commas: it cuts it at the end of the cleaned object, the
    parse attempts return the parse of the cleaned object (the parse of
    the object itself when the cleanup leaves the object unchanged), and
    the pipeline returns what it returns for the object alone. *)
Theorem repair_recovers_object_without_braces_in_strings
        (mid prose : jsString) (v : value) :
  let object := openBrace :: mid ++ [closeBrace] in
  parse object = Some v ->
  bracesOutside start object = true ->
  (repair (object ++ prose) = object
   /\ parse (repair (object ++ prose)) = Some v)
  /\ (noFence (object ++ prose) ->
      exists cleaned v',
        cleanAIResponse (object ++ prose) = Ok cleaned
        /\ repair cleaned = stripTrailingCommas object
        /\ parse (repair cleaned) = Some v'
        /\ parseWithRepair cleaned = Ok v'
        /\ (stripTrailingCommas object = object -> v' = v)
        /\ parseAiPlaylistResponse (object ++ prose) = parseAiPlaylistResponse object).
Proof.
  intros object Valid Outside.
  pose proof (@closes_object mid v Valid Outside) as Closes.
  fold object in Closes.
  pose proof (@repair_closes object prose Closes) as Cut.
  split; [split; [exact Cut|now rewrite Cut]|].
  intros NoFence.
  destruct (@repair_cleaned mid prose v NoFence Closes Valid)
    as (cleaned & v' & C & Rp & P' & PW).
  exists cleaned, v'. fold object in Rp, P'.
  split; [exact C|]. split; [exact Rp|]. split; [now rewrite Rp|].
  split; [exact PW|]. split.
  - intros E. rewrite E in P'. congruence.
  - exact (@repair_same_result mid prose v NoFence Closes Valid).
Qed.

Lemma validation_rejects (ms : list (jsString * value)) :
  noSongs ms ->
  let tracks := getMember (units "tracks") ms in
  falsy tracks || negb (isArray tracks) || Nat.eqb (lengthOf tracks) 0 = true.
Proof.
  intros [E|[(v & E & NA)|E]]; cbv zeta; rewrite E; cbn.
  - reflexivity.
  - destruct v; cbn; rewrite ?orb_true_r; try reflexivity.
    now elim (NA items).
  - reflexivity.
Qed.

Lemma validation_accepts (tracks : option value) :
  falsy tracks || negb (isArray tracks) || Nat.eqb (lengthOf tracks) 0 = false ->
  exists items, tracks = Some (JArray items) /\ items <> [].
Proof.
  destruct tracks as [[| | | |items|]|]; cbn; rewrite ?orb_true_r; try discriminate.
  destruct items; cbn; [discriminate|]. intros _. eexists. split; [reflexivity|discriminate].
Qed.

Lemma fromFirst_head c s x r : fromFirst c s = Some (x :: r) -> x = c.
Proof.
  induction s as [|y l IH]; [discriminate|]. cbn [fromFirst].
  destruct (N.eqb_spec y c) as [->|]; [|exact IH]. now intros [= -> _].
Qed.

(** What is parsed starts with an opening brace. *)
Lemma cleanAIResponse_starts_with_brace data jsonString :
  cleanAIResponse data = Ok jsonString -> exists r, jsonString = openBrace :: r.
Proof.
  unfold cleanAIResponse, jsonMatch.
  destruct (fromFirst openBrace _) as [[|x t]|] eqn:F; try discriminate.
  apply fromFirst_head in F. subst x.
  destruct (uptoLast closeBrace t); [|discriminate].
  intros [= <-]. unfold stripTrailingCommas. cbn [replaceFrom].
  change (openBrace =? comma)%N with false. cbn [andb]. eauto.
Qed.

Lemma braceLoop_after s :
  forall d i e, braceLoop s d i = Some e -> (i < e)%nat.
Proof.
  induction s as [|c r IH]; intros d i e; cbn [braceLoop]; [discriminate|].
  destruct (c =? closeBrace)%N.
  - destruct (_ - 1 =? 0)%Z; [intros [= <-]; lia|].
    intros H. apply IH in H. lia.
  - intros H. apply IH in H. lia.
Qed.

Lemma repair_starts_with_brace r :
  exists r', repair (openBrace :: r) = openBrace :: r'.
Proof.
  unfold repair, endIndex.
  destruct (braceLoop (openBrace :: r) 0 0) as [e|] eqn:B.
  - apply braceLoop_after in B. destruct e as [|e]; [lia|]. cbn [firstn]. eauto.
  - cbn [length firstn]. eauto.
Qed.

(** What the two attempts return is an object. *)
Lemma parseWithRepair_object data jsonString playlist :
  cleanAIResponse data = Ok jsonString ->
  parseWithRepair jsonString = Ok playlist ->
  exists ms, playlist = JObject ms.
Proof.
  intros C. destruct (cleanAIResponse_starts_with_brace _ C) as (r & ->).
  unfold parseWithRepair.
  destruct (parse (openBrace :: r)) as [p|] eqn:P1.
  - intros [= <-]. exact (@parse_object r p P1).
  - destruct (repair_starts_with_brace r) as (r' & ->).
    destruct (parse (openBrace :: r')) as [p|] eqn:P2; [|discriminate].
    intros [= <-]. exact (@parse_object r' p P2).
Qed.

(** C8. The pipeline throws the parse error when both attempts to parse
    fail; what an attempt returns is an object, and the pipeline throws
    the validation error when this object has no [tracks], a [tracks] that
    is not a list or an empty list; it returns only a suggestion with at
    least one song. *)
Theorem parseAiPlaylistResponse_fails_or_has_songs (data : jsString) :
  (forall jsonString,
      cleanAIResponse data = Ok jsonString ->
      parse jsonString = None ->
      parse (repair jsonString) = None ->
      parseAiPlaylistResponse data = Throw FailedToParse)
  /\ (forall jsonString playlist,
         cleanAIResponse data = Ok jsonString ->
         parseWithRepair jsonString = Ok playlist ->
         exists ms,
           playlist = JObject ms
           /\ (noSongs ms -> parseAiPlaylistResponse data = Throw ContainsNoSongs))
  /\ (forall playlist,
         parseAiPlaylistResponse data = Ok playlist -> hasSongs playlist).
Proof.
  unfold parseAiPlaylistResponse. split; [|split].
  - intros js C P1 P2. rewrite C. unfold parseWithRepair. now rewrite P1, P2.
  - intros js playlist C P.
    destruct (parseWithRepair_object _ C P) as (ms & ->).
    exists ms. split; [reflexivity|]. intros N. rewrite C, P. cbn [tracksOf].
    now rewrite (validation_rejects N).
  - intros playlist. destruct (cleanAIResponse data) as [js|e]; [|discriminate].
    destruct (parseWithRepair js) as [p|e]; [|discriminate].
    destruct p as [| | | |items|ms]; cbn [tracksOf]; try discriminate.
    destruct (falsy _ || negb _ || Nat.eqb _ 0) eqn:V; [discriminate|].
    intros [= <-]. apply validation_accepts in V. destruct V as (items & E & NE).
    exists ms, items. auto.
Qed.

Import Samples.

Lemma parseAiPlaylistResponse_fails_or_has_songs_witness :
  (cleanAIResponse unclosedList = Ok unclosedList
   /\ parse unclosedList = None
   /\ parse (repair unclosedList) = None
   /\ parseAiPlaylistResponse unclosedList = Throw FailedToParse)
  /\ (cleanAIResponse emptyTracks = Ok emptyTracks
      /\ noSongs [(units "name", JString (units "X")); (units "tracks", JArray [])]
      /\ parseAiPlaylistResponse emptyTracks = Throw ContainsNoSongs).
Proof.
  destruct (parseAiPlaylistResponse_fails_or_has_songs unclosedList) as (F & _ & _).
  destruct (parseAiPlaylistResponse_fails_or_has_songs emptyTracks) as (_ & V & _).
  assert (cleanAIResponse unclosedList = Ok unclosedList) as C1 by (vm_compute; reflexivity).
  assert (parse unclosedList = None) as P1 by (vm_compute; reflexivity).
  assert (parse (repair unclosedList) = None) as P2 by (vm_compute; reflexivity).
  assert (cleanAIResponse emptyTracks = Ok emptyTracks) as C2 by (vm_compute; reflexivity).
  assert (parseWithRepair emptyTracks
          = Ok (JObject [(units "name", JString (units "X")); (units "tracks", JArray [])]))
    as P3 by (vm_compute; reflexivity).
  assert (noSongs [(units "name", JString (units "X")); (units "tracks", JArray [])]) as N
      by (right; right; vm_compute; reflexivity).
  split.
  - split; [exact C1|]. split; [exact P1|]. split; [exact P2|]. exact (F _ C1 P1 P2).
  - split; [exact C2|]. split; [exact N|].
    destruct (V _ _ C2 P3) as (ms & E & H). injection E as <-. exact (H N).
Defined.

(** Without the validation, an object without songs is returned. *)
Lemma parseAiPlaylistResponse_unvalidated_empty :
  parseAiPlaylistResponse_unvalidated emptyTracks
  = Ok (JObject [(units "name", JString (units "X")); (units "tracks", JArray [])]).
Proof. vm_compute. reflexivity. Qed.

(** The example of the specification, with its trailing comma. *)
Lemma trailing_comma_is_ignored_witness :
  (fenceFree [] /\ fenceFree ((units "json" ++ LF)
                               ++ ((openBrace :: exampleHead) ++ comma :: [] ++ 93%N :: [closeBrace])
                               ++ LF)
   /\ endsWithComma (openBrace :: exampleHead) = false
   /\ atTokenBoundary (stripTrailingCommas (openBrace :: exampleHead)) = true)
  /\ parseAiPlaylistResponse fencedExample
     = parseAiPlaylistResponse
         (units "```json" ++ LF
          ++ quoted "{'name':'X','tracks':[{'title':'Song','artist':'Artist'}]}"
          ++ LF ++ units "```")
  /\ parseAiPlaylistResponse fencedExample = Ok exampleValue.
Proof.
  assert (fenceFree []) as Fp by reflexivity.
  assert (fenceFree ((units "json" ++ LF)
                     ++ ((openBrace :: exampleHead) ++ comma :: [] ++ 93%N :: [closeBrace])
                     ++ LF)) as Fw by (vm_compute; reflexivity).
  assert (endsWithComma (openBrace :: exampleHead) = false) as E
      by (vm_compute; reflexivity).
  assert (atTokenBoundary (stripTrailingCommas (openBrace :: exampleHead)) = true) as B
      by (vm_compute; reflexivity).
  destruct (@trailing_comma_is_ignored [] (units "json" ++ LF) exampleHead [] [93%N]
              LF [] 93%N [closeBrace]
              Fp Fw eq_refl eq_refl eq_refl eq_refl eq_refl E B) as (_ & _ & T).
  split; [auto|]. split; [exact T|].
  vm_compute. reflexivity.
Defined.

(** Several trailing commas: the last one meets the hypotheses of C5
    although the text before it is not a prefix of a valid text, and the
    extractor returns the object of the example. *)
Lemma several_trailing_commas :
  atTokenBoundary severalCommasHead = false
  /\ endsWithComma severalCommasHead = false
  /\ atTokenBoundary (stripTrailingCommas severalCommasHead) = true
  /\ parseAiPlaylistResponse severalCommas = Ok exampleValue.
Proof. repeat split; vm_compute; reflexivity. Qed.

Lemma repair_recovers_object_without_braces_in_strings_witness :
  (parse plainObject = Some plainValue
   /\ bracesOutside start plainObject = true
   /\ noFence (plainObject ++ prose))
  /\ repair (plainObject ++ prose) = plainObject
  /\ parseAiPlaylistResponse (plainObject ++ prose) = parseAiPlaylistResponse plainObject
  /\ parseAiPlaylistResponse (plainObject ++ prose) = Ok plainValue.
Proof.
  assert (parse plainObject = Some plainValue) as V by (vm_compute; reflexivity).
  assert (bracesOutside start plainObject = true) as B by (vm_compute; reflexivity).
  assert (noFence (plainObject ++ prose)) as F by (vm_compute; reflexivity).
  destruct (@repair_recovers_object_without_braces_in_strings plainMid prose plainValue
              V B) as ((Cut & _) & Pipeline).
  destruct (Pipeline F) as (cleaned & v' & _ & _ & _ & _ & _ & Same).
  split; [auto|]. split; [exact Cut|]. split; [exact Same|].
  vm_compute. reflexivity.
Defined.

(** C4, as stated, fails: the closing brace in a title is counted, the
    depth returns to zero one brace too early, and both parse attempts
    fail although the object alone is accepted. *)
Lemma repair_counts_brace_of_string_literal :
  (exists v, parse braceInTitle = Some v /\ parseAiPlaylistResponse braceInTitle = Ok v)
  /\ cleanAIResponse (braceInTitle ++ prose) = Ok (braceInTitle ++ prose)
  /\ repair (braceInTitle ++ prose) = quoted "{'tracks':[{'title':'}','artist':'A'}"
  /\ repair (braceInTitle ++ prose) <> braceInTitle
  /\ parse (repair (braceInTitle ++ prose)) = None
  /\ parseAiPlaylistResponse (braceInTitle ++ prose) = Throw FailedToParse.
Proof.
  split; [eexists; split; vm_compute; reflexivity|].
  split; [vm_compute; reflexivity|].
  split; [vm_compute; reflexivity|].
  split; [vm_compute; discriminate|].
  split; vm_compute; reflexivity.
Qed.

(** C10. A text that is a valid JSON object, for which the extractor
    (with or without the validation of the songs) returns another object
    than [JSON.parse]: the cleanup removes the comma of [a,}] inside the
    string literal of the name. *)
Theorem cleanup_rewrites_inside_string_literals :
  exists text v w,
    parse text = Some (JObject v)
    /\ parseAiPlaylistResponse text = Ok (JObject w)
    /\ parseAiPlaylistResponse_unvalidated text = Ok (JObject w)
    /\ getMember (units "name") v = Some (JString (units "a,}"))
    /\ getMember (units "name") w = Some (JString (units "a}"))
    /\ JObject v <> JObject w
    /\ cleanAIResponse text = Ok (stripTrailingCommas text)
    /\ stripTrailingCommas text <> text.
Proof.
  exists commaInName. eexists. eexists.
  split; [vm_compute; reflexivity|].
  split; [vm_compute; reflexivity|].
  split; [vm_compute; reflexivity|].
  split; [vm_compute; reflexivity|].
  split; [vm_compute; reflexivity|].
  split; [vm_compute; discriminate|].
  split; [vm_compute; reflexivity|].
  vm_compute. discriminate.
Qed.

End ExtractorFacts.

(** ** The messages shown after an error *)

Module FeedbackFacts.

Import Command Feedback.

Lemma stripPrefix_app (p r : jsString) : stripPrefix p (p ++ r) = Some r.
Proof. induction p as [|c p IH]; cbn; [reflexivity|]. now rewrite N.eqb_refl. Qed.

Lemma includes_prefix (p r : jsString) : includes p (p ++ r) = true.
Proof.
  destruct p as [|c p]; [now destruct r|].
  cbn [app includes]. unfold startsWith.
  change (c :: p ++ r) with ((c :: p) ++ r). now rewrite stripPrefix_app.
Qed.

Lemma includes_app_r (p a b : jsString) :
  includes p b = true -> includes p (a ++ b) = true.
Proof.
  intros H. induction a as [|x a IH]; [exact H|].
  cbn [app includes]. rewrite IH. apply orb_true_r.
Qed.

(** A text that lacks the first code unit of [p] adds no occurrence of
    [p] in front of [b]. *)
Lemma includes_skip (c : N) (p a b : jsString) :
  forallb (fun x => negb (x =? c)%N) a = true ->
  includes (c :: p) (a ++ b) = includes (c :: p) b.
Proof.
  induction a as [|x a IH]; [reflexivity|]. cbn [forallb app].
  intros H. apply andb_true_iff in H. destruct H as [Hx Ha].
  rewrite <- (IH Ha). cbn [includes]. unfold startsWith. cbn [stripPrefix].
  rewrite N.eqb_sym. apply negb_true_iff in Hx. now rewrite Hx.
Qed.

Lemma namesOutage_failedToParse (detail : jsString) :
  namesOutage (failedToParse detail) = namesOutage detail.
Proof.
  unfold namesOutage, failedToParse. cbn [units].
  now rewrite !includes_skip by reflexivity.
Qed.

(** X1. The errors that the pipeline throws on purpose are never shown
    raw.  A missing object gives the text for an invalid response; an
    answer or a resolution without songs gives the text for no valid
    songs; a failed parse gives the text for an invalid response, unless
    the message of the syntax error names an outage ([503], [heroku],
    [Service Unavailable]): that test comes first, and the text is then
    the one for an unavailable service. *)
Theorem getErrorMessage_of_thrown (detail : jsString) :
  getErrorMessage noJsonObjectFound = invalidResponse
  /\ getErrorMessage containsNoSongs = noValidSongs
  /\ getErrorMessage noneCouldBeFound = noValidSongs
  /\ getErrorMessage (failedToParse detail)
     = if namesOutage detail then unavailable else invalidResponse.
Proof.
  split; [vm_compute; reflexivity|]. split; [vm_compute; reflexivity|].
  split; [vm_compute; reflexivity|].
  pose proof (namesOutage_failedToParse detail) as K. unfold namesOutage in K.
  unfold getErrorMessage. rewrite K. fold (namesOutage detail).
  destruct (namesOutage detail); [reflexivity|].
  unfold failedToParse.
  replace (units "Failed to parse AI response: ")
    with (units "Failed to parse AI response" ++ units ": ") by reflexivity.
  rewrite <- app_assoc, includes_prefix. reflexivity.
Qed.

(** What is shown is one of the four texts or the message itself. *)
Lemma getErrorMessage_cases (errorString : jsString) :
  getErrorMessage errorString = unavailable
  \/ getErrorMessage errorString = invalidResponse
  \/ getErrorMessage errorString = tooManyRequests
  \/ getErrorMessage errorString = noValidSongs
  \/ getErrorMessage errorString = errorString.
Proof.
  unfold getErrorMessage.
  destruct (includes (units "503") errorString
            || includes (units "heroku") errorString
            || includes (units "Service Unavailable") errorString); [now left|].
  destruct (includes (units "Failed to parse AI response") errorString
            || includes (units "No JSON object found") errorString);
    [right; now left|].
  destruct (includes (units "rate limit") errorString
            || includes (units "429") errorString); [right; right; now left|].
  destruct (includes (units "contains no songs") errorString
            || includes (units "could be found on Spotify") errorString);
    [right; right; right; now left|].
  now repeat right.
Qed.

(** X2. [getErrorMessage] is idempotent: its four texts and every message
    it passes through are shown as they are, so a text it produced is not
    reclassified when it is shown again. *)
Theorem getErrorMessage_idempotent (errorString : jsString) :
  getErrorMessage (getErrorMessage errorString) = getErrorMessage errorString.
Proof.
  destruct (getErrorMessage_cases errorString) as [H|[H|[H|[H|H]]]]; rewrite H.
  1-4: vm_compute; reflexivity.
  exact H.
Qed.

End FeedbackFacts.

(** ** Undo, redo and retry in the version history *)

Module UndoRedoFacts.

Import Command Feedback.

Lemma trimEnd_idempotent (s : jsString) : trimEnd (trimEnd s) = trimEnd s.
Proof.
  unfold trimEnd. rewrite rev_involutive.
  now rewrite ExtractorFacts.trimStart_idempotent.
Qed.

Lemma trim_cons_solid (c : N) (r : jsString) :
  isWhiteSpace c = false -> trim (c :: r) = c :: trimEnd r.
Proof.
  intros W. unfold trim. cbn [trimStart]. rewrite W.
  exact (@ExtractorFacts.trimEnd_app_solid [] c r W).
Qed.

Lemma trimStart_head (s : jsString) (c : N) (r : jsString) :
  trimStart s = c :: r -> isWhiteSpace c = false.
Proof.
  induction s as [|x s IH]; [discriminate|]. cbn [trimStart].
  destruct (isWhiteSpace x) eqn:W; [exact IH|]. now intros [= <- _].
Qed.

(** A prompt that is not blank: its trimmed text starts and ends the
    trimming. *)
Lemma trim_idempotent (s : jsString) : trim (trim s) = trim s.
Proof.
  unfold trim at 2 3. destruct (trimStart s) as [|c r] eqn:T; [reflexivity|].
  pose proof (trimStart_head _ T) as W.
  pose proof (@ExtractorFacts.trimEnd_app_solid [] c r W) as E. cbn [app] in E.
  rewrite E, trim_cons_solid by exact W. now rewrite trimEnd_idempotent.
Qed.

Section WithTracks.

Variable Track : Type.
Implicit Types (st : State Track) (v : PlaylistVersion Track).

(** X3. In a history with the cursor in range, undo and redo are inverse
    to each other: a redo after a revert, and a revert after a redo,
    bring back the history, the cursor and the playlist that were
    current. *)
Theorem revert_and_redo_are_inverse st :
  (0 <= currentIndex st < Z.of_nat (length (history st)))%Z ->
  (canRevert st = true ->
   let back := revertToPrevious st st in
   let again := redoNext back back in
   canRedo back = true
   /\ history again = history st
   /\ currentIndex again = currentIndex st
   /\ currentPlaylist again = currentPlaylist st)
  /\ (canRedo st = true ->
      let forth := redoNext st st in
      let again := revertToPrevious forth forth in
      canRevert forth = true
      /\ history again = history st
      /\ currentIndex again = currentIndex st
      /\ currentPlaylist again = currentPlaylist st).
Proof.
  intros R. split.
  - intros C back again.
    assert (back = {| history := history st; currentIndex := currentIndex st - 1;
                      searchText := searchText st; tuneError := None |}) as Eb
        by (subst back; unfold revertToPrevious; now rewrite C).
    unfold canRevert in C. apply Z.gtb_lt in C.
    assert (canRedo back = true) as CR
        by (rewrite Eb; unfold canRedo; cbn [history currentIndex]; apply Z.ltb_lt; lia).
    assert (again = {| history := history st; currentIndex := currentIndex st;
                       searchText := searchText st; tuneError := None |}) as Ea.
    { subst again. unfold redoNext. rewrite CR, Eb. cbn [history currentIndex searchText].
      f_equal. lia. }
    split; [exact CR|]. rewrite Ea. now unfold currentPlaylist.
  - intros C forth again.
    assert (forth = {| history := history st; currentIndex := currentIndex st + 1;
                       searchText := searchText st; tuneError := None |}) as Ef
        by (subst forth; unfold redoNext; now rewrite C).
    unfold canRedo in C. apply Z.ltb_lt in C.
    assert (canRevert forth = true) as CR
        by (rewrite Ef; unfold canRevert; cbn [currentIndex]; apply Z.gtb_lt; lia).
    assert (again = {| history := history st; currentIndex := currentIndex st;
                       searchText := searchText st; tuneError := None |}) as Ea.
    { subst again. unfold revertToPrevious. rewrite CR, Ef.
      cbn [history currentIndex searchText]. f_equal. lia. }
    split; [exact CR|]. rewrite Ea. now unfold currentPlaylist.
Qed.

(** X4. After a successful tuning there is nothing to redo; one revert
    selects the playlist that was current before the tuning, and a redo
    then selects the tuned playlist again. *)
Theorem revert_after_tunePlaylist st prompt v :
  trim prompt <> [] ->
  (0 <= currentIndex st < Z.of_nat (length (history st)))%Z ->
  let tuned := tunePlaylist st prompt (Ok v) st in
  let back := revertToPrevious tuned tuned in
  canRedo tuned = false
  /\ canRevert tuned = true
  /\ currentPlaylist back = currentPlaylist st
  /\ canRedo back = true
  /\ currentPlaylist (redoNext back back) = Some v.
Proof.
  intros NB R tuned back.
  assert (tuned = {| history := firstn (Z.to_nat (currentIndex st) + 1) (history st) ++ [v];
                     currentIndex := currentIndex st + 1;
                     searchText := [];
                     tuneError := None |}) as E
      by exact (@HistoryFacts.tunePlaylist_success Track st prompt v NB R).
  assert (length (firstn (Z.to_nat (currentIndex st) + 1) (history st))
          = (Z.to_nat (currentIndex st) + 1)%nat) as L
      by (rewrite length_firstn; lia).
  assert (canRevert tuned = true) as CRv
      by (rewrite E; unfold canRevert; cbn [currentIndex]; apply Z.gtb_lt; lia).
  assert (canRedo tuned = false) as NRd.
  { rewrite E. unfold canRedo. cbn [history currentIndex].
    rewrite length_app, L. cbn [length]. apply Z.ltb_ge. lia. }
  assert (back = {| history := history tuned; currentIndex := currentIndex st;
                    searchText := []; tuneError := None |}) as Eb.
  { subst back. unfold revertToPrevious. rewrite CRv. rewrite E.
    cbn [history currentIndex searchText]. f_equal. lia. }
  assert (canRedo back = true) as CRd.
  { rewrite Eb. unfold canRedo. cbn [history currentIndex]. rewrite E.
    cbn [history]. rewrite length_app, L. cbn [length]. apply Z.ltb_lt. lia. }
  split; [exact NRd|]. split; [exact CRv|]. split; [|split; [exact CRd|]].
  - rewrite Eb. unfold currentPlaylist. cbn [history currentIndex].
    rewrite E. cbn [history].
    unfold elemAt. destruct (Z.ltb_spec (currentIndex st) 0); [lia|].
    rewrite nth_error_app1 by lia.
    rewrite nth_error_firstn.
    destruct (Nat.ltb_spec (Z.to_nat (currentIndex st)) (Z.to_nat (currentIndex st) + 1));
      [reflexivity|lia].
  - unfold redoNext. rewrite CRd. unfold currentPlaylist. cbn [history currentIndex].
    rewrite Eb. cbn [history currentIndex]. rewrite E. cbn [history].
    unfold elemAt. destruct (Z.ltb_spec (currentIndex st + 1) 0); [lia|].
    replace (Z.to_nat (currentIndex st + 1))
      with (length (firstn (Z.to_nat (currentIndex st) + 1) (history st)) + 0)%nat
      by (rewrite L; lia).
    now rewrite nth_error_app2, Nat.add_comm, Nat.add_sub by lia.
Qed.

(** X5. A tuning that fails changes neither the history nor the cursor.
    It keeps the failed prompt in the error state and in the search
    text, so the "Retry" action tunes with the trimmed prompt; whatever
    the outcome of the retry, the command ends in the state that tuning
    with the trimmed prompt would have reached from the state before the
    failure. *)
Theorem retry_after_failed_tunePlaylist st prompt err :
  trim prompt <> [] ->
  currentPlaylist st <> None ->
  let failed := tunePlaylist st prompt (Throw err) st in
  history failed = history st
  /\ currentIndex failed = currentIndex st
  /\ exists e,
       tuneError failed = Some e
       /\ message e = getErrorMessage err
       /\ promptToUse failed e = trim prompt
       /\ forall generated,
            tunePlaylist failed (promptToUse failed e) generated failed
            = tunePlaylist st (trim prompt) generated st.
Proof.
  intros NB Cur failed.
  assert (failed = {| history := history st; currentIndex := currentIndex st;
                      searchText := prompt;
                      tuneError := Some {| message := getErrorMessage err;
                                           failedPrompt := prompt |} |}) as Ef.
  { subst failed. unfold tunePlaylist.
    destruct (trim prompt); [congruence|]. now destruct (currentPlaylist st). }
  clearbody failed. subst failed.
  cbn [history currentIndex tuneError].
  split; [reflexivity|]. split; [reflexivity|].
  exists {| message := getErrorMessage err; failedPrompt := prompt |}.
  split; [reflexivity|]. split; [reflexivity|].
  assert (forall e, promptToUse {| history := history st; currentIndex := currentIndex st;
                                   searchText := prompt; tuneError := Some e |}
                                {| message := getErrorMessage err; failedPrompt := prompt |}
                    = trim prompt) as P.
  { intros e. unfold promptToUse. cbn [searchText]. now destruct (trim prompt). }
  split; [apply P|]. intros generated.
  rewrite P. unfold tunePlaylist. rewrite trim_idempotent.
  unfold currentPlaylist. cbn [history currentIndex].
  destruct (trim prompt); [congruence|].
  fold (currentPlaylist st). destruct (currentPlaylist st); [|congruence].
  destruct generated; reflexivity.
Qed.

End WithTracks.

Import Samples.

Lemma revert_and_redo_are_inverse_witness :
  (0 <= currentIndex revertedABC < Z.of_nat (length (history revertedABC)))%Z
  /\ canRevert revertedABC = true
  /\ currentIndex (revertToPrevious revertedABC revertedABC) = 0%Z
  /\ currentIndex
       (redoNext (revertToPrevious revertedABC revertedABC)
                 (revertToPrevious revertedABC revertedABC)) = 1%Z.
Proof.
  assert (0 <= currentIndex revertedABC
          < Z.of_nat (length (history revertedABC)))%Z as R by (cbn; lia).
  destruct (@revert_and_redo_are_inverse unit revertedABC R) as (Back & _).
  destruct (Back eq_refl) as (_ & _ & I & _).
  split; [exact R|]. split; [reflexivity|]. split; [reflexivity|]. exact I.
Defined.

Lemma revert_after_tunePlaylist_witness :
  trim (units "more jazz") <> []
  /\ (0 <= currentIndex revertedABC < Z.of_nat (length (history revertedABC)))%Z
  /\ currentPlaylist
       (revertToPrevious
          (tunePlaylist revertedABC (units "more jazz") (Ok (version "D")) revertedABC)
          (tunePlaylist revertedABC (units "more jazz") (Ok (version "D")) revertedABC))
     = Some (version "B").
Proof.
  assert (trim (units "more jazz") <> []) as NB by (vm_compute; discriminate).
  assert (0 <= currentIndex revertedABC
          < Z.of_nat (length (history revertedABC)))%Z as R by (cbn; lia).
  destruct (@revert_after_tunePlaylist unit revertedABC (units "more jazz") (version "D")
              NB R) as (_ & _ & B & _).
  split; [exact NB|]. split; [exact R|]. rewrite B. reflexivity.
Defined.

Lemma retry_after_failed_tunePlaylist_witness :
  trim (units " more jazz ") <> []
  /\ currentPlaylist revertedABC <> None
  /\ history (tunePlaylist revertedABC (units " more jazz ") (Throw (units "429"))
                revertedABC)
     = history revertedABC
  /\ promptToUse (tunePlaylist revertedABC (units " more jazz ") (Throw (units "429"))
                              revertedABC)
                 {| message := tooManyRequests; failedPrompt := units " more jazz " |}
     = units "more jazz".
Proof.
  assert (trim (units " more jazz ") <> []) as NB by (vm_compute; discriminate).
  assert (currentPlaylist revertedABC <> None) as C by (vm_compute; discriminate).
  destruct (@retry_after_failed_tunePlaylist unit revertedABC (units " more jazz ")
              (units "429") NB C) as (H & _).
  split; [exact NB|]. split; [exact C|]. split; [exact H|]. vm_compute. reflexivity.
Defined.

End UndoRedoFacts.

(** ** The selected playlist as a cursor *)

Module SelectionFacts.

Import TuneHistory.

Lemma indexOfFrom_addr {A} (l : list (object A)) (o o' : object A) (i : Z) :
  addr o = addr o' -> indexOfFrom l o i = indexOfFrom l o' i.
Proof.
  intros E. revert i. induction l as [|x r IH]; intros i; [reflexivity|].
  cbn [indexOfFrom]. unfold sameObject. rewrite E, IH. reflexivity.
Qed.

Lemma indexOfFrom_range {A} (l : list (object A)) (o : object A) (i : Z) :
  indexOfFrom l o i = (-1)%Z
  \/ (i <= indexOfFrom l o i < i + Z.of_nat (length l))%Z.
Proof.
  revert i. induction l as [|x r IH]; intros i; cbn [indexOfFrom length]; [now left|].
  destruct (sameObject x o); [right; lia|].
  destruct (IH (i + 1)%Z) as [E|R]; [now left|right; lia].
Qed.

(** In a list of distinct objects, an object is found where it is. *)
Lemma indexOfFrom_nth {A} (l : list (object A)) (n : nat) (o : object A) (i : Z) :
  NoDup (map (@addr A) l) ->
  nth_error l n = Some o ->
  indexOfFrom l o i = (i + Z.of_nat n)%Z.
Proof.
  revert n i. induction l as [|x r IH]; intros n i ND E; [now destruct n|].
  cbn [map] in ND. inversion ND as [|a m NI ND' Eq]. subst a m.
  destruct n as [|n]; cbn [nth_error] in E; cbn [indexOfFrom].
  - injection E as ->. unfold sameObject. rewrite Nat.eqb_refl. lia.
  - unfold sameObject. destruct (Nat.eqb_spec (addr x) (addr o)) as [Ea|Ne].
    + exfalso. apply NI. rewrite Ea. apply in_map. eapply nth_error_In. exact E.
    + rewrite (IH n (i + 1)%Z ND' E). lia.
Qed.

(** What is found at the index of an object is that object. *)
Lemma nth_indexOfFrom {A} (l : list (object A)) (o : object A) (i : Z) :
  (0 <= i <= indexOfFrom l o i)%Z ->
  exists o', nth_error l (Z.to_nat (indexOfFrom l o i - i)) = Some o'
             /\ addr o' = addr o.
Proof.
  revert i. induction l as [|x r IH]; intros i; cbn [indexOfFrom]; [lia|].
  unfold sameObject. destruct (Nat.eqb_spec (addr x) (addr o)) as [Ea|Ne].
  - intros _. exists x. rewrite Z.sub_diag. now split.
  - intros R. destruct (indexOfFrom_range r o (i + 1)) as [E|R'].
    + rewrite E in R. lia.
    + destruct (IH (i + 1)%Z) as (o' & N & Ea); [lia|].
      exists o'. split; [|exact Ea].
      replace (Z.to_nat (indexOfFrom r o (i + 1) - i))
        with (S (Z.to_nat (indexOfFrom r o (i + 1) - (i + 1)))) by lia.
      exact N.
Qed.

Lemma length_removeAt {A} (l : list A) (i : Z) :
  (0 <= i < Z.of_nat (length l))%Z ->
  Z.of_nat (length (removeAt l i)) = (Z.of_nat (length l) - 1)%Z.
Proof.
  revert i. induction l as [|x r IH]; intros i R; cbn [length removeAt] in *; [lia|].
  destruct (Z.eqb_spec i 0); [lia|].
  cbn [length]. rewrite Nat2Z.inj_succ, IH; lia.
Qed.

Lemma removeAt_out_of_range {A} (l : list A) (i : Z) :
  (i < 0 \/ Z.of_nat (length l) <= i)%Z -> removeAt l i = l.
Proof.
  revert i. induction l as [|x r IH]; intros i R; [reflexivity|].
  cbn [removeAt length] in *. destruct (Z.eqb_spec i 0); [lia|].
  rewrite IH; [reflexivity|lia].
Qed.

Lemma nth_error_removeAt {A} (l : list A) (i : Z) (j : nat) :
  (0 <= i)%Z ->
  nth_error (removeAt l i) j
  = if (Z.of_nat j <? i)%Z then nth_error l j else nth_error l (S j).
Proof.
  revert i j. induction l as [|x r IH]; intros i j R.
  - cbn [removeAt]. destruct (Z.of_nat j <? i)%Z; now destruct j.
  - cbn [removeAt]. destruct (Z.eqb_spec i 0) as [->|NZ].
    + destruct (Z.ltb_spec (Z.of_nat j) 0); [lia|reflexivity].
    + destruct j as [|j]; cbn [nth_error].
      * destruct (Z.ltb_spec (Z.of_nat 0) i); [reflexivity|lia].
      * rewrite IH by lia.
        destruct (Z.ltb_spec (Z.of_nat j) (i - 1)), (Z.ltb_spec (Z.of_nat (S j)) i);
          try reflexivity; lia.
Qed.

(** Removing a later entry does not move the index of an object. *)
Lemma indexOfFrom_removeAt {A} (l : list (object A)) (o : object A) (i k : Z) :
  (0 <= k <= indexOfFrom l o k)%Z -> (indexOfFrom l o k < k + i)%Z ->
  indexOfFrom (removeAt l i) o k = indexOfFrom l o k.
Proof.
  revert i k. induction l as [|x r IH]; intros i k; cbn [indexOfFrom removeAt];
    [reflexivity|].
  destruct (sameObject x o) eqn:S.
  - intros R R2. destruct (Z.eqb_spec i 0); [lia|]. cbn [indexOfFrom]. now rewrite S.
  - intros R R2. destruct (Z.eqb_spec i 0) as [->|NZ].
    + destruct (indexOfFrom_range r o (k + 1)) as [E|R']; lia.
    + cbn [indexOfFrom]. rewrite S.
      destruct (indexOfFrom_range r o (k + 1)) as [E|R']; [lia|].
      apply IH; lia.
Qed.

Section WithPlaylists.

Variable PlaylistFields : Type.
Implicit Types (st : State PlaylistFields) (p : Playlist PlaylistFields).

Lemma currentIndex_from st : (-1 <= currentIndex st < Z.of_nat (length (history st)))%Z.
Proof.
  unfold currentIndex, indexOf. destruct (currentPlaylist st) as [p|].
  - destruct (indexOfFrom_range (history st) p 0) as [E|R]; [rewrite E|];
      unfold Playlist in *; lia.
  - lia.
Qed.

Lemma currentIndex_selected st (k : Z) :
  NoDup (map (@addr PlaylistFields) (history st)) ->
  (0 <= k < Z.of_nat (length (history st)))%Z ->
  currentIndex (setCurrentPlaylist (elemAt (history st) k) st) = k.
Proof.
  intros ND R. unfold elemAt. destruct (Z.ltb_spec k 0); [lia|].
  destruct (nth_error (history st) (Z.to_nat k)) as [q|] eqn:E.
  - unfold currentIndex, indexOf. cbn [currentPlaylist history setCurrentPlaylist].
    rewrite (@indexOfFrom_nth _ (history st) (Z.to_nat k) q 0 ND E). lia.
  - apply nth_error_None in E. lia.
Qed.

(** X6. While the playlists of the history are distinct objects, the
    cursor that is derived from the selected playlist goes where the
    handlers send it: a jump to a valid index ends on that index, a
    revert moves the cursor one back, and a redo moves it one forward
    (from no selection, to the first version). *)
Theorem cursor_follows_the_selection st :
  NoDup (map (@addr PlaylistFields) (history st)) ->
  (forall i, (0 <= i < Z.of_nat (length (history st)))%Z ->
             currentIndex (jumpToVersion st i st) = i)
  /\ ((0 < currentIndex st)%Z ->
      currentIndex (revertToPrevious st st) = (currentIndex st - 1)%Z)
  /\ ((currentIndex st < Z.of_nat (length (history st)) - 1)%Z ->
      currentIndex (redoNext st st) = (currentIndex st + 1)%Z).
Proof.
  intros ND. pose proof (currentIndex_from st) as F. split; [|split].
  - intros i R. unfold jumpToVersion.
    destruct (Z.geb_spec i 0); [|lia].
    destruct (Z.ltb_spec i (Z.of_nat (length (history st)))); [|lia].
    cbn [andb]. now apply currentIndex_selected.
  - intros G. unfold revertToPrevious.
    destruct (Z.gtb_spec (currentIndex st) 0); [|lia].
    apply currentIndex_selected; [exact ND|lia].
  - intros G. unfold redoNext.
    destruct (Z.ltb_spec (currentIndex st) (Z.of_nat (length (history st)) - 1)); [|lia].
    apply currentIndex_selected; [exact ND|lia].
Qed.

(** X7. [handleDelete] asks for the local list without the version at
    the index: the versions before it stay where they are, the later
    ones move one place down, and an index outside the list removes
    nothing.  It passes this list to [setHistory] and then the adjusted
    index to [onSelect]; when the parent passes no [setHistory], as the
    [Command] does, the call throws before [onSelect] is reached and the
    state of [Command] is unchanged. *)
Theorem handleDelete_removes_one_version (props : TuneHistoryList.Props PlaylistFields)
        (localHistory : list (Playlist PlaylistFields)) (index : Z) st :
  exists newHistory st' outcome,
    TuneHistoryList.handleDelete props localHistory index st = (newHistory, st', outcome)
    /\ ((0 <= index < Z.of_nat (length localHistory))%Z ->
        Z.of_nat (length newHistory) = (Z.of_nat (length localHistory) - 1)%Z
        /\ forall j : nat,
             nth_error newHistory j
             = if (Z.of_nat j <? index)%Z then nth_error localHistory j
               else nth_error localHistory (S j))
    /\ ((index < 0 \/ Z.of_nat (length localHistory) <= index)%Z ->
        newHistory = localHistory)
    /\ (forall setHistory,
           TuneHistoryList.setHistory props = Some setHistory ->
           outcome = Ok tt
           /\ st' = TuneHistoryList.onSelect props
                      (selectionAfterDelete (TuneHistoryList.currentIndex props) index
                                            newHistory)
                      (setHistory newHistory st))
    /\ (TuneHistoryList.setHistory props = None ->
        outcome = Throw TuneHistoryList.TypeError /\ st' = st)
    /\ (forall render,
           props = TuneHistoryList.viewHistory render ->
           outcome = Throw TuneHistoryList.TypeError /\ st' = st).
Proof.
  assert ((0 <= index < Z.of_nat (length localHistory))%Z ->
          Z.of_nat (length (removeAt localHistory index))
          = (Z.of_nat (length localHistory) - 1)%Z
          /\ forall j : nat,
               nth_error (removeAt localHistory index) j
               = if (Z.of_nat j <? index)%Z then nth_error localHistory j
                 else nth_error localHistory (S j)) as Inside.
  { intros R. split; [now apply length_removeAt|].
    intros j. apply nth_error_removeAt. lia. }
  pose proof (@removeAt_out_of_range _ localHistory index) as Outside.
  unfold TuneHistoryList.handleDelete.
  destruct (TuneHistoryList.setHistory props) as [set|] eqn:S.
  - eexists _, _, _. split; [reflexivity|]. split; [exact Inside|]. split; [exact Outside|].
    split; [intros set' [= <-]; now split|]. split; [discriminate|].
    intros render E. rewrite E in S. discriminate S.
  - eexists _, _, _. split; [reflexivity|]. split; [exact Inside|]. split; [exact Outside|].
    split; [discriminate|]. split; intros; now split.
Qed.

(** X8. When the parent passes a [setHistory], [handleDelete] passes to
    [onSelect] an index that follows the current version: after the
    deletion of another version it designates, in the shortened list,
    the version that was current; after the deletion of the current
    version it is the index before it (or the first one), inside the
    shortened list. *)
Theorem handleDelete_selection_follows_the_version
        (props : TuneHistoryList.Props PlaylistFields) setHistory
        (localHistory : list (Playlist PlaylistFields)) (index : Z) st :
  TuneHistoryList.setHistory props = Some setHistory ->
  (0 <= TuneHistoryList.currentIndex props < Z.of_nat (length localHistory))%Z ->
  (0 <= index < Z.of_nat (length localHistory))%Z ->
  let newHistory := removeAt localHistory index in
  exists selected,
    TuneHistoryList.handleDelete props localHistory index st
    = (newHistory, TuneHistoryList.onSelect props selected (setHistory newHistory st), Ok tt)
    /\ (TuneHistoryList.currentIndex props <> index ->
        elemAt newHistory selected
        = elemAt localHistory (TuneHistoryList.currentIndex props))
    /\ (TuneHistoryList.currentIndex props = index -> newHistory <> [] ->
        selected = Z.max 0 (index - 1)
        /\ (0 <= selected < Z.of_nat (length newHistory))%Z).
Proof.
  intros S Rc Ri newHistory.
  exists (selectionAfterDelete (TuneHistoryList.currentIndex props) index newHistory).
  split; [unfold TuneHistoryList.handleDelete; now rewrite S|].
  set (c := TuneHistoryList.currentIndex props) in *.
  pose proof (@length_removeAt _ localHistory index Ri) as L.
  fold newHistory in L.
  unfold selectionAfterDelete. split.
  - intros NE. unfold elemAt, newHistory.
    destruct (Z.gtb_spec c index) as [G|G].
    + destruct (Z.ltb_spec (c - 1) 0); [lia|]. destruct (Z.ltb_spec c 0); [lia|].
      rewrite nth_error_removeAt by lia.
      destruct (Z.ltb_spec (Z.of_nat (Z.to_nat (c - 1))) index); [lia|].
      f_equal. lia.
    + destruct (Z.eqb_spec c index); [lia|]. cbn [andb].
      destruct (Z.ltb_spec c 0); [lia|].
      rewrite nth_error_removeAt by lia.
      destruct (Z.ltb_spec (Z.of_nat (Z.to_nat c)) index); [reflexivity|lia].
  - intros E NE. destruct (Z.gtb_spec c index); [lia|].
    destruct (Z.eqb_spec c index); [|lia]. cbn [andb].
    destruct (Nat.eqb_spec (length newHistory) 0) as [Z0|Z0].
    + destruct newHistory; [congruence|discriminate].
    + cbn [negb]. unfold Playlist in *. split; lia.
Qed.

End WithPlaylists.

Import Samples MoreSamples.

Lemma cursor_follows_the_selection_witness :
  NoDup (map (@addr string) (history selectedA))
  /\ currentIndex (jumpToVersion selectedA 2 selectedA) = 2%Z
  /\ currentIndex (redoNext selectedA selectedA) = 1%Z.
Proof.
  assert (NoDup (map (@addr string) (history selectedA))) as ND.
  { cbn. repeat constructor; cbn; intuition discriminate. }
  destruct (@cursor_follows_the_selection string selectedA ND) as (J & _ & Rd).
  split; [exact ND|]. split; [apply J; cbn; lia|].
  rewrite Rd; [reflexivity|cbn; lia].
Defined.

Lemma handleDelete_selection_follows_the_version_witness :
  let list := TuneHistoryList.viewHistoryWithSetter selectedB in
  (TuneHistoryList.setHistory list = Some (@setHistory string)
   /\ (0 <= TuneHistoryList.currentIndex list < Z.of_nat (length (history selectedB)))%Z
   /\ (0 <= 0 < Z.of_nat (length (history selectedB)))%Z)
  /\ exists selected,
       TuneHistoryList.handleDelete list (history selectedB) 0 selectedB
       = ([playlistB],
          TuneHistoryList.onSelect list selected (setHistory [playlistB] selectedB),
          Ok tt)
       /\ elemAt [playlistB] selected = Some playlistB.
Proof.
  intros list.
  assert (0 <= TuneHistoryList.currentIndex list
          < Z.of_nat (length (history selectedB)))%Z as Rc by (cbn; lia).
  assert (0 <= 0 < Z.of_nat (length (history selectedB)))%Z as Ri by (cbn; lia).
  destruct (@handleDelete_selection_follows_the_version string list (@setHistory string)
              (history selectedB) 0 selectedB eq_refl Rc Ri) as (selected & E & F & _).
  split; [auto|]. exists selected. split; [exact E|].
  assert (TuneHistoryList.currentIndex list <> 0%Z) as NE by (cbn; lia).
  exact (F NE).
Defined.

End SelectionFacts.

(** ** What the two removals of duplicates guarantee *)

Module DedupResultFacts.

Import Dedup.

Section WithTracks.

Variable TrackFields : Type.
Variable id : TrackFields -> option jsString.

Local Abbreviation Entry := (option (Track TrackFields)).

Lemma existsb_sameId (seen : list (option jsString)) (k : option jsString) :
  existsb (fun x => sameId x k) seen = true <-> In k seen.
Proof.
  rewrite existsb_exists. split.
  - intros (x & I & S). apply DedupFacts.sameId_eq in S. now subst x.
  - intros I. exists k. split; [exact I|apply DedupFacts.sameId_refl].
Qed.

Lemma firstOccurrences_In (arr : list Entry) :
  forall (seen : list (option jsString)) (t : Entry),
    In t (firstOccurrences id seen arr) ->
    t <> None /\ In t arr /\ ~ In (idOf id t) seen.
Proof.
  induction arr as [|[x|] r IH]; intros seen t; cbn [firstOccurrences]; [tauto| |].
  - destruct (existsb _ seen) eqn:E.
    + intros I. destruct (IH _ _ I) as (N & I' & NS).
      split; [exact N|]. split; [now right|]. intros S. apply NS. now right.
    + intros [<-|I].
      * split; [discriminate|]. split; [now left|]. cbn [idOf].
        intros S. apply existsb_sameId in S. congruence.
      * destruct (IH _ _ I) as (N & I' & NS).
        split; [exact N|]. split; [now right|]. intros S. apply NS. now right.
  - intros I. destruct (IH _ _ I) as (N & I' & NS).
    split; [exact N|]. split; [now right|]. intros S. apply NS. now right.
Qed.

Lemma firstOccurrences_NoDup (arr : list Entry) :
  forall seen, NoDup (map (idOf id) (firstOccurrences id seen arr)).
Proof.
  induction arr as [|[x|] r IH]; intros seen; cbn [firstOccurrences];
    [constructor| |apply IH].
  destruct (existsb _ seen); [apply IH|].
  cbn [map]. constructor; [|apply IH].
  intros I. apply in_map_iff in I. destruct I as (t & E & I).
  destruct (@firstOccurrences_In _ _ _ I) as (_ & _ & NS).
  apply NS. rewrite E. now left.
Qed.

(** A track with an [id] is kept, or its [id] was read before. *)
Lemma firstOccurrences_covers (arr : list Entry) :
  forall (seen : list (option jsString)) (o : Track TrackFields) (k : jsString),
    In (Some o) arr -> id (fields o) = Some k ->
    In (Some k) seen
    \/ exists o', In (Some o') (firstOccurrences id seen arr)
                  /\ id (fields o') = Some k.
Proof.
  induction arr as [|[x|] r IH]; intros seen o k I K; cbn [firstOccurrences];
    [destruct I| |].
  - destruct (existsb _ seen) eqn:E.
    + apply existsb_sameId in E. destruct I as [[= ->]|I].
      * left. now rewrite <- K.
      * destruct (IH (id (fields x) :: seen) o k I K) as [[S|S]|(o' & I' & K')].
        -- left. now rewrite <- S.
        -- now left.
        -- right. eauto.
    + destruct I as [[= ->]|I].
      * right. exists o. split; [now left|exact K].
      * destruct (IH (id (fields x) :: seen) o k I K) as [[S|S]|(o' & I' & K')].
        -- right. exists x. split; [now left|exact S].
        -- now left.
        -- right. exists o'. split; [now right|exact K'].
  - destruct I as [I|I]; [discriminate|].
    destruct (IH (None :: seen) o k I K) as [[S|S]|(o' & I' & K')].
    + discriminate.
    + now left.
    + right. eauto.
Qed.

(** A list without [null] whose [id] values are all different and new
    is kept as it is. *)
Lemma firstOccurrences_fixed (l : list Entry) :
  forall seen,
    Forall (fun t => t <> None) l ->
    NoDup (map (idOf id) l) ->
    (forall t, In t l -> ~ In (idOf id t) seen) ->
    firstOccurrences id seen l = l.
Proof.
  induction l as [|[x|] r IH]; intros seen F ND NS; [reflexivity| |].
  - cbn [firstOccurrences].
    destruct (existsb _ seen) eqn:E.
    + apply existsb_sameId in E. elim (NS (Some x)); [now left|exact E].
    + f_equal. inversion F as [|? ? _ F']. subst.
      cbn [map] in ND. inversion ND as [|? ? NI ND']. subst.
      apply IH; [exact F'|exact ND'|].
      intros t I [S|S].
      * apply NI. rewrite S. now apply in_map.
      * apply (NS t); [now right|exact S].
  - inversion F as [|? ? N _]. congruence.
Qed.

(** X9. The filter by track ID returns tracks of the list only, never
    [null], no two of them with the same [id] (an [id] that is missing
    counts as one value), and of every track with an [id] it returns
    one with that [id]. *)
Theorem dedupById_result (arr : list Entry) :
  let result := dedupById id (Some arr) in
  Forall (fun t => t <> None) result
  /\ (forall t, In t result -> In t arr)
  /\ NoDup (map (idOf id) result)
  /\ (forall (o : Track TrackFields) (k : jsString),
         In (Some o) arr -> id (fields o) = Some k ->
         exists o', In (Some o') result /\ id (fields o') = Some k).
Proof.
  intros result.
  assert (result = firstOccurrences id [] arr) as E
      by exact (DedupFacts.dedupById_firstOccurrences id arr).
  rewrite E. split; [|split; [|split]].
  - apply Forall_forall. intros t I. now destruct (@firstOccurrences_In _ _ _ I).
  - intros t I. now destruct (@firstOccurrences_In _ _ _ I) as (_ & I' & _).
  - apply firstOccurrences_NoDup.
  - intros o k I K.
    destruct (@firstOccurrences_covers arr [] o k I K) as [[]|H]. exact H.
Qed.

(** X10. The filter by track ID is idempotent: filtering the tracks it
    returned removes nothing more. *)
Theorem dedupById_idempotent (arr : list Entry) :
  dedupById id (Some (dedupById id (Some arr))) = dedupById id (Some arr).
Proof.
  rewrite !DedupFacts.dedupById_firstOccurrences.
  apply firstOccurrences_fixed.
  - apply Forall_forall. intros t I. now destruct (@firstOccurrences_In _ _ _ I).
  - apply firstOccurrences_NoDup.
  - intros t _ [].
Qed.

Lemma addAll_distinct (l : list (Track TrackFields)) :
  forall seen : list Entry,
    NoDup (map (@addr TrackFields) l) ->
    (forall o, In o l -> existsb (sameEntry (Some o)) seen = false) ->
    addAll seen (map Some l) = map Some l.
Proof.
  induction l as [|x r IH]; intros seen ND NS; [reflexivity|].
  cbn [map addAll]. rewrite (NS x) by now left. f_equal.
  cbn [map] in ND. inversion ND as [|? ? NI ND']. subst.
  apply IH; [exact ND'|].
  intros o I. cbn [existsb sameEntry]. rewrite (NS o) by now right.
  unfold sameObject. destruct (Nat.eqb_spec (addr o) (addr x)) as [Ea|]; [|reflexivity].
  elim NI. rewrite <- Ea. now apply in_map.
Qed.

(** X11. The set of the earlier [Command] removes nothing from a list of
    distinct track objects, whatever their [id] values: every object that
    a search returned is a member of its own. *)
Theorem dedupBySet_keeps_distinct_objects (l : list (Track TrackFields)) :
  NoDup (map (@addr TrackFields) l) ->
  dedupBySet (Some (map Some l)) = map Some l.
Proof.
  intros ND. unfold dedupBySet. apply addAll_distinct; [exact ND|reflexivity].
Qed.

End WithTracks.

Import Samples.

Lemma dedupBySet_keeps_distinct_objects_witness :
  NoDup (map (@addr jsString) [fetched1; fetched2])
  /\ dedupBySet (Some (map Some [fetched1; fetched2])) = map Some [fetched1; fetched2].
Proof.
  assert (NoDup (map (@addr jsString) [fetched1; fetched2])) as ND.
  { cbn. repeat constructor; cbn; intuition discriminate. }
  split; [exact ND|].
  exact (@dedupBySet_keeps_distinct_objects jsString [fetched1; fetched2] ND).
Defined.

End DedupResultFacts.

(** ** The requests of [play] *)

Module PlayerFacts.

Import Player.

Section WithWorld.

Variable Thrown : Type.
Variable newError : jsString -> Thrown.
Variable getErrorMessage : Thrown -> jsString.
Variable toLocaleLowerCase : jsString -> jsString.
Variable respond : list Request -> Request -> result Thrown unit.
Variable getMyDevices : list Request -> result Thrown (option (list Device)).
Variable checkSpotifyApp : list Request -> result Thrown bool.
Variable mainError : list Thrown -> Thrown.
Variable bail : Thrown -> bool.

Local Abbreviation launchSpotifyAndPlay :=
  (launchSpotifyAndPlay newError getErrorMessage respond).
Local Abbreviation play :=
  (play newError getErrorMessage toLocaleLowerCase respond getMyDevices checkSpotifyApp).

Local Abbreviation lastAnswered := (lastAnswered respond).

Lemma launchSpotifyAndPlay_spec props log :
  fst (launchSpotifyAndPlay props log) = log ++ [RunSpotifyScript (scriptOf props)]
  /\ (snd (launchSpotifyAndPlay props log) = Ok tt
      <-> respond log (RunSpotifyScript (scriptOf props)) = Ok tt).
Proof.
  unfold Player.launchSpotifyAndPlay, send.
  destruct (respond log (RunSpotifyScript (scriptOf props))) as [[]|e]; cbn.
  - tauto.
  - split; [reflexivity|]. split; discriminate.
Qed.

Lemma play_spec props log :
  exists added,
    fst (play props log) = log ++ added
    /\ (length added <= 2)%nat
    /\ Forall (sentFor props) added
    /\ Forall (fun r => isRunSpotifyScript r = true) (tl added)
    /\ (snd (play props log) = Ok tt -> lastAnswered log added).
Proof.
  unfold Player.play.
  destruct (getMyDevices log) as [devices|e];
    [|exists []; cbn; rewrite app_nil_r; repeat split; auto; discriminate].
  destruct (checkSpotifyApp log) as [isSpotifyInstalled|e];
    [|exists []; cbn; rewrite app_nil_r; repeat split; auto; discriminate].
  set (web := PutMePlayerPlay (bodyOf props)
                              (deviceIdOf (activeDeviceOf devices) devices)).
  set (viaApp := RunSpotifyScript (scriptOf props)).
  assert (sentFor props web) as Sw by (right; eexists; reflexivity).
  assert (sentFor props viaApp) as Sa by now left.
  assert (forall (first : Request) (answer : result Thrown unit),
             sentFor props first ->
             (answer = Ok tt -> respond log first = Ok tt) ->
             exists added,
               fst (match (log ++ [first], answer) with
                    | (log', Ok u) => (log', Ok u)
                    | (log', Throw err) =>
                      if isSpotifyInstalled
                         && needsApplication toLocaleLowerCase (getErrorMessage err)
                      then launchSpotifyAndPlay props log'
                      else (log', Throw (newError (getErrorMessage err)))
                    end) = log ++ added
               /\ (length added <= 2)%nat
               /\ Forall (sentFor props) added
               /\ Forall (fun r => isRunSpotifyScript r = true) (tl added)
               /\ (snd (match (log ++ [first], answer) with
                        | (log', Ok u) => (log', Ok u)
                        | (log', Throw err) =>
                          if isSpotifyInstalled
                             && needsApplication toLocaleLowerCase (getErrorMessage err)
                          then launchSpotifyAndPlay props log'
                          else (log', Throw (newError (getErrorMessage err)))
                        end) = Ok tt -> lastAnswered log added)) as Step.
  { intros first answer Sf A. cbv iota beta.
    destruct answer as [[]|err].
    - exists [first]. cbn [fst snd tl length]. split; [reflexivity|].
      split; [lia|]. split; [now constructor|]. split; [constructor|].
      intros _. exists [], first. rewrite app_nil_r. split; [reflexivity|now apply A].
    - destruct (isSpotifyInstalled
                && needsApplication toLocaleLowerCase (getErrorMessage err)).
      + destruct (launchSpotifyAndPlay_spec props (log ++ [first])) as (L & O).
        exists [first; viaApp]. rewrite L, <- app_assoc. cbn [List.app tl length].
        split; [reflexivity|]. split; [lia|].
        split; [constructor; [exact Sf|constructor; [exact Sa|constructor]]|].
        split; [constructor; [reflexivity|constructor]|].
        intros S. apply O in S. exists [first], viaApp. now split.
      + exists [first]. cbn [fst snd tl length]. split; [reflexivity|].
        split; [lia|]. split; [now constructor|]. split; [constructor|]. discriminate. }
  assert (exists answer,
             launchSpotifyAndPlay props log = (log ++ [viaApp], answer)
             /\ (answer = Ok tt -> respond log viaApp = Ok tt)) as (answer & La & Aa).
  { destruct (launchSpotifyAndPlay_spec props log) as (L & O).
    destruct (launchSpotifyAndPlay props log) as [l o]. cbn [fst snd] in L, O.
    exists o. split; [now rewrite L|]. apply O. }
  destruct (activeDeviceOf devices) as [d|] eqn:A.
  - exact (Step web (respond log web) Sw (fun H => H)).
  - destruct isSpotifyInstalled.
    + rewrite La. exact (Step viaApp answer Sa Aa).
    + exact (Step web (respond log web) Sw (fun H => H)).
Qed.

(** X12. For every argument and every state of the devices, [play] makes
    at most two requests: only its one body to the Web API or its one
    script to the application; the Web API is contacted at most once and
    first, and never when Spotify is installed and no device is active.
    When [play] returns without an error, its last request was answered
    without an error. *)
Theorem play_requests props log :
  exists added,
    fst (play props log) = log ++ added
    /\ (length added <= 2)%nat
    /\ Forall (sentFor props) added
    /\ Forall (fun r => isRunSpotifyScript r = true) (tl added)
    /\ (snd (play props log) = Ok tt -> lastAnswered log added)
    /\ (forall devices,
           getMyDevices log = Ok devices ->
           checkSpotifyApp log = Ok true ->
           activeDeviceOf devices = None ->
           Forall (fun r => isRunSpotifyScript r = true) added).
Proof.
  destruct (play_spec props log) as (added & L & N & S & T & O).
  exists added. split; [exact L|]. split; [exact N|]. split; [exact S|].
  split; [exact T|]. split; [exact O|].
  intros devices D I A.
  destruct added as [|first rest]; [constructor|].
  cbn [tl] in T. constructor; [|exact T].
  revert L. unfold Player.play. rewrite D, I, A.
  destruct (launchSpotifyAndPlay_spec props log) as (L1 & _).
  destruct (launchSpotifyAndPlay props log) as [l [[]|err]]; cbn [fst] in L1; subst l.
  - cbn [fst]. intros E. apply app_inv_head in E. now injection E as <- _.
  - destruct (true && needsApplication toLocaleLowerCase (getErrorMessage err)).
    + destruct (launchSpotifyAndPlay_spec props (log ++ [RunSpotifyScript (scriptOf props)]))
        as (L2 & _).
      rewrite L2, <- app_assoc. intros E. apply app_inv_head in E.
      now injection E as <- _.
    + cbn [fst]. intros E. apply app_inv_head in E. now injection E as <- _.
Qed.

(** Retrying keeps what every attempt keeps. *)
Lemma retryFrom_spec (run : list Request -> list Request * result Thrown unit)
      (P : Request -> Prop) (k : nat) :
  (forall log, exists added,
        fst (run log) = log ++ added /\ (length added <= k)%nat /\ Forall P added) ->
  forall attempts errors log,
  exists added,
    fst (retryFrom mainError bail attempts run errors log) = log ++ added
    /\ (length added <= attempts * k)%nat
    /\ Forall P added.
Proof.
  intros Run. induction attempts as [|n IH]; intros errors log.
  - exists []. cbn. rewrite app_nil_r. repeat split; auto.
  - cbn [retryFrom]. destruct (Run log) as (a1 & L1 & N1 & F1).
    destruct (run log) as [log1 [u|e]] eqn:R; cbn [fst] in L1; subst log1.
    + exists a1. cbn [fst]. repeat split; [lia|exact F1].
    + destruct (bail e);
        [exists a1; cbn [fst]; repeat split; [lia|exact F1]|].
      destruct (IH (errors ++ [e]) (log ++ a1)) as (a2 & L2 & N2 & F2).
      exists (a1 ++ a2). rewrite L2, app_assoc. split; [reflexivity|].
      rewrite length_app. split; [lia|]. apply Forall_app. now split.
Qed.

End WithWorld.

End PlayerFacts.

(** ** The requests of the handlers that play and queue *)

Module PlaybackFacts.

Import Player Playback.

Section WithTracks.

Variable TrackFields : Type.
Variable id : TrackFields -> option jsString.
Variable uri : TrackFields -> option jsString.
Variable Thrown : Type.
Variable newError : jsString -> Thrown.
Variable getErrorMessage : Thrown -> jsString.
Variable toLocaleLowerCase : jsString -> jsString.
Variable respond : list Request -> Request -> result Thrown unit.
Variable getMyDevices : list Request -> result Thrown (option (list Device)).
Variable checkSpotifyApp : list Request -> result Thrown bool.
Variable mainError : list Thrown -> Thrown.
Variable bail : Thrown -> bool.
Variable messageOf : Thrown -> jsString.
Variable toLowerCase : jsString -> jsString.

Local Abbreviation Track := (object TrackFields).
Local Abbreviation play :=
  (play newError getErrorMessage toLocaleLowerCase respond getMyDevices checkSpotifyApp).
Local Abbreviation playPlaylist :=
  (playPlaylist id uri newError getErrorMessage toLocaleLowerCase respond getMyDevices
                checkSpotifyApp mainError bail).
Local Abbreviation queueFrom :=
  (queueFrom id uri newError getErrorMessage toLocaleLowerCase respond getMyDevices
             checkSpotifyApp mainError bail messageOf toLowerCase).
Local Abbreviation addSongsToQueue :=
  (addSongsToQueue id uri newError getErrorMessage toLocaleLowerCase respond getMyDevices
                   checkSpotifyApp mainError bail messageOf toLowerCase).

(** X13. The URIs that [addPlaylistToSpotify] adds are the URIs that
    [playPlaylist] plays without the empty strings, in the same order:
    the two handlers differ only on a track whose [uri] is the empty
    string, which one skips and the other sends. *)
Theorem urisToAdd_of_urisToPlay (tracks : list (option Track)) :
  urisToAdd uri tracks = filter notEmpty (urisToPlay uri tracks).
Proof.
  unfold urisToAdd, urisToPlay.
  induction tracks as [|t rest IH]; [reflexivity|].
  cbn [map filter]. unfold hasUri.
  destruct (uriOf uri t) as [[|c u]|] eqn:U;
    cbn [truthy filter map strings notEmpty]; rewrite ?U;
    cbn [strings filter notEmpty]; rewrite ?IH; reflexivity.
Qed.

Lemma retry_play_spec (props : PlayProps) (log : list Request) :
  exists added,
    fst (retry mainError bail 3 (play props) log) = log ++ added
    /\ (length added <= 8)%nat
    /\ Forall (sentFor props) added.
Proof.
  unfold retry.
  destruct (@PlayerFacts.retryFrom_spec Thrown mainError bail (play props) (sentFor props) 2)
    with (attempts := 4%nat) (errors := @nil Thrown) (log := log)
    as (added & L & N & F).
  - intros l.
    destruct (PlayerFacts.play_spec newError getErrorMessage toLocaleLowerCase respond
                getMyDevices checkSpotifyApp props l) as (a & La & Na & Fa & _).
    exists a. auto.
  - exists added. repeat split; [exact L|lia|exact F].
Qed.

(** X14. [playPlaylist] makes at most eight requests, all of them for
    the list of URIs of the tracks that are shown: the whole list to the
    Web API, or its first URI to the application.  It never asks to play
    an empty list: without a track that has a URI it makes no request and
    shows the failure "No valid tracks found", and without a playlist or
    a track it does nothing. *)
Theorem playPlaylist_requests (st : Command.State Track) (log : list Request) :
  let trackUris := urisToPlay uri (tracksOf id st) in
  exists added,
    fst (playPlaylist st log) = log ++ added
    /\ (length added <= 8)%nat
    /\ (forall r, In r added ->
                  exists u rest,
                    trackUris = u :: rest
                    /\ (r = RunSpotifyScript (PlayTrack u None)
                        \/ exists d, r = PutMePlayerPlay (Uris (u :: rest)) d))
    /\ (trackUris = [] ->
        added = []
        /\ snd (playPlaylist st log)
           = match Command.currentPlaylist st, tracksOf id st with
             | Some _, _ :: _ => Some (Throw (newError (units "No valid tracks found")))
             | _, _ => None
             end).
Proof.
  intros trackUris. subst trackUris. unfold Playback.playPlaylist.
  assert (forall (outcome : option (result Thrown unit)) expected,
             outcome = expected ->
             exists added : list Request,
               fst (log, outcome) = log ++ added
               /\ (length added <= 8)%nat
               /\ (forall r, In r added ->
                             exists u rest,
                               urisToPlay uri (tracksOf id st) = u :: rest
                               /\ (r = RunSpotifyScript (PlayTrack u None)
                                   \/ exists d, r = PutMePlayerPlay (Uris (u :: rest)) d))
               /\ (urisToPlay uri (tracksOf id st) = [] ->
                   added = [] /\ snd (log, outcome) = expected)) as Nothing.
  { intros outcome expected ->. exists []. cbn [fst snd length]. rewrite app_nil_r.
    split; [reflexivity|]. split; [lia|]. split; [intros r []|]. now split. }
  destruct (Command.currentPlaylist st) as [v|]; [|now apply Nothing].
  destruct (tracksOf id st) as [|t ts] eqn:T; [now apply Nothing|].
  destruct (urisToPlay uri (t :: ts)) as [|u rest] eqn:U; [now apply Nothing|].
  set (props := {| Player.id := None; type := None; contextUri := None;
                   uris := Some (u :: rest) |}).
  destruct (retry_play_spec props log) as (added & L & N & F).
  exists added.
  destruct (retry mainError bail 3 (play props) log) as [log' outcome].
  cbn [fst snd] in *. split; [exact L|]. split; [exact N|]. split; [|discriminate].
  intros r I. rewrite Forall_forall in F. specialize (F r I).
  exists u, rest. split; [reflexivity|exact F].
Qed.

Lemma queued_app (a b : list Request) : queued (a ++ b) = queued a ++ queued b.
Proof.
  induction a as [|r a IH]; [reflexivity|]. cbn [List.app queued].
  destruct r; cbn [List.app]; now rewrite IH.
Qed.

Lemma sentFor_not_AddToQueue props r : sentFor props r -> isAddToQueue r = false.
Proof. intros [->|(d & ->)]; reflexivity. Qed.

Lemma queued_none (l : list Request) :
  Forall (fun r => isAddToQueue r = false) l -> queued l = [].
Proof.
  induction 1 as [|r l H _ IH]; [reflexivity|].
  destruct r; cbn [queued]; (discriminate H || exact IH).
Qed.

(** The requests of the loop from one track on: queue requests, around
    the requests of at most one start of playback. *)
Lemma queueFrom_spec (tracks : list (option Track)) :
  forall (startedPlayback : bool) (log : list Request),
  exists before started after,
    fst (queueFrom tracks startedPlayback log) = log ++ before ++ started ++ after
    /\ Forall (fun r => isAddToQueue r = true) before
    /\ Forall (fun r => isAddToQueue r = true) after
    /\ (length started <= 8)%nat
    /\ (started = []
        \/ startedPlayback = false
           /\ exists o, In (Some o) tracks
                        /\ Forall (sentFor {| Player.id := id (fields o);
                                              type := Some Player.track;
                                              contextUri := None;
                                              uris := None |}) started)
    /\ (snd (queueFrom tracks startedPlayback log) = Ok false -> started = [])
    /\ (exists rest,
           urisToAdd uri tracks = queued (before ++ started ++ after) ++ rest
           /\ forall b, snd (queueFrom tracks startedPlayback log) = Ok b -> rest = []).
Proof.
  induction tracks as [|track rest IH]; intros startedPlayback log.
  - exists [], [], []. cbn [List.app fst snd length queued Playback.queueFrom].
    rewrite app_nil_r.
    split; [reflexivity|]. split; [constructor|]. split; [constructor|].
    split; [lia|]. split; [now left|]. split; [reflexivity|].
    exists []. split; reflexivity.
  - assert (forall sp l,
               uriOf uri track = None \/ uriOf uri track = Some [] ->
               Playback.queueFrom id uri newError getErrorMessage toLocaleLowerCase respond
                 getMyDevices checkSpotifyApp mainError bail messageOf toLowerCase
                 (track :: rest) sp l = queueFrom rest sp l) as Skip.
    { intros sp l. unfold uriOf. cbn [Playback.queueFrom].
      destruct track as [o|]; [|reflexivity].
      destruct (uri (fields o)) as [[|c u]|]; try reflexivity.
      intros [H|H]; discriminate H. }
    assert (uriOf uri track = None \/ uriOf uri track = Some [] ->
            urisToAdd uri (track :: rest) = urisToAdd uri rest) as SkipU.
    { intros [H|H]; unfold urisToAdd; cbn [map filter]; rewrite H; reflexivity. }
    destruct (uriOf uri track) as [[|c u]|] eqn:U.
    + rewrite Skip by now right. rewrite SkipU by now right.
      destruct (IH startedPlayback log) as (b & s & a & L & Fb & Fa & N & S & O & R).
      exists b, s, a.
      split; [exact L|]. split; [exact Fb|]. split; [exact Fa|]. split; [exact N|].
      split; [|split; [exact O|exact R]].
      destruct S as [S|(S & o & I & F)]; [now left|right].
      split; [exact S|]. exists o. split; [now right|exact F].
    + assert (urisToAdd uri (track :: rest) = (c :: u) :: urisToAdd uri rest) as EU
          by (unfold urisToAdd; cbn [map filter]; rewrite U; reflexivity).
      rewrite EU. clear Skip SkipU.
      destruct track as [o|]; [|discriminate U]. cbn [uriOf] in U.
      cbn [Playback.queueFrom]. rewrite U. unfold send.
      set (q := AddToQueue (c :: u)).
      destruct (respond log q) as [[]|err].
      * destruct (IH startedPlayback (log ++ [q])) as (b & s & a & L & Fb & Fa & N & S & O & R).
        exists (q :: b), s, a. rewrite L, <- app_assoc. cbn [List.app].
        split; [reflexivity|]. split; [now constructor|]. split; [exact Fa|].
        split; [exact N|]. split; [|split; [exact O|]].
        -- destruct S as [S|(S & o' & I & F)]; [now left|right].
           split; [exact S|]. exists o'. split; [now right|exact F].
        -- destruct R as (r & E & Rb). exists r. cbn [queued]. split; [now rewrite E|exact Rb].
      * destruct (negb startedPlayback && noPlayer (toLowerCase (messageOf err))) eqn:C.
        -- apply andb_true_iff in C. destruct C as [NS _].
           apply negb_true_iff in NS. subst startedPlayback.
           set (props := {| Player.id := id (fields o); type := Some Player.track;
                            contextUri := None; uris := None |}).
           destruct (retry_play_spec props (log ++ [q])) as (p & Lp & Np & Fp).
           assert (queued p = []) as Qp.
           { apply queued_none. eapply Forall_impl; [|exact Fp].
             intros r. apply sentFor_not_AddToQueue. }
           destruct (retry mainError bail 3 (play props) (log ++ [q])) as [log2 [[]|e]];
             cbn [fst] in Lp; subst log2.
           ++ destruct (IH true ((log ++ [q]) ++ p))
                as (b & s & a & L & Fb & Fa & N & S & O & R).
              assert (s = []) as ->
                  by (destruct S as [S|(S & _)]; [exact S|discriminate S]).
              exists [q], p, (b ++ a). rewrite L, <- !app_assoc. cbn [List.app].
              split; [reflexivity|]. split; [now repeat constructor|].
              split; [apply Forall_app; now split|]. split; [exact Np|].
              split; [right; split; [reflexivity|]; exists o; split; [now left|exact Fp]|].
              split.
              ** intros H. exfalso. clear - H IH.
                 assert (forall ts l b, snd (queueFrom ts true l) = Ok b -> b = true) as T.
                 { clear. induction ts as [|t ts IHt]; intros l b.
                   - cbn. now intros [= <-].
                   - cbn [Playback.queueFrom]. destruct t as [o|]; [|apply IHt].
                     destruct (uri (fields o)) as [[|c u]|]; try apply IHt.
                     unfold send. destruct (respond l (AddToQueue (c :: u))) as [[]|e];
                       [apply IHt|]. cbn [negb andb snd]. discriminate. }
                 apply T in H. discriminate H.
              ** destruct R as (r & E & Rb). exists r. cbn [List.app] in E.
                 rewrite <- !app_assoc in Rb. cbn [List.app] in Rb.
                 subst q. cbn [queued]. rewrite queued_app, Qp. cbn [List.app].
                 split; [now rewrite E|exact Rb].
           ++ exists [q], p, []. rewrite <- !app_assoc. cbn [List.app fst snd].
              rewrite app_nil_r.
              split; [reflexivity|]. split; [now repeat constructor|].
              split; [constructor|]. split; [exact Np|].
              split; [right; split; [reflexivity|]; exists o; split; [now left|exact Fp]|].
              split; [discriminate|].
              exists (urisToAdd uri rest). subst q. cbn [queued].
              rewrite ?queued_app, Qp. cbn [queued List.app].
              split; [reflexivity|discriminate].
        -- exists [q], [], []. cbn [List.app fst snd length].
           split; [reflexivity|]. split; [now repeat constructor|].
           split; [constructor|]. split; [lia|]. split; [now left|].
           split; [discriminate|].
           exists (urisToAdd uri rest). cbn [queued List.app].
           split; [reflexivity|discriminate].
    + rewrite Skip by now left. rewrite SkipU by now left.
      destruct (IH startedPlayback log) as (b & s & a & L & Fb & Fa & N & S & O & R).
      exists b, s, a.
      split; [exact L|]. split; [exact Fb|]. split; [exact Fa|]. split; [exact N|].
      split; [|split; [exact O|exact R]].
      destruct S as [S|(S & o & I & F)]; [now left|right].
      split; [exact S|]. exists o. split; [now right|exact F].
Qed.

(** X15. [addSongsToQueue] asks to queue the tracks in the order of the
    playlist: the URIs of its queue requests are the first ones of the
    tracks that have a URI, each asked once, and all of them when the
    handler ends with its success toast. *)
Theorem addSongsToQueue_keeps_the_order (st : Command.State Track) (log : list Request) :
  exists added rest,
    fst (addSongsToQueue st log) = log ++ added
    /\ urisToAdd uri (tracksOf id st) = queued added ++ rest
    /\ (forall startedPlayback,
           snd (addSongsToQueue st log) = Some (Ok startedPlayback) -> rest = []).
Proof.
  unfold Playback.addSongsToQueue.
  destruct (Command.currentPlaylist st) as [v|];
    [|exists [], (urisToAdd uri (tracksOf id st)); cbn; rewrite app_nil_r;
      repeat split; discriminate].
  destruct (tracksOf id st) as [|t ts] eqn:T;
    [exists [], []; cbn; rewrite app_nil_r; repeat split; discriminate|].
  destruct (queueFrom_spec (t :: ts) false log)
    as (b & s & a & L & _ & _ & _ & _ & _ & (rest & E & R)).
  destruct (queueFrom (t :: ts) false log) as [log' outcome]. cbn [fst snd] in *.
  exists (b ++ s ++ a), rest. split; [exact L|]. split; [exact E|].
  intros sp [= ->]. now apply (R sp).
Qed.

(** X16. [addSongsToQueue] starts playback for one track at most: its
    requests are queue requests, then at most eight requests of [play]
    for one track of the playlist, then queue requests again; an error
    of a queue request after that start is never answered by a second
    start.  When it reports that no playback was started, it has made
    queue requests only. *)
Theorem addSongsToQueue_starts_playback_once (st : Command.State Track)
        (log : list Request) :
  exists before started after,
    fst (addSongsToQueue st log) = log ++ before ++ started ++ after
    /\ Forall (fun r => isAddToQueue r = true) before
    /\ Forall (fun r => isAddToQueue r = true) after
    /\ (length started <= 8)%nat
    /\ (started = []
        \/ exists o, In (Some o) (tracksOf id st)
                     /\ Forall (sentFor {| Player.id := id (fields o);
                                           type := Some Player.track;
                                           contextUri := None;
                                           uris := None |}) started)
    /\ (snd (addSongsToQueue st log) = Some (Ok false) -> started = []).
Proof.
  unfold Playback.addSongsToQueue.
  destruct (Command.currentPlaylist st) as [v|];
    [|exists [], [], []; cbn; rewrite app_nil_r; repeat split; auto; lia].
  destruct (tracksOf id st) as [|t ts] eqn:T;
    [exists [], [], []; cbn; rewrite app_nil_r; repeat split; auto; lia|].
  destruct (queueFrom_spec (t :: ts) false log)
    as (b & s & a & L & Fb & Fa & N & S & O & _).
  destruct (queueFrom (t :: ts) false log) as [log' outcome]. cbn [fst snd] in *.
  exists b, s, a. split; [exact L|]. split; [exact Fb|]. split; [exact Fa|].
  split; [exact N|]. split.
  - destruct S as [S|(_ & o & I & F)]; [now left|right]. eauto.
  - intros [= ->]. now apply O.
Qed.

End WithTracks.

End PlaybackFacts.

(** ** The first steps on an answer: code block, span, cleanup *)

Module SpanFacts.

Import JSON Extractor JSONFacts ExtractorFacts Span.

Lemma replaceFrom_essential s :
  forall inMatch, filter essential (replaceFrom inMatch s) = filter essential s.
Proof.
  induction s as [|c r IH]; intros inMatch; [reflexivity|].
  cbn [replaceFrom filter]. unfold essential at 2.
  destruct inMatch.
  - destruct (isWhiteSpace c) eqn:W.
    + rewrite andb_false_r. apply IH.
    + cbn [filter]. unfold essential at 1. rewrite W, (IH false). reflexivity.
  - destruct ((c =? comma)%N && closingAhead r) eqn:C.
    + apply andb_true_iff in C. destruct C as [C _]. rewrite C. cbn [negb andb]. apply IH.
    + cbn [filter]. unfold essential at 1. rewrite (IH false). reflexivity.
Qed.

Lemma replaceFrom_length s :
  forall inMatch, (length (replaceFrom inMatch s) <= length s)%nat.
Proof.
  induction s as [|c r IH]; intros inMatch; [reflexivity|].
  cbn [replaceFrom]. pose proof (IH true). pose proof (IH false).
  destruct inMatch.
  - destruct (isWhiteSpace c); cbn [length]; lia.
  - destruct ((c =? comma)%N && closingAhead r); cbn [length]; lia.
Qed.

Lemma replaceFrom_without_comma s :
  lacks comma s = true -> replaceFrom false s = s.
Proof.
  unfold lacks. induction s as [|c r IH]; [reflexivity|].
  cbn [forallb replaceFrom]. intros H. apply andb_true_iff in H. destruct H as [C R].
  apply negb_true_iff in C. rewrite C. cbn [andb]. now rewrite IH.
Qed.

(** X17. The cleanup deletes commas and white space only: the other
    code units of the text are kept, in their order, so the cleaned text
    is never longer, and a text without a comma is left as it is. *)
Theorem stripTrailingCommas_deletes_commas_and_spaces (s : jsString) :
  filter essential (stripTrailingCommas s) = filter essential s
  /\ (length (stripTrailingCommas s) <= length s)%nat
  /\ (lacks comma s = true -> stripTrailingCommas s = s).
Proof.
  unfold stripTrailingCommas. split; [apply replaceFrom_essential|].
  split; [apply replaceFrom_length|apply replaceFrom_without_comma].
Qed.

(** What [(?:json)?\s*] consumes does not reach a backtick. *)
Lemma afterOpening_fence inner rest :
  afterOpening (inner ++ 96%N :: rest) = afterOpening inner ++ 96%N :: rest.
Proof.
  unfold afterOpening.
  assert (stripPrefix (units "json") (inner ++ 96%N :: rest)
          = match stripPrefix (units "json") inner with
            | Some r => Some (r ++ 96%N :: rest)
            | None => None
            end) as ->.
  { rewrite json_units.
    destruct inner as [|l0 [|l1 [|l2 [|l3 L]]]]; cbn [app stripPrefix];
      change (106 =? 96)%N with false; change (115 =? 96)%N with false;
      change (111 =? 96)%N with false; change (110 =? 96)%N with false;
      repeat (match goal with
              | |- context [(?a =? ?b)%N] => destruct (a =? b)%N
              end); reflexivity. }
  destruct (stripPrefix (units "json") inner); now rewrite trimStart_app_solid.
Qed.

Lemma fenceFree_afterOpening inner : fenceFree inner -> fenceFree (afterOpening inner).
Proof.
  unfold fenceFree, afterOpening. intros F. apply noFence_trimStart.
  destruct (stripPrefix (units "json") inner) as [r|] eqn:P; [|exact F].
  destruct (stripPrefix_json_split _ P) as (p & ->).
  rewrite <- app_assoc in F. eapply noFence_app_r. exact F.
Qed.

Lemma trimEnd_prefix (s : jsString) : exists w, s = trimEnd s ++ w.
Proof.
  unfold trimEnd. destruct (trimStart_split (rev s)) as (w & E & _).
  exists (rev w). rewrite <- rev_app_distr, <- E. now rewrite rev_involutive.
Qed.

Lemma noFence_trim s : fenceFree s -> noFence (trim s).
Proof.
  unfold fenceFree, trim. intros F. apply noFence_app_l in F.
  assert (noFence (trimStart s)) as T.
  { pose proof (@noFence_trimStart s []) as H. rewrite !app_nil_r in H. now apply H. }
  destruct (trimEnd_prefix (trimStart s)) as (w & E). rewrite E in T.
  eapply noFence_app_l. exact T.
Qed.

Lemma codeBlockMatch_block pre inner post :
  fenceFree pre -> fenceFree inner ->
  codeBlockMatch (pre ++ fence ++ inner ++ fence ++ post) = Some (afterOpening inner).
Proof.
  intros Fp Fi. apply codeBlockMatch_first; [exact Fp|].
  change (fence ++ post) with (96 :: 96 :: 96 :: post)%N.
  rewrite afterOpening_fence.
  change (96 :: 96 :: 96 :: post)%N with (fence ++ post).
  apply untilFence_fenceFree. now apply fenceFree_afterOpening.
Qed.

Lemma cleanAIResponse_noFence s :
  noFence s ->
  cleanAIResponse s = match jsonMatch s with
                      | None => Throw NoJsonObjectFound
                      | Some m => Ok (stripTrailingCommas m)
                      end.
Proof. intros F. unfold cleanAIResponse. now rewrite (codeBlockMatch_noFence F). Qed.

Lemma cleanAIResponse_block pre inner post :
  fenceFree pre -> fenceFree inner ->
  cleanAIResponse (pre ++ fence ++ inner ++ fence ++ post)
  = cleanAIResponse (trim (afterOpening inner)).
Proof.
  intros Fp Fi.
  rewrite (@cleanAIResponse_noFence (trim (afterOpening inner)))
    by (apply noFence_trim; now apply fenceFree_afterOpening).
  unfold cleanAIResponse. now rewrite (codeBlockMatch_block post Fp Fi).
Qed.

Lemma fromFirst_None c s : lacks c s = true -> fromFirst c s = None.
Proof.
  unfold lacks. induction s as [|x r IH]; [reflexivity|]. cbn [forallb fromFirst].
  intros H. apply andb_true_iff in H. destruct H as [Hx Hr].
  apply negb_true_iff in Hx. rewrite Hx. now apply IH.
Qed.

Lemma lacks_trim c s : lacks c s = true -> lacks c (trim s) = true.
Proof. intros H. unfold trim. now apply lacks_trimEnd, lacks_trimStart. Qed.

(** X18. When the answer holds a code block, only the content of the
    first one is read: the text before its fence and everything after
    its closing fence play no part, and the answer is treated as that
    content, without the language tag [json] and the white space around
    it, would be.  So a first block without an opening brace gives the
    error for a missing object, whatever stands outside the block. *)
Theorem first_code_block_decides (pre inner post : jsString) :
  fenceFree pre -> fenceFree inner ->
  let answer := pre ++ fence ++ inner ++ fence ++ post in
  let content := trim (afterOpening inner) in
  cleanAIResponse answer = cleanAIResponse content
  /\ parseAiPlaylistResponse answer = parseAiPlaylistResponse content
  /\ (lacks openBrace inner = true ->
      parseAiPlaylistResponse answer = Throw NoJsonObjectFound).
Proof.
  intros Fp Fi answer content.
  pose proof (@cleanAIResponse_block pre inner post Fp Fi) as E.
  fold answer content in E.
  split; [exact E|]. split; [unfold parseAiPlaylistResponse; now rewrite E|].
  intros NB. unfold parseAiPlaylistResponse. rewrite E.
  rewrite (@cleanAIResponse_noFence content)
    by (apply noFence_trim; now apply fenceFree_afterOpening).
  unfold jsonMatch.
  now rewrite (@fromFirst_None openBrace content
                 (@lacks_trim _ _ (@lacks_afterOpening _ _ NB))).
Qed.

Lemma fromFirst_split c s t : fromFirst c s = Some t -> exists L, s = L ++ t.
Proof.
  induction s as [|x r IH]; [discriminate|]. cbn [fromFirst].
  destruct (x =? c)%N.
  - intros [= <-]. now exists [].
  - intros F. destruct (IH F) as (L & ->). now exists (x :: L).
Qed.

Lemma fromFirst_Some_head c s t : fromFirst c s = Some t -> exists r, t = c :: r.
Proof.
  induction s as [|x r IH]; [discriminate|]. cbn [fromFirst].
  destruct (N.eqb_spec x c) as [->|]; [|exact IH]. intros [= <-]. eauto.
Qed.

Lemma uptoLast_split c s p :
  uptoLast c s = Some p -> exists mid R, p = mid ++ [c] /\ s = p ++ R.
Proof.
  unfold uptoLast. destruct (fromFirst c (rev s)) as [t|] eqn:F; [|discriminate].
  intros [= <-]. destruct (fromFirst_Some_head _ _ F) as (r & ->).
  destruct (fromFirst_split _ _ F) as (L & E).
  exists (rev r), (rev L). cbn [rev]. split; [reflexivity|].
  rewrite <- (rev_involutive s), E, rev_app_distr. cbn [rev]. reflexivity.
Qed.

Lemma uptoLast_present c a R : uptoLast c (a ++ c :: R) <> None.
Proof.
  rewrite uptoLast_app.
  pose proof (@uptoLast_app c [c] R) as E. cbn [app] in E. rewrite E.
  destruct (uptoLast c R); [discriminate|].
  pose proof (@uptoLast_snoc c []) as S. cbn [app] in S. rewrite S. discriminate.
Qed.

Lemma jsonMatch_None s : jsonMatch s = None <-> ~ holdsBraces s.
Proof.
  unfold jsonMatch, holdsBraces. split.
  - intros J (L & mid & R & ->).
    rewrite fromFirst_app in J.
    destruct (fromFirst openBrace L) as [x|] eqn:F.
    + destruct (fromFirst_Some_head _ _ F) as (r & ->). cbn [app] in J.
      pose proof (@uptoLast_present closeBrace (r ++ openBrace :: mid) R) as P.
      rewrite <- app_assoc in P. cbn [app] in P.
      destruct (uptoLast closeBrace (r ++ openBrace :: mid ++ closeBrace :: R));
        [discriminate|now apply P].
    + cbn [fromFirst] in J. rewrite N.eqb_refl in J.
      pose proof (@uptoLast_present closeBrace mid R) as P.
      destruct (uptoLast closeBrace (mid ++ closeBrace :: R)); [discriminate|now apply P].
  - intros N. destruct (fromFirst openBrace s) as [[|b r]|] eqn:F; try reflexivity.
    destruct (uptoLast closeBrace r) as [body|] eqn:U; [|reflexivity].
    exfalso. apply N.
    destruct (fromFirst_split _ _ F) as (L & ->).
    destruct (fromFirst_Some_head _ _ F) as (r' & [= -> <-]).
    destruct (uptoLast_split _ _ U) as (mid & R & -> & ->).
    exists L, mid, R. rewrite <- app_assoc. reflexivity.
Qed.

(** X19. In an answer without a code block, the object is looked for
    between the first opening brace and the last closing brace after it:
    the error for a missing object is raised exactly when no opening
    brace is followed by a closing brace, and otherwise what is parsed
    is that span, cleaned, whatever stands before and after it. *)
Theorem object_span_of_plain_answer (data : jsString) :
  noFence data ->
  (cleanAIResponse data = Throw NoJsonObjectFound <-> ~ holdsBraces data)
  /\ (forall e, cleanAIResponse data = Throw e -> e = NoJsonObjectFound)
  /\ (forall L mid R,
         data = L ++ (openBrace :: mid ++ [closeBrace]) ++ R ->
         lacks openBrace L = true -> lacks closeBrace R = true ->
         cleanAIResponse data = Ok (stripTrailingCommas (openBrace :: mid ++ [closeBrace]))).
Proof.
  intros F. rewrite (cleanAIResponse_noFence F). split; [|split].
  - rewrite <- jsonMatch_None. destruct (jsonMatch data); split; congruence.
  - intros e. destruct (jsonMatch data); congruence.
  - intros L mid R -> HL HR. now rewrite (@jsonMatch_inside L mid R HL HR).
Qed.

(** A fence inside a string literal of a valid object is taken for a
    code block, and the object is not found. *)
Lemma fence_in_string_literal :
  let text := quoted "{'name':'```a```','tracks':[{'title':'t','artist':'b'}]}" in
  (exists v, parse text = Some v)
  /\ parseAiPlaylistResponse text = Throw NoJsonObjectFound.
Proof.
  intros text. split; [eexists|]; vm_compute; reflexivity.
Qed.

(** X20. A valid JSON object is never rejected as an invalid response
    when the answer holds no fence but those of the code block around
    it, if any: no [```] in an answer without a code block, and none
    before the opening fence nor inside the block otherwise (so none in
    the object itself).  With text without an opening brace before the
    object and text without a closing brace after it, the object is
    found, stays valid under the cleanup and is parsed at the first
    attempt.  What is returned is an object, and the only error left is
    the one for an answer without songs. *)
Theorem valid_object_is_parsed (L mid R : jsString) (v : value) :
  let object := openBrace :: mid ++ [closeBrace] in
  parse object = Some v ->
  lacks openBrace L = true -> lacks closeBrace R = true ->
  exists ms,
    parse (stripTrailingCommas object) = Some (JObject ms)
    /\ forall data,
         (data = L ++ object ++ R /\ noFence data)
         \/ (exists pre post,
                data = pre ++ fence ++ (L ++ object ++ R) ++ fence ++ post
                /\ fenceFree pre /\ fenceFree (L ++ object ++ R)) ->
         cleanAIResponse data = Ok (stripTrailingCommas object)
         /\ parseAiPlaylistResponse_unvalidated data = Ok (JObject ms)
         /\ (parseAiPlaylistResponse data = Ok (JObject ms)
             \/ parseAiPlaylistResponse data = Throw ContainsNoSongs).
Proof.
  intros J V HL HR.
  destruct (parse_stripTrailingCommas _ V) as (v' & P).
  assert (exists ms, v' = JObject ms) as (ms & ->).
  { revert P. unfold J, stripTrailingCommas. cbn [replaceFrom].
    change (openBrace =? comma)%N with false. cbn [andb]. apply parse_object. }
  exists ms. split; [exact P|]. intros data D.
  assert (cleanAIResponse data = Ok (stripTrailingCommas J)) as C.
  { destruct D as [(-> & F)|(pre & post & -> & Fp & Fi)].
    - rewrite (cleanAIResponse_noFence F). unfold J.
      now rewrite (@jsonMatch_inside L mid R HL HR).
    - unfold J in *. now apply cleanAIResponse_fenced. }
  split; [exact C|].
  split; [unfold parseAiPlaylistResponse_unvalidated, parseWithRepair; now rewrite C, P|].
  unfold parseAiPlaylistResponse, parseWithRepair. rewrite C, P. cbn [tracksOf].
  destruct (falsy _ || negb (isArray _) || Nat.eqb (lengthOf _) 0); [now right|now left].
Qed.

Import Samples.

Lemma first_code_block_decides_witness :
  let pre := quoted "{'tracks':[{'title':'T','artist':'A'}]} or, as code: " in
  let inner := units "json" ++ LF ++ units "tracks = []" ++ LF in
  let post := quoted " and {'tracks':[{'title':'U','artist':'B'}]} ```js```" in
  (fenceFree pre /\ fenceFree inner /\ lacks openBrace inner = true)
  /\ cleanAIResponse (pre ++ fence ++ inner ++ fence ++ post)
     = cleanAIResponse (units "tracks = []")
  /\ parseAiPlaylistResponse (pre ++ fence ++ inner ++ fence ++ post)
     = Throw NoJsonObjectFound.
Proof.
  intros pre inner post.
  assert (fenceFree pre) as Fp by (vm_compute; reflexivity).
  assert (fenceFree inner) as Fi by (vm_compute; reflexivity).
  assert (lacks openBrace inner = true) as NB by (vm_compute; reflexivity).
  destruct (@first_code_block_decides pre inner post Fp Fi) as (C & _ & T).
  split; [auto|]. split; [exact C|exact (T NB)].
Defined.

Lemma object_span_of_plain_answer_witness :
  let data := units "Sure: " ++ plainObject ++ units " Enjoy!" in
  noFence data
  /\ holdsBraces data
  /\ cleanAIResponse data = Ok plainObject.
Proof.
  intros data.
  assert (noFence data) as F by (vm_compute; reflexivity).
  destruct (@object_span_of_plain_answer data F) as (_ & _ & S).
  split; [exact F|]. split.
  - exists (units "Sure: "), plainMid, (units " Enjoy!"). reflexivity.
  - exact (S (units "Sure: ") plainMid (units " Enjoy!") eq_refl eq_refl eq_refl).
Defined.

Lemma valid_object_is_parsed_witness :
  let plain := units "Sure: " ++ plainObject ++ units " Enjoy!" in
  let fenced := units "Here: " ++ fence ++ plain ++ fence ++ units " Bye." in
  (parse plainObject = Some plainValue /\ noFence plain /\ fenceFree plain)
  /\ exists ms,
       parseAiPlaylistResponse_unvalidated plain = Ok (JObject ms)
       /\ parseAiPlaylistResponse_unvalidated fenced = Ok (JObject ms).
Proof.
  intros plain fenced.
  assert (parse plainObject = Some plainValue) as V by (vm_compute; reflexivity).
  assert (noFence plain) as F by (vm_compute; reflexivity).
  assert (fenceFree plain) as FF by (vm_compute; reflexivity).
  assert (fenceFree (units "Here: ")) as Fp by (vm_compute; reflexivity).
  destruct (@valid_object_is_parsed (units "Sure: ") plainMid (units " Enjoy!") plainValue
              V eq_refl eq_refl) as (ms & _ & A).
  split; [auto|]. exists ms. split.
  - apply (A plain). left. split; [reflexivity|exact F].
  - apply (A fenced). right. exists (units "Here: "), (units " Bye.").
    split; [reflexivity|]. split; [exact Fp|exact FF].
Defined.

End SpanFacts.
